(** * Markdown-aware translation engine of [scripts/translate-docs.py]

    A shallow embedding of the protection, segmentation, reconstruction,
    anchor and validation code of the script, of its translation clients,
    its cache and its language toggle, and the properties of its
    specification settled against that embedding.

    Python strings are sequences of Unicode code points: a character is a
    code point in [N], a string a list of them.  The regular expressions of
    the script are kept as data (lists of [node]s) and run by a small
    backtracking matcher that follows the priorities of Python's [re]
    module: greedy quantifiers try the longest repetition first, lazy ones
    the shortest first. *)

From Stdlib Require Import String Ascii.
From Stdlib Require Import List NArith Arith Lia Bool DecimalNat Permutation Sorted.
Import ListNotations.
Local Open Scope list_scope.

Set Implicit Arguments.

(* ================================================================== *)
(** * Characters and strings *)
(* ================================================================== *)

Definition char := N.
Definition str := list char.

(** UTF-8 decoding of a Rocq string literal, so that constants of the
    source can be written as they are in the source. *)
Fixpoint utf8_decode (bs : list N) : str :=
  match bs with
  | [] => []
  | b :: t =>
      if (b <? 128)%N then b :: utf8_decode t
      else if (b <? 224)%N then
        match t with
        | b2 :: t2 => ((b - 192) * 64 + (b2 - 128))%N :: utf8_decode t2
        | _ => []
        end
      else if (b <? 240)%N then
        match t with
        | b2 :: b3 :: t3 =>
            ((b - 224) * 4096 + (b2 - 128) * 64 + (b3 - 128))%N :: utf8_decode t3
        | _ => []
        end
      else
        match t with
        | b2 :: b3 :: b4 :: t4 =>
            ((b - 240) * 262144 + (b2 - 128) * 4096 + (b3 - 128) * 64 + (b4 - 128))%N
              :: utf8_decode t4
        | _ => []
        end
  end.

Definition py (s : string) : str :=
  utf8_decode (map N_of_ascii (list_ascii_of_string s)).
Arguments py s%_string_scope.

Definition NL : char := 10%N.
Definition SP : char := 32%N.
Definition TAB : char := 9%N.
Definition PIPE : char := 124%N.
Definition STAR : char := 42%N.
Definition BACKTICK : char := 96%N.
Definition COMMA : char := 44%N.
Definition LBRACK : char := 91%N.
Definition RBRACK : char := 93%N.
Definition LPAREN : char := 40%N.
Definition RPAREN : char := 41%N.
Definition HASH : char := 35%N.
Definition DASH : char := 45%N.

Fixpoint str_eqb (a b : str) : bool :=
  match a, b with
  | [], [] => true
  | x :: a', y :: b' => (x =? y)%N && str_eqb a' b'
  | _, _ => false
  end.

Definition in_range (lo hi c : N) : bool := ((lo <=? c) && (c <=? hi))%N.

(** [c in "..."] for a character [c]. *)
Definition in_set (l : str) (c : char) : bool := existsb (N.eqb c) l.

(** [str.isspace] on one code point, which is also what [\s] matches in a
    [str] pattern (Unicode 14, the table of CPython 3.11). *)
Definition is_space (c : char) : bool :=
  in_range 9 13 c || in_range 28 32 c || in_set [133; 160; 5760]%N c
  || in_range 8192 8202 c || in_set [8232; 8233; 8239; 8287; 12288]%N c.

(** First code points of the runs of ten decimal digits (category Nd). *)
Definition digit_runs : list N :=
  [48; 1632; 1776; 1984; 2406; 2534; 2662; 2790; 2918; 3046; 3174; 3302;
   3430; 3558; 3664; 3792; 3872; 4160; 4240; 6112; 6160; 6470; 6608; 6784;
   6800; 6992; 7088; 7232; 7248; 42528; 43216; 43264; 43472; 43504; 43600;
   44016; 65296; 66720; 68912; 69734; 69872; 69942; 70096; 70384; 70736;
   70864; 71248; 71360; 71472; 71904; 72016; 72784; 73040; 73120; 92768;
   92864; 93008; 123200; 123632; 125264; 130032]%N.

(** What [\d] matches in a [str] pattern: the Unicode decimal digits. *)
Definition is_digit (c : char) : bool :=
  existsb (fun b => in_range b (b + 9) c) digit_runs
  || in_range 120782 120831 c.

(** [.] without DOTALL. *)
Definition dot (c : char) : bool := negb (c =? NL)%N.

(** [[^x]]. *)
Definition notc (x c : char) : bool := negb (c =? x)%N.

(** ** String methods *)

Fixpoint startswith (pre s : str) : bool :=
  match pre, s with
  | [], _ => true
  | x :: pre', y :: s' => (x =? y)%N && startswith pre' s'
  | _ :: _, [] => false
  end.

Definition endswith (suf s : str) : bool := startswith (rev suf) (rev s).

Fixpoint lstrip_by (p : char -> bool) (s : str) : str :=
  match s with
  | c :: s' => if p c then lstrip_by p s' else s
  | [] => []
  end.

Definition rstrip_by (p : char -> bool) (s : str) : str :=
  rev (lstrip_by p (rev s)).

(** [s.strip()]. *)
Definition strip (s : str) : str := rstrip_by is_space (lstrip_by is_space s).

(** [s.split(sep)] for a separator of one character. *)
Fixpoint split (sep : char) (s : str) : list str :=
  match s with
  | [] => [[]]
  | c :: s' =>
      if (c =? sep)%N then [] :: split sep s'
      else match split sep s' with
           | w :: ws => (c :: w) :: ws
           | [] => [[c]]
           end
  end.

(** [sep.join(parts)]. *)
Fixpoint join (sep : str) (parts : list str) : str :=
  match parts with
  | [] => []
  | [w] => w
  | w :: ws => w ++ sep ++ join sep ws
  end.

Fixpoint replace_go (fuel : nat) (old new s : str) : str :=
  match fuel with
  | 0 => s
  | S fuel' =>
      if startswith old s then new ++ replace_go fuel' old new (skipn (length old) s)
      else match s with
           | [] => []
           | c :: s' => c :: replace_go fuel' old new s'
           end
  end.

(** [s.replace(old, new)]: every occurrence found scanning from the left,
    without overlap.  An empty [old] is found before every character and at
    the end. *)
Definition replace (old new s : str) : str :=
  match old with
  | [] => new ++ flat_map (fun c => c :: new) s
  | _ => replace_go (length s) old new s
  end.

Fixpoint count_go (fuel : nat) (old s : str) : nat :=
  match fuel with
  | 0 => 0
  | S fuel' =>
      if startswith old s then S (count_go fuel' old (skipn (length old) s))
      else match s with
           | [] => 0
           | _ :: s' => count_go fuel' old s'
           end
  end.

(** [s.count(old)] for a non-empty [old]. *)
Definition count (old s : str) : nat := count_go (length s) old s.

(** [str(n)] for a non-negative integer. *)
Fixpoint uint_chars (d : Decimal.uint) : str :=
  match d with
  | Decimal.Nil => []
  | Decimal.D0 d' => 48%N :: uint_chars d'
  | Decimal.D1 d' => 49%N :: uint_chars d'
  | Decimal.D2 d' => 50%N :: uint_chars d'
  | Decimal.D3 d' => 51%N :: uint_chars d'
  | Decimal.D4 d' => 52%N :: uint_chars d'
  | Decimal.D5 d' => 53%N :: uint_chars d'
  | Decimal.D6 d' => 54%N :: uint_chars d'
  | Decimal.D7 d' => 55%N :: uint_chars d'
  | Decimal.D8 d' => 56%N :: uint_chars d'
  | Decimal.D9 d' => 57%N :: uint_chars d'
  end.

Definition str_of_nat (n : nat) : str := uint_chars (Nat.to_uint n).

(* ================================================================== *)
(** * Regular expressions *)
(* ================================================================== *)

(** Every quantifier of the script's patterns applies to one character
    class, and groups are neither nested nor repeated, so a pattern is a
    sequence of nodes; [Open] and [Close] are the parentheses of a group. *)
Inductive node : Type :=
| One (p : char -> bool)
| Rep (p : char -> bool) (lo : nat) (hi : option nat) (greedy : bool)
| Open
| Close
| Bol
| Eol.

Definition regex := list node.

Definition Lit (c : char) : node := One (N.eqb c).
Definition Star (p : char -> bool) : node := Rep p 0 None true.
Definition Plus (p : char -> bool) : node := Rep p 1 None true.
Definition PlusLazy (p : char -> bool) : node := Rep p 1 None false.

(** [^]: at the start of the string, and after a newline under MULTILINE. *)
Definition at_bol (ml : bool) (prev : option char) : bool :=
  match prev with
  | None => true
  | Some c => ml && (c =? NL)%N
  end.

(** [$]: at the end of the string or before its final newline, and before
    any newline under MULTILINE. *)
Definition at_eol (ml : bool) (s : str) : bool :=
  match s with
  | [] => true
  | c :: s' => (c =? NL)%N && (ml || match s' with [] => true | _ => false end)
  end.

Fixpoint span_len (p : char -> bool) (s : str) : nat :=
  match s with
  | c :: s' => if p c then S (span_len p s') else 0
  | [] => 0
  end.

(** The repetition counts a quantifier tries, in the order it tries them. *)
Definition candidates (p : char -> bool) (lo : nat) (hi : option nat)
    (greedy : bool) (s : str) : list nat :=
  let m := match hi with
           | Some h => Nat.min h (span_len p s)
           | None => span_len p s
           end in
  let up := seq lo (S m - lo) in
  if greedy then rev up else up.

Fixpoint first_some {A B : Type} (f : A -> option B) (l : list A) : option B :=
  match l with
  | [] => None
  | x :: l' => match f x with
               | Some y => Some y
               | None => first_some f l'
               end
  end.

(** The character before the position reached after consuming [w]. *)
Definition prev_after (prev : option char) (w : str) : option char :=
  match rev w with
  | c :: _ => Some c
  | [] => prev
  end.

(** [exec ml r prev s] matches [r] at the start of [s], [prev] being the
    character before it; the result has the text consumed by each node. *)
Fixpoint exec (ml : bool) (r : regex) (prev : option char) (s : str)
    : option (list str) :=
  match r with
  | [] => Some []
  | One p :: r' =>
      match s with
      | c :: s' =>
          if p c then option_map (cons [c]) (exec ml r' (Some c) s') else None
      | [] => None
      end
  | Rep p lo hi greedy :: r' =>
      first_some
        (fun n => option_map (cons (firstn n s))
                    (exec ml r' (prev_after prev (firstn n s)) (skipn n s)))
        (candidates p lo hi greedy s)
  | Open :: r' => option_map (cons []) (exec ml r' prev s)
  | Close :: r' => option_map (cons []) (exec ml r' prev s)
  | Bol :: r' =>
      if at_bol ml prev then option_map (cons []) (exec ml r' prev s) else None
  | Eol :: r' =>
      if at_eol ml s then option_map (cons []) (exec ml r' prev s) else None
  end.

(** [m.group(0)]. *)
Definition group0 (chunks : list str) : str := concat chunks.

Fixpoint collect (r : regex) (chunks : list str) : str :=
  match r, chunks with
  | Close :: _, _ => []
  | _ :: r', w :: chunks' => w ++ collect r' chunks'
  | _, _ => []
  end.

(** [m.group(k)] for [k >= 1]: the text between the [k]-th [Open] and its
    [Close]. *)
Fixpoint group (k : nat) (r : regex) (chunks : list str) : str :=
  match r, chunks with
  | Open :: r', _ :: chunks' =>
      match k with
      | 0 => []
      | 1 => collect r' chunks'
      | S k' => group k' r' chunks'
      end
  | _ :: r', _ :: chunks' => group k r' chunks'
  | _, _ => []
  end.

(** [pattern.match(s)]. *)
Definition re_match (r : regex) (s : str) : option (list str) :=
  exec false r None s.

(** The scan shared by [re.sub] and [re.findall]: at each position the
    pattern is tried; a match is handed to the callback [f], which returns its
    replacement and the new state, and the scan resumes after the match;
    otherwise the character is copied.  No pattern of the script can match
    the empty string; such a match would be replaced and the scan would
    step over the next character. *)
Fixpoint sub_go {St : Type} (fuel : nat) (ml : bool) (r : regex)
    (f : list str -> St -> str * St) (prev : option char) (s : str) (st : St)
    : str * St :=
  match fuel with
  | 0 => ([], st)
  | S fuel' =>
      match exec ml r prev s with
      | Some chunks =>
          let (out, st1) := f chunks st in
          match group0 chunks with
          | [] =>
              match s with
              | [] => (out, st1)
              | c :: s' =>
                  let (out', st2) := sub_go fuel' ml r f (Some c) s' st1 in
                  (out ++ c :: out', st2)
              end
          | m =>
              let (out', st2) :=
                sub_go fuel' ml r f (prev_after prev m) (skipn (length m) s) st1 in
              (out ++ out', st2)
          end
      | None =>
          match s with
          | [] => ([], st)
          | c :: s' =>
              let (out', st2) := sub_go fuel' ml r f (Some c) s' st in
              (c :: out', st2)
          end
      end
  end.

(** [re.sub(r, f, s)] with a callback that threads a state. *)
Definition re_sub_st {St : Type} (ml : bool) (r : regex)
    (f : list str -> St -> str * St) (s : str) (st : St) : str * St :=
  sub_go (S (length s)) ml r f None s st.

(** [re.sub(r, f, s)] with a pure callback. *)
Definition re_sub (ml : bool) (r : regex) (f : list str -> str) (s : str) : str :=
  fst (re_sub_st ml r (fun chunks (_ : unit) => (f chunks, tt)) s tt).

(** [re.findall(r, s)], as the list of the matches' chunks. *)
Definition re_findall (ml : bool) (r : regex) (s : str) : list (list str) :=
  snd (re_sub_st ml r (fun chunks acc => ([], acc ++ [chunks])) s []).

(* ================================================================== *)
(** * Configuration and patterns of the script *)
(* ================================================================== *)

(** [PH_PREFIX], [PH_SUFFIX]: U+27E8 and U+27E9. *)
Definition PH_PREFIX : char := 10216%N.
Definition PH_SUFFIX : char := 10217%N.

(** r"`([^`]+)`" *)
Definition RE_INLINE_CODE : regex :=
  [Lit BACKTICK; Open; Plus (notc BACKTICK); Close; Lit BACKTICK].

(** A link: an opening bracket, group 1 "[^\]]*", "\]\(", group 2 "[^)]+",
    a closing parenthesis. *)
Definition RE_LINK_FULL : regex :=
  [Lit LBRACK; Open; Star (notc RBRACK); Close; Lit RBRACK;
   Lit LPAREN; Open; Plus (notc RPAREN); Close; Lit RPAREN].

(** r"^(#{1,6}\s+)" *)
Definition RE_HEADING : regex :=
  [Bol; Open; Rep (N.eqb HASH) 1 (Some 6) true; Plus is_space; Close].

Definition TABLE_SEP_PUNCT : str := Eval vm_compute in py "-|:".

(** The class "[-\s|:]". *)
Definition table_sep_char (c : char) : bool :=
  in_set TABLE_SEP_PUNCT c || is_space c.

(** r"^\|[-\s|:]+\|$" *)
Definition RE_TABLE_SEP : regex :=
  [Bol; Lit PIPE; Plus table_sep_char; Lit PIPE; Eol].

(** The box-drawing characters shared by the two glyph sets of
    [is_ascii_art_line]. *)
Definition box_chars : str := Eval vm_compute in py "│├└┌┐┘┤┬┴┼─".

(** The other characters of the class of [RE_ASCII_ART], and those of the
    string of [is_ascii_art_line]. *)
Definition ART_REGEX_EXTRA : str := Eval vm_compute in py "|+-\/><=*".
Definition ART_COUNT_EXTRA : str := Eval vm_compute in py "|+\/><=".

(** The class of [RE_ASCII_ART]: the box characters and those of "|+-\/><=*". *)
Definition art_regex_char (c : char) : bool :=
  in_set (box_chars ++ ART_REGEX_EXTRA) c.

(** The characters counted by [is_ascii_art_line]: the box characters and
    those of "|+\/><=". *)
Definition art_count_char (c : char) : bool :=
  in_set (box_chars ++ ART_COUNT_EXTRA) c.

(** r"^[\s]*[│├└┌┐┘┤┬┴┼─|+\-\\/><=*]{3,}" *)
Definition RE_ASCII_ART : regex :=
  [Bol; Star is_space; Rep art_regex_char 3 None true].

(** Anchored at the start, one group: "\s*", ">", "\s*". *)
Definition RE_BLOCKQUOTE : regex :=
  [Bol; Open; Star is_space; Lit 62%N; Star is_space; Close].

(** The pattern of [RE_LINK_FULL] between "\*\*" and "\*\*". *)
Definition RE_BOLD_LINK : regex :=
  [Lit STAR; Lit STAR; Lit LBRACK; Open; Star (notc RBRACK); Close; Lit RBRACK;
   Lit LPAREN; Open; Plus (notc RPAREN); Close; Lit RPAREN; Lit STAR; Lit STAR].

(** r"\*\*(.+?)\*\*" *)
Definition RE_BOLD_TEXT : regex :=
  [Lit STAR; Lit STAR; Open; PlusLazy dot; Close; Lit STAR; Lit STAR].

Definition BULLETS : str := Eval vm_compute in py "-*+".

Definition bullet_char (c : char) : bool := in_set BULLETS c.

(** The two alternatives of r"^(\s*[-*+]\s+|\s*\d+\.\s+)".  Nothing follows
    the alternation, so the pattern matches with the first alternative that
    matches. *)
Definition RE_LIST_BULLET : regex :=
  [Bol; Open; Star is_space; One bullet_char; Plus is_space; Close].
Definition RE_LIST_ORDINAL : regex :=
  [Bol; Open; Star is_space; Plus is_digit; Lit 46%N; Plus is_space; Close].

Definition match_list_marker (text : str) : option str :=
  match re_match RE_LIST_BULLET text with
  | Some chunks => Some (group 1 RE_LIST_BULLET chunks)
  | None =>
      match re_match RE_LIST_ORDINAL text with
      | Some chunks => Some (group 1 RE_LIST_ORDINAL chunks)
      | None => None
      end
  end.

(** [re.escape(PH_PREFIX)], r"\d+", [re.escape(PH_SUFFIX)] *)
Definition RE_PLACEHOLDER : regex :=
  [Lit PH_PREFIX; Plus is_digit; Lit PH_SUFFIX].

(** r",\s*," and r",\s*\)" *)
Definition RE_COMMA_COMMA : regex := [Lit COMMA; Star is_space; Lit COMMA].
Definition RE_COMMA_PAREN : regex := [Lit COMMA; Star is_space; Lit RPAREN].

(** r"^(\s*[-*+])\*\*" and r"^(\s*\d+\.)\*\*", used under MULTILINE. *)
Definition RE_BULLET_BOLD : regex :=
  [Bol; Open; Star is_space; One bullet_char; Close; Lit STAR; Lit STAR].
Definition RE_ORDINAL_BOLD : regex :=
  [Bol; Open; Star is_space; Plus is_digit; Lit 46%N; Close; Lit STAR; Lit STAR].

Definition is_empty {A : Type} (s : list A) : bool :=
  match s with [] => true | _ => false end.

(** [is_ascii_art_line].  The source compares the quotient of two integers,
    a double, with the double [0.4]; the quotient is correctly rounded and
    [0.4] is the double nearest to 2/5, so for every line shorter than
    10^15 characters the test is the comparison [5 * special > 2 * len]. *)
Definition is_ascii_art_line (line : str) : bool :=
  let stripped := strip line in
  if is_empty stripped then false
  else match re_match RE_ASCII_ART line with
  | Some _ => true
  | None =>
    let special := length (filter art_count_char stripped) in
    if (0 <? length stripped) && (2 * length stripped <? 5 * special) then true
    else false
  end.

(* ================================================================== *)
(** * Inline protection and restoration *)
(* ================================================================== *)

(** A Python [dict] from strings to strings, in insertion order. *)
Definition dict := list (str * str).

Fixpoint dict_set (k v : str) (d : dict) : dict :=
  match d with
  | [] => [(k, v)]
  | (k', v') :: d' =>
      if str_eqb k k' then (k, v) :: d' else (k', v') :: dict_set k v d'
  end.

Definition make_placeholder (idx : nat) : str :=
  [PH_PREFIX] ++ str_of_nat idx ++ [PH_SUFFIX].

(** The two locals the callbacks of [protect_inline_elements] mutate. *)
Record ph_state : Type := mk_ph_state {
  counter : nat;
  placeholders : dict
}.

Definition next_ph (st : ph_state) : str * ph_state :=
  (make_placeholder (counter st), mk_ph_state (S (counter st)) (placeholders st)).

Definition store (ph original : str) (st : ph_state) : ph_state :=
  mk_ph_state (counter st) (dict_set ph original (placeholders st)).

Definition replace_bold_link (m : list str) (st : ph_state) : str * ph_state :=
  let (ph, st1) := next_ph st in
  (ph, store ph (group0 m) st1).

Definition replace_link (m : list str) (st : ph_state) : str * ph_state :=
  let display_text := group 1 RE_LINK_FULL m in
  let url := group 2 RE_LINK_FULL m in
  let (ph_open, st1) := next_ph st in
  let st2 := store ph_open [LBRACK] st1 in
  let (ph_close, st3) := next_ph st2 in
  let st4 := store ph_close ([RBRACK; LPAREN] ++ url ++ [RPAREN]) st3 in
  (ph_open ++ display_text ++ ph_close, st4).

Definition replace_inline_code (m : list str) (st : ph_state) : str * ph_state :=
  let (ph, st1) := next_ph st in
  (ph, store ph (group0 m) st1).

Definition replace_bold (m : list str) (st : ph_state) : str * ph_state :=
  let inner := group 1 RE_BOLD_TEXT m in
  let (ph_open, st1) := next_ph st in
  let st2 := store ph_open [STAR; STAR] st1 in
  let (ph_close, st3) := next_ph st2 in
  let st4 := store ph_close [STAR; STAR] st3 in
  (ph_open ++ inner ++ ph_close, st4).

Definition protect_inline_elements (text : str) : str * dict :=
  let st0 := mk_ph_state 0 [] in
  let (p1, st1) := re_sub_st false RE_BOLD_LINK replace_bold_link text st0 in
  let (p2, st2) := re_sub_st false RE_LINK_FULL replace_link p1 st1 in
  let (p3, st3) := re_sub_st false RE_INLINE_CODE replace_inline_code p2 st2 in
  let (p4, st4) := re_sub_st false RE_BOLD_TEXT replace_bold p3 st3 in
  (p4, placeholders st4).

(** [sorted(items, key=lambda x: -len(x[0]))]: a stable sort, longest key
    first. *)
Fixpoint insert_by_len (x : str * str) (l : list (str * str)) : list (str * str) :=
  match l with
  | [] => [x]
  | y :: l' =>
      if length (fst y) <=? length (fst x) then x :: l
      else y :: insert_by_len x l'
  end.

Definition sorted_longest_first (d : list (str * str)) : list (str * str) :=
  fold_right insert_by_len [] d.

Definition clean_spurious (known : list str) (m : list str) : str :=
  if existsb (str_eqb (group0 m)) known then group0 m else [].

Definition restore_placeholders (text : str) (phs : dict) : str :=
  let result :=
    fold_left (fun acc kv => replace (fst kv) (snd kv) acc)
      (sorted_longest_first phs) text in
  let known := map fst phs in
  let result := re_sub false RE_PLACEHOLDER (clean_spurious known) result in
  let result := re_sub false RE_COMMA_COMMA (fun _ => [COMMA]) result in
  re_sub false RE_COMMA_PAREN (fun _ => [RPAREN]) result.

(* ================================================================== *)
(** * [translate_markdown_file] *)
(* ================================================================== *)

Inductive line_type : Type := Code | Translatable | PassThrough.

(** Three backticks. *)
Definition FENCE : str := Eval vm_compute in py "```".

(** Phase 1: the loop over the lines, with the flag [in_code_block]. *)
Fixpoint classify (in_code_block : bool) (lines : list str) : list line_type :=
  match lines with
  | [] => []
  | line :: rest =>
      let stripped := strip line in
      if startswith FENCE stripped then Code :: classify (negb in_code_block) rest
      else if in_code_block then Code :: classify in_code_block rest
      else if is_empty stripped then PassThrough :: classify in_code_block rest
      else match re_match RE_TABLE_SEP stripped with
           | Some _ => PassThrough :: classify in_code_block rest
           | None =>
               if is_ascii_art_line line then PassThrough :: classify in_code_block rest
               else Translatable :: classify in_code_block rest
           end
  end.

Definition line_types (lines : list str) : list line_type := classify false lines.

Record cell : Type := mk_cell {
  cell_text : str;
  cell_placeholders : dict;
  cell_translated : option str
}.

Inductive segment : Type :=
| TextSeg (line_idx : nat) (protected_text : str) (phs : dict) (prefix : str)
    (translated : option str)
| TableRow (line_idx : nat) (cells : list cell) (prefix : str).

(** The heading, blockquote and list-marker prefixes of a line, and the text
    that is left. *)
Definition strip_prefixes (line : str) : str * str :=
  let prefix : str := [] in
  let text := line in
  let '(prefix, text) :=
    match re_match RE_HEADING text with
    | Some m => let g := group 1 RE_HEADING m in (g, skipn (length g) text)
    | None => (prefix, text)
    end in
  let '(prefix, text) :=
    match re_match RE_BLOCKQUOTE text with
    | Some m =>
        let g := group 1 RE_BLOCKQUOTE m in (prefix ++ g, skipn (length g) text)
    | None => (prefix, text)
    end in
  match match_list_marker text with
  | Some g => (prefix ++ g, skipn (length g) text)
  | None => (prefix, text)
  end.

Definition is_table_row (text : str) : bool :=
  startswith [PIPE] (strip text) && endswith [PIPE] (strip text).

(** The cells of a table row before protection ([stripped_cell]). *)
Definition stripped_cells (text : str) : list str := map strip (split PIPE text).

Definition make_cell (stripped_cell : str) : cell :=
  if is_empty stripped_cell then mk_cell [] [] None
  else let (protected, phs) := protect_inline_elements stripped_cell in
       mk_cell protected phs None.

(** Phase 2, one iteration. *)
Definition extract_segment (i : nat) (line : str) (ltype : line_type)
    : option segment :=
  match ltype with
  | Translatable =>
      let (prefix, text) := strip_prefixes line in
      if is_table_row text then
        Some (TableRow i (map make_cell (stripped_cells text)) prefix)
      else if is_empty (strip text) then None
      else let (protected, phs) := protect_inline_elements text in
           Some (TextSeg i protected phs prefix None)
  | _ => None
  end.

Fixpoint extract_from (i : nat) (lines : list str) (types : list line_type)
    : list segment :=
  match lines, types with
  | line :: lines', ltype :: types' =>
      match extract_segment i line ltype with
      | Some seg => seg :: extract_from (S i) lines' types'
      | None => extract_from (S i) lines' types'
      end
  | _, _ => []
  end.

Definition extract_segments (lines : list str) : list segment :=
  extract_from 0 lines (line_types lines).

(** The second component of an entry of [text_indices]: the string "text",
    or "cell:" followed by the index of the cell. *)
Inductive key : Type := KText | KCell (cell_idx : nat).

Fixpoint cell_work (seg_idx cell_idx : nat) (cells : list cell)
    : list (str * (nat * key)) :=
  match cells with
  | [] => []
  | c :: cells' =>
      if is_empty (cell_text c) then cell_work seg_idx (S cell_idx) cells'
      else (cell_text c, (seg_idx, KCell cell_idx))
             :: cell_work seg_idx (S cell_idx) cells'
  end.

(** Phase 3: the entries appended to [texts_to_translate] and
    [text_indices], paired. *)
Fixpoint work_from (seg_idx : nat) (segments : list segment)
    : list (str * (nat * key)) :=
  match segments with
  | [] => []
  | TextSeg _ protected _ _ _ :: segments' =>
      (protected, (seg_idx, KText)) :: work_from (S seg_idx) segments'
  | TableRow _ cells _ :: segments' =>
      cell_work seg_idx 0 cells ++ work_from (S seg_idx) segments'
  end.

Definition texts_to_translate (segments : list segment) : list str :=
  map fst (work_from 0 segments).
Definition text_indices (segments : list segment) : list (nat * key) :=
  map snd (work_from 0 segments).

(** [l[i] = x] for an index in range. *)
Fixpoint set_nth {A : Type} (i : nat) (x : A) (l : list A) : list A :=
  match l, i with
  | [], _ => []
  | _ :: l', 0 => x :: l'
  | y :: l', S i' => y :: set_nth i' x l'
  end.

Definition set_cell_translated (translated : str) (c : cell) : cell :=
  mk_cell (cell_text c) (cell_placeholders c) (Some translated).

(** Phase 5, one iteration: the segment at [seg_idx] is updated in place.
    The indices come from [text_indices] and are always in range. *)
Definition attach (segments : list segment) (ik : nat * key) (translated : str)
    : list segment :=
  let (seg_idx, k) := ik in
  match nth_error segments seg_idx with
  | None => segments
  | Some seg =>
      let seg' :=
        match k, seg with
        | KText, TextSeg i protected phs prefix _ =>
            TextSeg i protected phs prefix (Some translated)
        | KCell cell_idx, TableRow i cells prefix =>
            match nth_error cells cell_idx with
            | Some c =>
                TableRow i (set_nth cell_idx (set_cell_translated translated c) cells)
                  prefix
            | None => seg
            end
        | _, _ => seg
        end in
      set_nth seg_idx seg' segments
  end.

(** Phase 5: the loop over [zip(text_indices, translated_texts)]. *)
Definition map_back (segments : list segment) (translated_texts : list str)
    : list segment :=
  fold_left (fun segs p => attach segs (fst p) (snd p))
    (combine (text_indices segments) translated_texts) segments.

(** [d.get(k, default)] on the optional entry "translated". *)
Definition get_translated (translated : option str) (default : str) : str :=
  match translated with
  | Some t => t
  | None => default
  end.

Definition rebuild_cell (c : cell) : str :=
  if is_empty (cell_text c) then []
  else
    let translated := get_translated (cell_translated c) (cell_text c) in
    let restored := restore_placeholders translated (cell_placeholders c) in
    [SP] ++ restored ++ [SP].

Definition rebuild_row (cells : list cell) : str :=
  let line := join [PIPE] (map rebuild_cell cells) in
  let line := if startswith [PIPE] line then line else [PIPE] ++ line in
  if endswith [PIPE] line then line else line ++ [PIPE].

(** Phase 6, one iteration. *)
Definition reconstruct_segment (output_lines : list str) (seg : segment)
    : list str :=
  match seg with
  | TextSeg i protected phs prefix translated =>
      let restored := restore_placeholders (get_translated translated protected) phs in
      set_nth i (prefix ++ restored) output_lines
  | TableRow i cells _ => set_nth i (rebuild_row cells) output_lines
  end.

Definition reconstruct (lines : list str) (segments : list segment) : list str :=
  fold_left reconstruct_segment segments lines.

Definition blank (c : char) : bool := in_set [SP; TAB] c.

(** The first [if] of [_fix_bold_span]: the prefix and the new content. *)
Definition take_leading_blank (content : str) : str * str :=
  match content with
  | c :: _ => if blank c then ([c], lstrip_by blank content) else ([], content)
  | [] => ([], content)
  end.

(** Its second [if]: the suffix and the new content. *)
Definition take_trailing_blank (content : str) : str * str :=
  match rev content with
  | c :: _ => if blank c then ([c], rstrip_by blank content) else ([], content)
  | [] => ([], content)
  end.

(** [_fix_bold_span] *)
Definition fix_bold_span (m : list str) : str :=
  let content := group 1 RE_BOLD_TEXT m in
  let '(prefix, content) := take_leading_blank content in
  let '(suffix, content) := take_trailing_blank content in
  if is_empty content then group0 m
  else prefix ++ [STAR; STAR] ++ content ++ [STAR; STAR] ++ suffix.

Definition fix_bold_line (line : str) : str :=
  re_sub false RE_BOLD_TEXT fix_bold_span line.

(** The loop over [result.split(NL)] and the join of [fixed_lines]. *)
Definition fix_bold_lines (result : str) : str :=
  join [NL] (map fix_bold_line (split NL result)).

(** The two substitutions of the safety net, with the template of group 1
    followed by a space and two asterisks. *)
Definition fix_list_markers (result : str) : str :=
  let result :=
    re_sub true RE_BULLET_BOLD
      (fun m => group 1 RE_BULLET_BOLD m ++ [SP; STAR; STAR]) result in
  re_sub true RE_ORDINAL_BOLD
    (fun m => group 1 RE_ORDINAL_BOLD m ++ [SP; STAR; STAR]) result.

Definition post_process (result : str) : str :=
  fix_list_markers (fix_bold_lines result).

(** The backend is the function [translator.translate_batch]; it is called
    only when there is something to translate. *)
Definition call_translator (translator : list str -> list str) (texts : list str)
    : list str :=
  match texts with
  | [] => []
  | _ => translator texts
  end.

(** The lines after Phase 6. *)
Definition output_lines (content : str) (translator : list str -> list str)
    : list str :=
  let lines := split NL content in
  let segments := extract_segments lines in
  let translated_texts := call_translator translator (texts_to_translate segments) in
  reconstruct lines (map_back segments translated_texts).

Definition translate_markdown_file (content : str)
    (translator : list str -> list str) : str :=
  post_process (join [NL] (output_lines content translator)).

(* ================================================================== *)
(** * Link rewriting and heading anchors *)
(* ================================================================== *)

Definition FILENAME_MAP : list (str * str) :=
  [(py "00-indice.md", py "00-index.md");
   (py "01-arquitectura.md", py "01-architecture.md");
   (py "02-gradle-dependencias.md", py "02-gradle-dependencies.md");
   (py "03-entidades-jpa.md", py "03-jpa-entities.md");
   (py "04-repositorios.md", py "04-repositories.md");
   (py "05-dtos-mapstruct.md", py "05-dtos-mapstruct.md");
   (py "06-servicios.md", py "06-services.md");
   (py "07-controladores.md", py "07-controllers.md");
   (py "08-seguridad.md", py "08-security.md");
   (py "09-cliente-http.md", py "09-http-client.md");
   (py "10-sincronizacion.md", py "10-synchronization.md");
   (py "11-perfiles.md", py "11-profiles.md");
   (py "12-testing.md", py "12-testing.md");
   (py "13-docker-k8s.md", py "13-docker-k8s.md");
   (py "14-cicd.md", py "14-cicd.md")].

Definition CROSSREF_MAP : list (str * str) := FILENAME_MAP.

Definition rewrite_cross_references (content : str) : str :=
  fold_left
    (fun content names =>
       let es_name := fst names in
       let en_name := snd names in
       let content :=
         replace (py "](" ++ es_name ++ py ")") (py "](" ++ en_name ++ py ")") content in
       replace (py "](" ++ es_name ++ py "#") (py "](" ++ en_name ++ py "#") content)
    CROSSREF_MAP content.

Definition rewrite_source_links (content : str) : str :=
  let content := replace (py "](../src/") (py "](../../src/") content in
  let content :=
    replace (py "](../build.gradle.kts)") (py "](../../build.gradle.kts)") content in
  let content := replace (py "](../Dockerfile)") (py "](../../Dockerfile)") content in
  let content := replace (py "](../.github/") (py "](../../.github/") content in
  let content := replace (py "](../k8s/") (py "](../../k8s/") content in
  replace (py "](../scripts/") (py "](../../scripts/") content.

(** [str.lower] on one code point, for the code points below U+0100 and for
    U+0130 and U+212A.  Every other cased character is outside ASCII and so
    is its lower case, which is all that [text_to_anchor] looks at: its next
    step deletes every character that is neither ASCII nor white space. *)
Definition lower_char (c : char) : str :=
  if in_range 65 90 c then [(c + 32)%N]
  else if in_range 192 222 c && negb (c =? 215)%N then [(c + 32)%N]
  else if (c =? 304)%N then [105; 775]%N
  else if (c =? 8490)%N then [107%N]
  else [c].

Definition lower (s : str) : str := flat_map lower_char s.

(** The link pattern of [text_to_anchor], whose second group is not
    captured. *)
Definition RE_ANCHOR_LINK : regex :=
  [Lit LBRACK; Open; Star (notc RBRACK); Close; Lit RBRACK;
   Lit LPAREN; Plus (notc RPAREN); Lit RPAREN].

(** r"\*+" *)
Definition RE_STARS : regex := [Plus (N.eqb STAR)].

(** The class "[^a-z0-9\s-]". *)
Definition not_anchor_char (c : char) : bool :=
  negb (in_range 97 122 c || in_range 48 57 c || is_space c || (c =? DASH)%N).

Definition RE_NOT_ANCHOR : regex := [One not_anchor_char].

Definition text_to_anchor (text : str) : str :=
  let text := re_sub false RE_INLINE_CODE (group 1 RE_INLINE_CODE) text in
  let text := re_sub false RE_ANCHOR_LINK (group 1 RE_ANCHOR_LINK) text in
  let text := re_sub false RE_STARS (fun _ => []) text in
  let text := lower (strip text) in
  let text := re_sub false RE_NOT_ANCHOR (fun _ => []) text in
  replace [SP] [DASH] text.

(** r"^(#{1,6})\s+(.+)$" under MULTILINE *)
Definition RE_HEADING_LINE : regex :=
  [Bol; Open; Rep (N.eqb HASH) 1 (Some 6) true; Close; Plus is_space;
   Open; Plus dot; Close; Eol].

(** The second components of [heading_re.findall(content)]. *)
Definition heading_texts (content : str) : list str :=
  map (group 2 RE_HEADING_LINE) (re_findall true RE_HEADING_LINE content).

Definition anchor_map (src_headings tgt_headings : list str) : dict :=
  fold_left
    (fun m p =>
       let src_anchor := text_to_anchor (fst p) in
       let tgt_anchor := text_to_anchor (snd p) in
       if negb (is_empty src_anchor) && negb (is_empty tgt_anchor)
          && negb (str_eqb src_anchor tgt_anchor)
       then dict_set src_anchor tgt_anchor m else m)
    (combine src_headings tgt_headings) [].

Definition fix_heading_anchors (source_content translated_content : str) : str :=
  let src_headings := heading_texts source_content in
  let tgt_headings := heading_texts translated_content in
  if negb (length src_headings =? length tgt_headings) then translated_content
  else
    fold_left
      (fun result p =>
         replace (py "](#" ++ fst p ++ py ")") (py "](#" ++ snd p ++ py ")") result)
      (sorted_longest_first (anchor_map src_headings tgt_headings))
      translated_content.

(* ================================================================== *)
(** * Validation *)
(* ================================================================== *)

(** The messages of [validate_translation], by kind and with the numbers
    they print. *)
Inductive warning : Type :=
| CodeBlockCountMismatch (src tgt : nat)
| HeadingCountMismatch (src tgt : nat)
| LinkCountMismatch (src tgt : nat)
| LineCountRatio (src tgt : nat)
| UnrestoredPlaceholders (n : nat).

(** r"^#{1,6}\s" under MULTILINE *)
Definition RE_HEADING_START : regex :=
  [Bol; Rep (N.eqb HASH) 1 (Some 6) true; One is_space].

(** [validate_translation].  The ratio of the line counts is a double
    compared with the doubles [0.8] and [1.2]; as in [is_ascii_art_line],
    the comparisons are those of the exact quotient with 4/5 and 6/5. *)
Definition validate_translation (source translated : str) : list warning :=
  let errors : list warning := [] in
  let src_blocks := count FENCE source in
  let tgt_blocks := count FENCE translated in
  let errors :=
    if negb (src_blocks =? tgt_blocks)
    then errors ++ [CodeBlockCountMismatch src_blocks tgt_blocks] else errors in
  let src_headings := length (re_findall true RE_HEADING_START source) in
  let tgt_headings := length (re_findall true RE_HEADING_START translated) in
  let errors :=
    if negb (src_headings =? tgt_headings)
    then errors ++ [HeadingCountMismatch src_headings tgt_headings] else errors in
  let src_links := length (re_findall false RE_LINK_FULL source) in
  let tgt_links := length (re_findall false RE_LINK_FULL translated) in
  let errors :=
    if negb (src_links =? tgt_links)
    then errors ++ [LinkCountMismatch src_links tgt_links] else errors in
  let src_lines := count [NL] source in
  let tgt_lines := count [NL] translated in
  let errors :=
    if (0 <? src_lines)
       && ((5 * tgt_lines <? 4 * src_lines) || (6 * src_lines <? 5 * tgt_lines))
    then errors ++ [LineCountRatio src_lines tgt_lines] else errors in
  let leftover := re_findall false RE_PLACEHOLDER translated in
  if negb (is_empty leftover)
  then errors ++ [UnrestoredPlaceholders (length leftover)] else errors.

(** The steps of [main] for one document of [FILENAME_MAP], up to the
    validation. *)
Definition translated_document (source_content : str)
    (translator : list str -> list str) : str :=
  let translated := translate_markdown_file source_content translator in
  let translated := rewrite_cross_references translated in
  let translated := rewrite_source_links translated in
  fix_heading_anchors source_content translated.

(** The backend that returns its inputs unchanged. *)
Definition identity_translator (texts : list str) : list str := texts.

Unset Implicit Arguments.

Fixpoint lookup (k : str) (d : dict) : option str :=
  match d with
  | [] => None
  | (k', v) :: d' => if str_eqb k k' then Some v else lookup k d'
  end.


(* ================================================================== *)
(** * The translation clients *)
(* ================================================================== *)

(** The clients talk to a server over HTTP.  The server is a function of
    the number of the request (how many were made before it) and of what the
    request carries; what a client keeps between calls is the count of the
    requests it made and its field [chars_used].  A call returns, or leaves
    the script by [sys.exit(1)].  The pauses of [time.sleep] change no
    result and are left out.  A response is a status code with the texts of
    its body, or the exception [RequestException] raised by the request. *)

Definition MAX_BATCH_CHARS : nat := 40 * 1000.
Definition RETRY_ATTEMPTS : nat := 3.

Record client : Type := mk_client { requests : nat; chars_used : nat }.

Inductive outcome (A : Type) : Type :=
| Returned (a : A) (c : client)
| Exited.
Arguments Returned {A} a c.
Arguments Exited {A}.

(** [sum(len(t) for t in texts)] *)
Definition total_len (texts : list str) : nat :=
  list_sum (map (@length char) texts).

Definition sent (c : client) : client :=
  mk_client (S (requests c)) (chars_used c).

Definition add_chars (n : nat) (c : client) : client :=
  mk_client (requests c) (chars_used c + n).

Module DeepL.

(** The body of a response 200 is read as the list of the fields "text" of
    its "translations". *)
Inductive response : Type :=
| Reply (status_code : nat) (translations : list str)
| RequestException.

Definition server : Type := nat -> list str -> response.

(** The loop of [_call_api] over the attempts left, and the fallback after
    it. *)
Fixpoint attempts (srv : server) (texts : list str) (range : list nat)
    (c : client) : outcome (list str) :=
  match range with
  | [] => Returned texts c
  | attempt :: range' =>
      match srv (requests c) texts with
      | Reply status_code translated =>
          if status_code =? 200 then
            Returned translated (add_chars (total_len texts) (sent c))
          else if status_code =? 456 then Exited
          else if status_code =? 429 then attempts srv texts range' (sent c)
          else if attempt =? RETRY_ATTEMPTS then Exited
          else attempts srv texts range' (sent c)
      | RequestException =>
          if attempt =? RETRY_ATTEMPTS then Exited
          else attempts srv texts range' (sent c)
      end
  end.

(** [DeepLTranslator._call_api] *)
Definition call_api (srv : server) (texts : list str) (c : client)
    : outcome (list str) :=
  attempts srv texts (seq 1 RETRY_ATTEMPTS) c.

(** The loop of [translate_batch] over the texts left, and the last call
    after it. *)
Fixpoint batch_loop (srv : server) (texts results batch : list str)
    (batch_size : nat) (c : client) : outcome (list str) :=
  match texts with
  | [] =>
      if negb (is_empty batch) then
        match call_api srv batch c with
        | Returned translated c' => Returned (results ++ translated) c'
        | Exited => Exited
        end
      else Returned results c
  | text :: texts' =>
      if (MAX_BATCH_CHARS <? batch_size + length text) && negb (is_empty batch)
      then
        match call_api srv batch c with
        | Returned translated c' =>
            batch_loop srv texts' (results ++ translated) ([] ++ [text])
              (0 + length text) c'
        | Exited => Exited
        end
      else
        batch_loop srv texts' results (batch ++ [text])
          (batch_size + length text) c
  end.

(** [DeepLTranslator.translate_batch] *)
Definition translate_batch (srv : server) (texts : list str) (c : client)
    : outcome (list str) :=
  if is_empty texts then Returned [] c
  else batch_loop srv texts [] [] 0 c.

End DeepL.

(** [translate_batch] of [GoogleTranslator] and of [OpenAITranslator],
    which have the same code, over the [_call_api] of the class. *)
Fixpoint each_loop (call_api : str -> client -> outcome str)
    (texts results : list str) (c : client) : outcome (list str) :=
  match texts with
  | [] => Returned results c
  | text :: texts' =>
      match call_api text c with
      | Returned translated c' =>
          each_loop call_api texts' (results ++ [translated])
            (add_chars (length text) c')
      | Exited => Exited
      end
  end.

Definition translate_each (call_api : str -> client -> outcome str)
    (texts : list str) (c : client) : outcome (list str) :=
  if is_empty texts then Returned [] c
  else each_loop call_api texts [] c.

Module Google.

(** The body of a response 200 is read as the list of the first components
    of the segments of [data[0]]. *)
Inductive response : Type :=
| Reply (status_code : nat) (segments : list str)
| RequestException.

Definition server : Type := nat -> str -> response.

Fixpoint attempts (srv : server) (text : str) (range : list nat) (c : client)
    : outcome str :=
  match range with
  | [] => Returned text c
  | attempt :: range' =>
      match srv (requests c) text with
      | Reply status_code segments =>
          if status_code =? 200 then Returned (concat segments) (sent c)
          else if status_code =? 429 then attempts srv text range' (sent c)
          else if attempt =? RETRY_ATTEMPTS then Exited
          else attempts srv text range' (sent c)
      | RequestException =>
          if attempt =? RETRY_ATTEMPTS then Exited
          else attempts srv text range' (sent c)
      end
  end.

(** [GoogleTranslator._call_api] *)
Definition call_api (srv : server) (text : str) (c : client) : outcome str :=
  attempts srv text (seq 1 RETRY_ATTEMPTS) c.

(** [GoogleTranslator.translate_batch] *)
Definition translate_batch (srv : server) (texts : list str) (c : client)
    : outcome (list str) :=
  translate_each (call_api srv) texts c.

End Google.

Module OpenAI.

(** The body of a response 200 is read as the content of the message of
    its first choice. *)
Inductive response : Type :=
| Reply (status_code : nat) (content : str)
| RequestException.

Definition server : Type := nat -> str -> response.

Fixpoint attempts (srv : server) (text : str) (range : list nat) (c : client)
    : outcome str :=
  match range with
  | [] => Returned text c
  | attempt :: range' =>
      match srv (requests c) text with
      | Reply status_code content =>
          if status_code =? 200 then Returned (strip content) (sent c)
          else if status_code =? 429 then attempts srv text range' (sent c)
          else if attempt =? RETRY_ATTEMPTS then Exited
          else attempts srv text range' (sent c)
      | RequestException =>
          if attempt =? RETRY_ATTEMPTS then Exited
          else attempts srv text range' (sent c)
      end
  end.

(** [OpenAITranslator._call_api] *)
Definition call_api (srv : server) (text : str) (c : client) : outcome str :=
  attempts srv text (seq 1 RETRY_ATTEMPTS) c.

(** [OpenAITranslator.translate_batch] *)
Definition translate_batch (srv : server) (texts : list str) (c : client)
    : outcome (list str) :=
  translate_each (call_api srv) texts c.

End OpenAI.


(* ================================================================== *)
(** * The language toggle of the README *)
(* ================================================================== *)

Definition TOGGLE : str :=
  Eval vm_compute in py "> **[Leer en espanol](README.md)**".

(** [l.insert(i, x)]: before the element at [i], or at the end when the
    list is not that long. *)
Definition list_insert {A : Type} (i : nat) (x : A) (l : list A) : list A :=
  firstn i l ++ x :: skipn i l.

(** The body of the test on the heading found at index [i]. *)
Definition insert_toggle (i : nat) (lines : list str) : list str :=
  if (i + 1 <? length lines) && is_empty (strip (nth (i + 1) lines []))
  then list_insert (i + 2) TOGGLE lines
  else list_insert (i + 2) TOGGLE (list_insert (i + 1) [] lines).

(** The loop over [enumerate(lines)], from index [i], up to its [break]. *)
Fixpoint toggle_from (i : nat) (rest lines : list str) : list str :=
  match rest with
  | [] => lines
  | line :: rest' =>
      if startswith [HASH; SP] line then insert_toggle i lines
      else toggle_from (S i) rest' lines
  end.

Definition add_language_toggle (content : str) (is_readme : bool) : str :=
  if is_readme then
    let lines := split NL content in
    join [NL] (toggle_from 0 lines lines)
  else content.

(* ================================================================== *)
(** * The cache of the translated files *)
(* ================================================================== *)

Module Cache.

Definition SCRIPT_VERSION : str := Eval vm_compute in py "1.7.0".
Definition VERSION_KEY : str := Eval vm_compute in py "script_version".
Definition HASH_PREFIX : str := Eval vm_compute in py "sha256:".

(** A path: the directory and the last component, [filepath.name]. *)
Record path : Type := mk_path { parent : str; name : str }.

Section Files.

(** The bytes of the files, and the hexadecimal SHA-256 digest. *)
Variable read_bytes : path -> list N.
Variable hexdigest : list N -> str.

Definition file_hash (filepath : path) : str :=
  HASH_PREFIX ++ hexdigest (read_bytes filepath).

(** [__init__], on what [json.load] gave when the cache file exists: an
    object whose values are strings. *)
Definition init (loaded : option dict) : dict :=
  let data := match loaded with Some d => d | None => [] end in
  match lookup VERSION_KEY data with
  | Some v => if str_eqb v SCRIPT_VERSION then data
              else [(VERSION_KEY, SCRIPT_VERSION)]
  | None => [(VERSION_KEY, SCRIPT_VERSION)]
  end.

Definition is_changed (data : dict) (filepath : path) : bool :=
  let current := file_hash filepath in
  match lookup (name filepath) data with
  | Some v => negb (str_eqb v current)
  | None => true
  end.

Definition update (data : dict) (filepath : path) : dict :=
  dict_set (name filepath) (file_hash filepath) data.

End Files.

End Cache.

(* ================================================================== *)
(** * The choice of the backend in [main] *)
(* ================================================================== *)

(** The value of [--backend], and [backend_name] after the choice. *)
Inductive backend : Type := Deepl | Openai | Google.

(** The choice ends with a translator, or leaves the script by
    [sys.exit(1)] when the key of the backend asked for is missing. *)
Inductive selection : Type := Selected (b : backend) | MissingKey.

(** What [get_usage] returned: the two counters, when the answer has them.
    They are non-negative integers. *)
Record usage : Type := mk_usage {
  character_count : option N;
  character_limit : option N
}.

(** [usage.get("character_count", 0)] and
    [usage.get("character_limit", 500000)] *)
Definition used_chars (u : usage) : N :=
  match character_count u with Some n => n | None => 0%N end.
Definition limit_chars (u : usage) : N :=
  match character_limit u with Some n => n | None => 500000%N end.

(** [used * 100 // limit if limit else 100] *)
Definition quota_pct (u : usage) : N :=
  if (limit_chars u =? 0)%N then 100%N
  else (used_chars u * 100 / limit_chars u)%N.

(** [not os.environ.get(...)]: the variable is unset or empty. *)
Definition key_missing (k : option str) : bool :=
  match k with
  | Some s => is_empty s
  | None => true
  end.

(** The choice of the translator at the start of [main]; [answer] is
    [None] when [get_usage] raised an exception. *)
Definition select_backend (arg : backend) (deepl_key openai_key : option str)
    (answer : option usage) : selection :=
  match arg with
  | Deepl =>
      if key_missing deepl_key then MissingKey
      else
        match answer with
        | Some u =>
            if (100 <=? quota_pct u)%N then
              if negb (key_missing openai_key) then Selected Openai
              else Selected Google
            else Selected Deepl
        | None => Selected Deepl
        end
  | Openai =>
      if key_missing openai_key then MissingKey else Selected Openai
  | Google => Selected Google
  end.


(* ================================================================== *)
(** * Vocabulary of the proofs *)
(* ================================================================== *)

Unset Implicit Arguments.

(** What a node may consume: [w] is the text consumed, [prev] the character
    before it and [rest] the text after it. *)
Definition chunk_ok (ml : bool) (n : node) (prev : option char) (w rest : str)
    : Prop :=
  match n with
  | One p => exists c, w = [c] /\ p c = true
  | Rep p lo hi _ =>
      forallb p w = true /\ lo <= length w /\
      (forall h, hi = Some h -> length w <= h)
  | Open => w = []
  | Close => w = []
  | Bol => w = [] /\ at_bol ml prev = true
  | Eol => w = [] /\ at_eol ml rest = true
  end.

(** [ws] is a way for the pattern [r] to match in front of [rest]. *)
Fixpoint matches (ml : bool) (r : regex) (prev : option char) (ws : list str)
    (rest : str) : Prop :=
  match r, ws with
  | [], [] => True
  | n :: r', w :: ws' =>
      chunk_ok ml n prev w (concat ws' ++ rest) /\
      matches ml r' (prev_after prev w) ws' rest
  | _, _ => False
  end.

(** A pattern without [^] and [$]. *)
Definition unanchored (r : regex) : Prop :=
  Forall (fun n => match n with Bol | Eol => False | _ => True end) r.

(** The scan of [re.sub] from a position inside the string. *)
Definition sub_from {St : Type} (ml : bool) (r : regex)
    (f : list str -> St -> str * St) (prev : option char) (s : str) (st : St)
    : str * St :=
  sub_go (S (length s)) ml r f prev s st.

(** The text of a placeholder token with the given digits. *)
Definition token (digits : str) : str := PH_PREFIX :: digits ++ [PH_SUFFIX].

(** The largest repetition count a quantifier may take on [s]. *)
Definition rep_max (p : char -> bool) (hi : option nat) (s : str) : nat :=
  match hi with
  | Some h => Nat.min h (span_len p s)
  | None => span_len p s
  end.

(** A pattern that never matches the empty string. *)
Definition never_empty (ml : bool) (r : regex) : Prop :=
  forall prev s ws, exec ml r prev s = Some ws -> group0 ws <> [].

Definition pure (f : list str -> str) : list str -> unit -> str * unit :=
  fun chunks _ => (f chunks, tt).

(** A fenced block whose only content line uses the power operator. *)
Definition power_block : str :=
  join [NL] [py "```"; py "a ** b ** c"; py "```"].

(** A one-line document with a link written inside an inline code span. *)
Definition link_in_code : str := py "Use `[a](b)` here".

(** The claim as the specification words it, for table rows: the cells
    before protection, joined by pipes after the prefix, are the line. *)
Definition joined_cells_restore_line : Prop :=
  forall line : str,
    is_table_row (snd (strip_prefixes line)) = true ->
    fst (strip_prefixes line)
      ++ join [PIPE] (stripped_cells (snd (strip_prefixes line))) = line.

(** The characters the content of a bold span is made of when the span is
    found whole: any character of a line but the asterisk. *)
Definition plain (c : char) : bool := dot c && negb (c =? STAR)%N.

(** The claim as the specification words it: every blank inside the markers
    comes out on its side of the span. *)
Definition blanks_moved_outside : Prop :=
  forall lead core trail : str,
    forallb blank lead = true -> forallb blank trail = true ->
    core <> [] -> lstrip_by blank core = core -> rstrip_by blank core = core ->
    forallb plain core = true ->
    fix_bold_line ([STAR; STAR] ++ lead ++ core ++ trail ++ [STAR; STAR])
    = lead ++ [STAR; STAR] ++ core ++ [STAR; STAR] ++ trail.

(** A row composed solely of pipes, dashes, colons and white space. *)
Definition spec_table_separator (t : str) : bool := forallb table_sep_char t.

(** The line, after left-trim, starts with three or more glyphs of [G]. *)
Definition glyph_run (G : char -> bool) (line : str) : bool :=
  3 <=? span_len G (lstrip_by is_space line).

(** More than 40% of the characters of [t] are glyphs of [G]. *)
Definition glyph_share (G : char -> bool) (t : str) : bool :=
  40 * length t <? 100 * length (filter G t).

(** One glyph set for both tests, the one of the pattern. *)
Definition spec_ascii_art (line : str) : bool :=
  glyph_run art_regex_char line || glyph_share art_regex_char (strip line).

Definition is_fence (t : str) : bool := startswith FENCE t.

Fixpoint classify_spec (inside : bool) (lines : list str) : list line_type :=
  match lines with
  | [] => []
  | line :: rest =>
      let t := strip line in
      if is_fence t then Code :: classify_spec (negb inside) rest
      else if inside then Code :: classify_spec inside rest
      else if is_empty t || spec_table_separator t || spec_ascii_art line
      then PassThrough :: classify_spec inside rest
      else Translatable :: classify_spec inside rest
  end.

(** A pipe, one or more characters among pipes, dashes, colons and white
    space, and a pipe. *)
Definition ref_table_separator (t : str) : bool :=
  match t with
  | c :: rest =>
      (c =? PIPE)%N &&
      match rev rest with
      | l :: rmid =>
          (l =? PIPE)%N && negb (is_empty rmid) && forallb table_sep_char rmid
      | [] => false
      end
  | [] => false
  end.

(** The run is looked for among the glyphs of the pattern, the share is
    counted among the glyphs of the count, which has neither the dash nor the
    asterisk. *)
Definition ref_ascii_art (line : str) : bool :=
  glyph_run art_regex_char line || glyph_share art_count_char (strip line).

Fixpoint classify_ref (inside : bool) (lines : list str) : list line_type :=
  match lines with
  | [] => []
  | line :: rest =>
      let t := strip line in
      if is_fence t then Code :: classify_ref (negb inside) rest
      else if inside then Code :: classify_ref inside rest
      else if is_empty t || ref_table_separator t || ref_ascii_art line
      then PassThrough :: classify_ref inside rest
      else Translatable :: classify_ref inside rest
  end.

Definition is_some {A : Type} (o : option A) : bool :=
  match o with Some _ => true | None => false end.

(** The results handed out to the cells of a row in order, one for each
    non-empty cell, as long as there are results; and the results left. *)
Fixpoint distribute_cells (cells : list cell) (outs : list str)
    : list cell * list str :=
  match cells with
  | [] => ([], outs)
  | c :: cells' =>
      if is_empty (cell_text c) then
        (c :: fst (distribute_cells cells' outs), snd (distribute_cells cells' outs))
      else
        match outs with
        | [] => (cells, [])
        | o :: outs' =>
            (set_cell_translated o c :: fst (distribute_cells cells' outs'),
             snd (distribute_cells cells' outs'))
        end
  end.

(** The results handed out to the segments in document order. *)
Fixpoint distribute (segments : list segment) (outs : list str) : list segment :=
  match segments with
  | [] => []
  | TextSeg i protected phs prefix translated :: segments' =>
      match outs with
      | [] => segments
      | o :: outs' =>
          TextSeg i protected phs prefix (Some o) :: distribute segments' outs'
      end
  | TableRow i cells prefix :: segments' =>
      TableRow i (fst (distribute_cells cells outs)) prefix
        :: distribute segments' (snd (distribute_cells cells outs))
  end.

(** [results], cut to the length of the work list and completed by the
    work items that have no result. *)
Definition pad (texts results : list str) : list str :=
  firstn (length texts) results ++ skipn (length results) texts.

Definition attach_pair (segs : list segment) (p : (nat * key) * str) : list segment :=
  attach segs (fst p) (snd p).

Definition cell_texts (cells : list cell) : list str :=
  filter (fun t => negb (is_empty t)) (map cell_text cells).

Fixpoint seg_texts (segments : list segment) : list str :=
  match segments with
  | [] => []
  | TextSeg _ protected _ _ _ :: segments' => protected :: seg_texts segments'
  | TableRow _ cells _ :: segments' => cell_texts cells ++ seg_texts segments'
  end.

(** A cell, with the text that Phase 6 will restore made explicit. *)
Definition eff_cell (c : cell) : cell :=
  mk_cell (cell_text c) (cell_placeholders c)
    (Some (get_translated (cell_translated c) (cell_text c))).

Definition eff (seg : segment) : segment :=
  match seg with
  | TextSeg i protected phs prefix translated =>
      TextSeg i protected phs prefix (Some (get_translated translated protected))
  | TableRow i cells prefix => TableRow i (map eff_cell cells) prefix
  end.

(** A segment as Phase 2 builds it: nothing attached yet. *)
Definition fresh_cell (c : cell) : Prop := cell_translated c = None.

Definition fresh (seg : segment) : Prop :=
  match seg with
  | TextSeg _ _ _ _ translated => translated = None
  | TableRow _ cells _ => Forall fresh_cell cells
  end.

(** The claim as the specification words it, in its second form: when
    the lengths differ no result is mapped back onto a segment. *)
Definition mismatched_results_never_mapped : Prop :=
  forall (content : str) (translator : list str -> list str),
    let segments := extract_segments (split NL content) in
    let results := call_translator translator (texts_to_translate segments) in
    length results <> length (texts_to_translate segments) ->
    map_back segments results = segments.

Definition ascii_digit (c : char) : bool := in_range 48 57 c.

(** The characters a token is made of. *)
Definition tok_char (c : char) : bool :=
  (c =? PH_PREFIX)%N || ascii_digit c || (c =? PH_SUFFIX)%N.

Inductive piece : Type := Ch (c : char) | Tok (j : nat).

Definition render_piece (p : piece) : str :=
  match p with
  | Ch c => [c]
  | Tok j => make_placeholder j
  end.

Definition render (ps : list piece) : str := flat_map render_piece ps.

(** A token stands for its entry in [d], or for itself when it has none. *)
Definition expand_piece (d : dict) (p : piece) : str :=
  match p with
  | Ch c => [c]
  | Tok j =>
      match lookup (make_placeholder j) d with
      | Some v => v
      | None => make_placeholder j
      end
  end.

Definition expand_with (d : dict) (ps : list piece) : str :=
  flat_map (expand_piece d) ps.

Definition clean_pieces (ps : list piece) : Prop :=
  forall c, In (Ch c) ps -> c <> PH_PREFIX.

Definition bounded (n : nat) (ps : list piece) : Prop :=
  forall j, In (Tok j) ps -> j < n.

Definition values_clean (d : dict) : Prop :=
  forall k v, In (k, v) d -> ~ In PH_PREFIX v.

Definition token_keys (d : dict) : Prop :=
  forall k v, In (k, v) d -> exists j, k = make_placeholder j.

(** The dictionary after [n] calls of [next_ph]: the tokens 0 to [n-1], in
    order. *)
Definition dict_ok (n : nat) (m : dict) : Prop :=
  map fst m = map make_placeholder (seq 0 n).

(** What the scan needs of a pattern: no anchor, a first character that is
    fixed and is not a character of tokens, and a last character that is not
    one either. *)
Definition scannable (r : regex) : Prop :=
  unanchored r /\
  (exists c0, tok_char c0 = false /\
     forall prev c s, c <> c0 -> exec false r prev (c :: s) = None) /\
  (forall prev s ws, exec false r prev s = Some ws ->
     exists m c, group0 ws = m ++ [c] /\ tok_char c = false).

(** What the scan needs of a callback: on a match made of the pieces
    [psm] it returns pieces, adds entries for the tokens it takes, and the new
    pieces stand for the text the old ones stood for. *)
Definition good_callback (r : regex)
    (f : list str -> ph_state -> str * ph_state) : Prop :=
  forall psm prev rest ws n m,
    exec false r prev (render psm ++ rest) = Some ws -> group0 ws = render psm ->
    clean_pieces psm -> bounded n psm -> dict_ok n m ->
    exists pso n' new,
      f ws (mk_ph_state n m) = (render pso, mk_ph_state n' (m ++ new)) /\
      n <= n' /\ dict_ok n' (m ++ new) /\ clean_pieces pso /\ bounded n' pso /\
      (values_clean (m ++ new) -> expand_with (m ++ new) pso = expand_with m psm).

(** No comma of [s] is followed, after optional white space, by a comma or
    by a closing parenthesis. *)
Fixpoint comma_free (s : str) : bool :=
  match s with
  | [] => true
  | c :: s' =>
      (if (c =? COMMA)%N
       then match lstrip_by is_space s' with
            | y :: _ => negb (y =? COMMA)%N && negb (y =? RPAREN)%N
            | [] => true
            end
       else true)
      && comma_free s'
  end.

(** No stored original holds the opening delimiter of tokens. *)
Definition originals_clean (phs : dict) : bool :=
  forallb (fun kv => negb (in_set (snd kv) PH_PREFIX)) phs.

(** The claim as the specification words it. *)
Definition protect_restore_inverse : Prop :=
  forall text : str,
    restore_placeholders (fst (protect_inline_elements text))
      (snd (protect_inline_elements text)) = text.

Definition state_ok (st : ph_state) : Prop :=
  dict_ok (counter st) (placeholders st).

(** The characters that start the markup the protection looks for. *)
Definition markup_start (c : char) : bool := in_set [STAR; LBRACK; BACKTICK] c.

(** The field "line_idx" of a segment. *)
Definition seg_line_idx (seg : segment) : nat :=
  match seg with
  | TextSeg i _ _ _ _ => i
  | TableRow i _ _ => i
  end.

(** A line whose text, after its prefix, is not a table row and comes back
    from protection and restoration. *)
Definition text_round_trips (line : str) : bool :=
  let (prefix, text) := strip_prefixes line in
  negb (is_table_row text) && negb (in_set text PH_PREFIX) && comma_free text
  && originals_clean (snd (protect_inline_elements text)).

(** Every translatable line of the document is such a line. *)
Definition translatable_lines_round_trip (lines : list str) : bool :=
  forallb (fun p => match snd p with
                    | Translatable => text_round_trips (fst p)
                    | _ => true
                    end)
    (combine lines (line_types lines)).

(** The characters a slug can hold: a lower-case ASCII letter, an ASCII
    digit, the hyphen, and white space other than the space. *)
Definition anchor_char (c : char) : bool :=
  in_range 97 122 c || in_range 48 57 c || (c =? DASH)%N
  || (is_space c && negb (c =? SP)%N).

(** The payloads of the calls that [DeepLTranslator.translate_batch] makes
    when every call returns: the batches, in order. *)
Fixpoint batches_from (batch : list str) (batch_size : nat) (texts : list str)
    : list (list str) :=
  match texts with
  | [] => if negb (is_empty batch) then [batch] else []
  | text :: texts' =>
      if (MAX_BATCH_CHARS <? batch_size + length text) && negb (is_empty batch)
      then batch :: batches_from [text] (length text) texts'
      else batches_from (batch ++ [text]) (batch_size + length text) texts'
  end.

Definition batches (texts : list str) : list (list str) :=
  batches_from [] 0 texts.

(** A batch is within the limit, or is one text that is over it alone. *)
Definition batch_ok (b : list str) : Prop :=
  b <> [] /\ (total_len b <= MAX_BATCH_CHARS \/ exists t, b = [t]).

(** What follows the first heading in the result. *)
Definition blank_then_toggle (post : list str) : list str :=
  match post with
  | next :: post' =>
      if is_empty (strip next) then next :: TOGGLE :: post'
      else [] :: TOGGLE :: post
  | [] => [[]; TOGGLE]
  end.

(* ================================================================== *)
(** * Facts about strings *)
(* ================================================================== *)

#[local] Arguments N.eqb : simpl never.

Lemma str_eqb_eq (a b : str) : str_eqb a b = true <-> a = b.
Proof.
  revert b; induction a as [|x a IH]; intros [|y b]; simpl; split;
    try congruence; try reflexivity.
  - intros H. apply andb_true_iff in H as [H1 H2].
    apply N.eqb_eq in H1. apply IH in H2. congruence.
  - intros H. injection H as -> ->. rewrite N.eqb_refl. simpl. now apply IH.
Qed.

Lemma str_eqb_refl (a : str) : str_eqb a a = true.
Proof. now apply str_eqb_eq. Qed.

Lemma str_eqb_neq (a b : str) : str_eqb a b = false <-> a <> b.
Proof.
  split.
  - intros H E. apply str_eqb_eq in E. congruence.
  - intros H. destruct (str_eqb a b) eqn:E; [|reflexivity].
    apply str_eqb_eq in E. contradiction.
Qed.

Lemma startswith_app (pre t : str) : startswith pre (pre ++ t) = true.
Proof.
  induction pre as [|x pre IH]; simpl; [reflexivity|].
  now rewrite N.eqb_refl.
Qed.

Lemma startswith_spec (pre s : str) :
  startswith pre s = true <-> exists t, s = pre ++ t.
Proof.
  split.
  - revert s; induction pre as [|x pre IH]; intros s H.
    + now exists s.
    + destruct s as [|y s]; simpl in H; [discriminate|].
      apply andb_true_iff in H as [H1 H2]. apply N.eqb_eq in H1. subst y.
      destruct (IH _ H2) as [t ->]. now exists t.
  - intros [t ->]. apply startswith_app.
Qed.

Lemma is_empty_true {A : Type} (l : list A) : is_empty l = true <-> l = [].
Proof. destruct l; simpl; split; congruence. Qed.

Lemma is_empty_false {A : Type} (l : list A) : is_empty l = false <-> l <> [].
Proof. destruct l; simpl; split; congruence. Qed.

Lemma in_set_In (l : str) (c : char) : in_set l c = true <-> In c l.
Proof.
  unfold in_set. rewrite existsb_exists. split.
  - intros [x [Hx E]]. apply N.eqb_eq in E. now subst.
  - intros H. exists c. split; [assumption|apply N.eqb_refl].
Qed.

Lemma span_len_le (p : char -> bool) (s : str) : span_len p s <= length s.
Proof.
  induction s as [|c s IH]; simpl; [lia|]. destruct (p c); simpl; lia.
Qed.

Lemma span_len_firstn (p : char -> bool) (s : str) (k : nat) :
  k <= span_len p s -> forallb p (firstn k s) = true.
Proof.
  revert k; induction s as [|c s IH]; intros k Hk; simpl in *.
  - now destruct k.
  - destruct k as [|k]; [reflexivity|]. simpl.
    destruct (p c); [|lia]. simpl. apply IH. lia.
Qed.

Lemma span_len_skipn_lt (p : char -> bool) (s : str) (k : nat) :
  k < span_len p s -> exists c t, skipn k s = c :: t /\ p c = true.
Proof.
  revert k; induction s as [|c s IH]; intros k Hk; simpl in *; [lia|].
  destruct (p c) eqn:Hc; [|lia].
  destruct k as [|k]; simpl.
  - now exists c, s.
  - apply IH. lia.
Qed.

Lemma span_len_skipn (p : char -> bool) (s : str) (c : char) (t : str) :
  skipn (span_len p s) s = c :: t -> p c = false.
Proof.
  induction s as [|x s IH]; simpl; [discriminate|].
  destruct (p x) eqn:Hx; simpl; [assumption|].
  intros H. now injection H as -> _.
Qed.

Lemma span_len_app (p : char -> bool) (w rest : str) :
  forallb p w = true ->
  match rest with [] => True | c :: _ => p c = false end ->
  span_len p (w ++ rest) = length w.
Proof.
  intros Hw Hr. induction w as [|x w IH]; simpl in *.
  - destruct rest as [|c rest]; simpl; [reflexivity|]. now rewrite Hr.
  - apply andb_true_iff in Hw as [Hx Hw]. rewrite Hx. f_equal. now apply IH.
Qed.

Lemma firstn_length_app {A : Type} (w rest : list A) :
  firstn (length w) (w ++ rest) = w.
Proof.
  rewrite firstn_app, Nat.sub_diag, firstn_all. simpl. apply app_nil_r.
Qed.

Lemma skipn_length_app {A : Type} (w rest : list A) :
  skipn (length w) (w ++ rest) = rest.
Proof.
  rewrite skipn_app, Nat.sub_diag, skipn_all. reflexivity.
Qed.

Lemma lstrip_by_app (p : char -> bool) (w rest : str) :
  forallb p w = true -> lstrip_by p (w ++ rest) = lstrip_by p rest.
Proof.
  induction w as [|x w IH]; simpl; [reflexivity|].
  intros H. apply andb_true_iff in H as [Hx Hw]. rewrite Hx. now apply IH.
Qed.

Lemma lstrip_by_keeps (p : char -> bool) (c : char) (s : str) :
  p c = false -> lstrip_by p (c :: s) = c :: s.
Proof. intros H. simpl. now rewrite H. Qed.

(** What a left strip removes and what it leaves. *)
Lemma lstrip_by_split (p : char -> bool) (s : str) :
  exists w, s = w ++ lstrip_by p s /\ forallb p w = true /\
            match lstrip_by p s with [] => True | c :: _ => p c = false end.
Proof.
  induction s as [|c s [w [E [Hw Hh]]]]; simpl.
  - now exists [].
  - destruct (p c) eqn:Hc.
    + exists (c :: w). simpl. rewrite Hc, Hw. repeat split; [congruence|assumption].
    + exists []. simpl. now rewrite Hc.
Qed.

Lemma rstrip_by_split (p : char -> bool) (s : str) :
  exists w, s = rstrip_by p s ++ w /\ forallb p w = true /\
            match rev (rstrip_by p s) with [] => True | c :: _ => p c = false end.
Proof.
  unfold rstrip_by. destruct (lstrip_by_split p (rev s)) as [w [E [Hw Hh]]].
  exists (rev w). repeat split.
  - rewrite <- rev_app_distr, <- E. symmetry. apply rev_involutive.
  - rewrite forallb_forall in *. intros x Hx. apply Hw. now apply in_rev.
  - now rewrite rev_involutive.
Qed.

(** ** [split] and [join] *)

Lemma split_not_nil (sep : char) (s : str) : split sep s <> [].
Proof.
  destruct s as [|c s]; simpl; [discriminate|].
  destruct (c =? sep)%N; [discriminate|].
  destruct (split sep s); discriminate.
Qed.

Lemma join_cons (sep w : str) (ws : list str) :
  ws <> [] -> join sep (w :: ws) = w ++ sep ++ join sep ws.
Proof. destruct ws; [congruence|reflexivity]. Qed.

(** Joining the pieces of a split gives the string back. *)
Lemma join_split (sep : char) (s : str) : join [sep] (split sep s) = s.
Proof.
  induction s as [|c s IH]; simpl; [reflexivity|].
  destruct (c =? sep)%N eqn:E.
  - apply N.eqb_eq in E. subst c.
    rewrite join_cons by apply split_not_nil. simpl. now rewrite IH.
  - pose proof (split_not_nil sep s) as Hn.
    destruct (split sep s) as [|w ws]; [congruence|].
    destruct ws as [|w' ws]; simpl in *; congruence.
Qed.

Lemma split_no_sep (sep : char) (s : str) :
  ~ In sep s -> split sep s = [s].
Proof.
  induction s as [|c s IH]; simpl; intros H; [reflexivity|].
  destruct (c =? sep)%N eqn:E.
  - apply N.eqb_eq in E. subst. tauto.
  - rewrite IH by tauto. reflexivity.
Qed.

Lemma split_app_sep (sep : char) (a b : str) :
  ~ In sep a -> split sep (a ++ sep :: b) = a :: split sep b.
Proof.
  induction a as [|c a IH]; simpl; intros H.
  - now rewrite N.eqb_refl.
  - destruct (c =? sep)%N eqn:E.
    + apply N.eqb_eq in E. subst. tauto.
    + rewrite IH by tauto. reflexivity.
Qed.

(** Splitting a join of pieces that hold no separator gives the pieces. *)
Lemma split_join (sep : char) (ws : list str) :
  ws <> [] -> Forall (fun w => ~ In sep w) ws -> split sep (join [sep] ws) = ws.
Proof.
  induction ws as [|w ws IH]; intros Hn Hf; [congruence|].
  inversion Hf as [|? ? Hw Hws]; subst.
  destruct ws as [|w' ws].
  - simpl. now apply split_no_sep.
  - rewrite join_cons by discriminate. simpl app.
    rewrite split_app_sep by assumption. f_equal. apply IH; [discriminate|assumption].
Qed.

(* ================================================================== *)
(** * Facts about the matcher *)
(* ================================================================== *)

Lemma first_some_Some {A B : Type} (f : A -> option B) (l : list A) (y : B) :
  first_some f l = Some y -> exists x, In x l /\ f x = Some y.
Proof.
  induction l as [|x l IH]; simpl; [discriminate|].
  destruct (f x) eqn:E.
  - intros H. injection H as <-. exists x. auto.
  - intros H. destruct (IH H) as [x' [Hin Hx]]. exists x'. auto.
Qed.

Lemma first_some_None {A B : Type} (f : A -> option B) (l : list A) :
  (forall x, In x l -> f x = None) -> first_some f l = None.
Proof.
  induction l as [|x l IH]; simpl; intros H; [reflexivity|].
  rewrite (H x) by auto. apply IH. auto.
Qed.

Lemma first_some_app {A B : Type} (f : A -> option B) (l1 l2 : list A) :
  (forall x, In x l1 -> f x = None) ->
  first_some f (l1 ++ l2) = first_some f l2.
Proof.
  induction l1 as [|x l1 IH]; simpl; intros H; [reflexivity|].
  rewrite (H x) by auto. apply IH. auto.
Qed.

Lemma candidates_eq (p : char -> bool) (lo : nat) (hi : option nat)
    (greedy : bool) (s : str) :
  candidates p lo hi greedy s =
  if greedy then rev (seq lo (S (rep_max p hi s) - lo))
  else seq lo (S (rep_max p hi s) - lo).
Proof. reflexivity. Qed.

Lemma candidates_In (p : char -> bool) (lo : nat) (hi : option nat)
    (greedy : bool) (s : str) (n : nat) :
  In n (candidates p lo hi greedy s) <-> lo <= n <= rep_max p hi s.
Proof.
  rewrite candidates_eq.
  destruct greedy; [rewrite <- in_rev|]; rewrite in_seq; lia.
Qed.

Lemma rep_max_le_span (p : char -> bool) (hi : option nat) (s : str) :
  rep_max p hi s <= span_len p s.
Proof. unfold rep_max. destruct hi; lia. Qed.

Lemma seq_split_at (lo k m : nat) :
  lo <= k <= m -> seq lo (S m - lo) = seq lo (k - lo) ++ k :: seq (S k) (m - k).
Proof.
  intros H. replace (S m - lo) with ((k - lo) + S (m - k)) by lia.
  rewrite seq_app. f_equal. replace (lo + (k - lo)) with k by lia. reflexivity.
Qed.

(** A greedy quantifier settles on the largest count from which the rest of
    the pattern matches. *)
Lemma exec_rep_greedy (ml : bool) (p : char -> bool) (lo : nat) (hi : option nat)
    (r : regex) (prev : option char) (s : str) (k : nat) (ws : list str) :
  lo <= k <= rep_max p hi s ->
  exec ml r (prev_after prev (firstn k s)) (skipn k s) = Some ws ->
  (forall j, k < j <= rep_max p hi s ->
             exec ml r (prev_after prev (firstn j s)) (skipn j s) = None) ->
  exec ml (Rep p lo hi true :: r) prev s = Some (firstn k s :: ws).
Proof.
  intros Hk Hok Hfail. cbn [exec]. rewrite candidates_eq.
  rewrite (seq_split_at lo k _ Hk), rev_app_distr. cbn [rev].
  rewrite <- app_assoc. rewrite first_some_app.
  - cbn [app first_some]. now rewrite Hok.
  - intros x Hx. apply in_rev in Hx. apply in_seq in Hx.
    rewrite Hfail by lia. reflexivity.
Qed.

(** A lazy quantifier settles on the smallest such count. *)
Lemma exec_rep_lazy (ml : bool) (p : char -> bool) (lo : nat) (hi : option nat)
    (r : regex) (prev : option char) (s : str) (k : nat) (ws : list str) :
  lo <= k <= rep_max p hi s ->
  exec ml r (prev_after prev (firstn k s)) (skipn k s) = Some ws ->
  (forall j, lo <= j < k ->
             exec ml r (prev_after prev (firstn j s)) (skipn j s) = None) ->
  exec ml (Rep p lo hi false :: r) prev s = Some (firstn k s :: ws).
Proof.
  intros Hk Hok Hfail. cbn [exec]. rewrite candidates_eq.
  rewrite (seq_split_at lo k _ Hk). rewrite first_some_app.
  - cbn [first_some]. now rewrite Hok.
  - intros x Hx. apply in_seq in Hx. rewrite Hfail by lia. reflexivity.
Qed.

Lemma exec_rep_None (ml : bool) (p : char -> bool) (lo : nat) (hi : option nat)
    (greedy : bool) (r : regex) (prev : option char) (s : str) :
  (forall j, lo <= j <= rep_max p hi s ->
             exec ml r (prev_after prev (firstn j s)) (skipn j s) = None) ->
  exec ml (Rep p lo hi greedy :: r) prev s = None.
Proof.
  intros H. simpl. apply first_some_None. intros x Hx.
  apply candidates_In in Hx. now rewrite H.
Qed.

Lemma exec_rep_Some (ml : bool) (p : char -> bool) (lo : nat) (hi : option nat)
    (greedy : bool) (r : regex) (prev : option char) (s : str) (ws : list str) :
  exec ml (Rep p lo hi greedy :: r) prev s = Some ws ->
  exists k ws', lo <= k <= rep_max p hi s /\ ws = firstn k s :: ws' /\
    exec ml r (prev_after prev (firstn k s)) (skipn k s) = Some ws'.
Proof.
  simpl. intros H. apply first_some_Some in H as [k [Hin Hk]].
  apply candidates_In in Hin.
  destruct (exec ml r (prev_after prev (firstn k s)) (skipn k s)) as [ws'|] eqn:E;
    [|discriminate].
  simpl in Hk. injection Hk as <-. now exists k, ws'.
Qed.

(** Whatever the matcher returns is a way for the pattern to match. *)
Lemma exec_sound (ml : bool) (r : regex) :
  forall prev s ws, exec ml r prev s = Some ws ->
    exists rest, s = concat ws ++ rest /\ matches ml r prev ws rest.
Proof.
  induction r as [|n r IH]; intros prev s ws H.
  - simpl in H. injection H as <-. now exists s.
  - destruct n as [p|p lo hi g| | | |].
    + simpl in H. destruct s as [|c s]; [discriminate|].
      destruct (p c) eqn:Hc; [|discriminate].
      destruct (exec ml r (Some c) s) as [ws'|] eqn:E; [|discriminate].
      injection H as <-. destruct (IH _ _ _ E) as [rest [-> Hm]].
      exists rest. simpl. split; [reflexivity|]. split; [now exists c|assumption].
    + apply exec_rep_Some in H as [k [ws' [Hk [-> E]]]].
      destruct (IH _ _ _ E) as [rest [Hs Hm]].
      pose proof (rep_max_le_span p hi s) as Hsp.
      pose proof (span_len_le p s) as Hle.
      exists rest. simpl. split.
      * rewrite <- app_assoc, <- Hs. symmetry. apply firstn_skipn.
      * split; [|assumption]. rewrite firstn_length_le by lia.
        repeat split; try lia.
        -- apply span_len_firstn. lia.
        -- intros h ->. unfold rep_max in Hk. lia.
    + simpl in H. destruct (exec ml r prev s) as [ws'|] eqn:E; [|discriminate].
      injection H as <-. destruct (IH _ _ _ E) as [rest [-> Hm]].
      exists rest. simpl. auto.
    + simpl in H. destruct (exec ml r prev s) as [ws'|] eqn:E; [|discriminate].
      injection H as <-. destruct (IH _ _ _ E) as [rest [-> Hm]].
      exists rest. simpl. auto.
    + simpl in H. destruct (at_bol ml prev) eqn:Hb; [|discriminate].
      destruct (exec ml r prev s) as [ws'|] eqn:E; [|discriminate].
      injection H as <-. destruct (IH _ _ _ E) as [rest [-> Hm]].
      exists rest. simpl. auto.
    + simpl in H. destruct (at_eol ml s) eqn:Hb; [|discriminate].
      destruct (exec ml r prev s) as [ws'|] eqn:E; [|discriminate].
      injection H as <-. destruct (IH _ _ _ E) as [rest [-> Hm]].
      exists rest. simpl. auto.
Qed.

(** A pattern without anchors does not look at the character before the
    match. *)
Lemma exec_unanchored (ml : bool) (r : regex) :
  unanchored r -> forall prev prev' s, exec ml r prev s = exec ml r prev' s.
Proof.
  induction 1 as [|n r Hn Hr IH]; intros prev prev' s; [reflexivity|].
  destruct n as [p|p lo hi g| | | |]; cbn [exec]; try contradiction.
  - reflexivity.
  - induction (candidates p lo hi g s) as [|k l IHl]; cbn [first_some];
      [reflexivity|].
    rewrite (IH (prev_after prev (firstn k s)) (prev_after prev' (firstn k s))).
    now rewrite IHl.
  - now rewrite (IH prev prev').
  - now rewrite (IH prev prev').
Qed.

(** ** The scan *)

Lemma exec_length (ml : bool) (r : regex) (prev : option char) (s : str)
    (ws : list str) :
  exec ml r prev s = Some ws -> length (concat ws) <= length s.
Proof.
  intros H. apply exec_sound in H as [rest [-> _]]. rewrite length_app. lia.
Qed.

(** The scan does not depend on its fuel once there is enough of it. *)
Lemma sub_go_fuel {St : Type} (ml : bool) (r : regex)
    (f : list str -> St -> str * St) :
  forall fuel1 fuel2 prev s st,
    length s < fuel1 -> length s < fuel2 ->
    sub_go fuel1 ml r f prev s st = sub_go fuel2 ml r f prev s st.
Proof.
  induction fuel1 as [|fuel1 IH]; intros fuel2 prev s st H1 H2; [lia|].
  destruct fuel2 as [|fuel2]; [lia|]. cbn [sub_go].
  destruct (exec ml r prev s) as [ws|] eqn:E.
  - destruct (f ws st) as [out st1].
    pose proof (exec_length _ _ _ _ _ E) as Hlen.
    destruct (group0 ws) as [|c m] eqn:Em.
    + destruct s as [|c s]; [reflexivity|].
      cbn [length] in H1, H2. rewrite (IH fuel2) by lia. reflexivity.
    + unfold group0 in Em. rewrite Em in Hlen.
      assert (length (skipn (length (c :: m)) s) < length s) as Hsk
        by (rewrite length_skipn; cbn [length] in *; lia).
      rewrite (IH fuel2) by lia. reflexivity.
  - destruct s as [|c s]; [reflexivity|].
    cbn [length] in H1, H2. rewrite (IH fuel2) by lia. reflexivity.
Qed.

Lemma sub_go_S {St : Type} (fuel : nat) (ml : bool) (r : regex)
    (f : list str -> St -> str * St) (prev : option char) (s : str) (st : St) :
  sub_go (S fuel) ml r f prev s st =
  match exec ml r prev s with
  | Some chunks =>
      let (out, st1) := f chunks st in
      match group0 chunks with
      | [] =>
          match s with
          | [] => (out, st1)
          | c :: s' =>
              let (out', st2) := sub_go fuel ml r f (Some c) s' st1 in
              (out ++ c :: out', st2)
          end
      | m =>
          let (out', st2) :=
            sub_go fuel ml r f (prev_after prev m) (skipn (length m) s) st1 in
          (out ++ out', st2)
      end
  | None =>
      match s with
      | [] => ([], st)
      | c :: s' =>
          let (out', st2) := sub_go fuel ml r f (Some c) s' st in
          (c :: out', st2)
      end
  end.
Proof. reflexivity. Qed.

Lemma sub_from_nil {St : Type} (ml : bool) (r : regex)
    (f : list str -> St -> str * St) (prev : option char) (st : St) :
  exec ml r prev [] = None -> sub_from ml r f prev [] st = ([], st).
Proof. intros H. unfold sub_from. rewrite sub_go_S, H. reflexivity. Qed.

Lemma sub_from_skip {St : Type} (ml : bool) (r : regex)
    (f : list str -> St -> str * St) (prev : option char) (c : char) (s : str)
    (st : St) :
  exec ml r prev (c :: s) = None ->
  sub_from ml r f prev (c :: s) st =
  (c :: fst (sub_from ml r f (Some c) s st), snd (sub_from ml r f (Some c) s st)).
Proof.
  intros H. unfold sub_from. rewrite sub_go_S, H. cbn [length].
  destruct (sub_go (S (length s)) ml r f (Some c) s st). reflexivity.
Qed.

Lemma sub_from_match {St : Type} (ml : bool) (r : regex)
    (f : list str -> St -> str * St) (prev : option char) (s : str) (st : St)
    (ws : list str) :
  exec ml r prev s = Some ws -> group0 ws <> [] ->
  sub_from ml r f prev s st =
  let rest := skipn (length (group0 ws)) s in
  let next := sub_from ml r f (prev_after prev (group0 ws)) rest (snd (f ws st)) in
  (fst (f ws st) ++ fst next, snd next).
Proof.
  intros H Hne. unfold sub_from. rewrite sub_go_S, H.
  destruct (f ws st) as [out st1]. cbn [fst snd].
  pose proof (exec_length _ _ _ _ _ H) as Hlen.
  destruct (group0 ws) as [|c m] eqn:Em; [congruence|].
  unfold group0 in Em. rewrite Em in Hlen.
  rewrite (@sub_go_fuel _ ml r f (length s) (S (length (skipn (length (c :: m)) s)))).
  - cbv zeta. destruct (sub_go _ ml r f _ _ st1). reflexivity.
  - rewrite length_skipn. simpl in *. lia.
  - lia.
Qed.

Lemma re_sub_st_from {St : Type} (ml : bool) (r : regex)
    (f : list str -> St -> str * St) (s : str) (st : St) :
  re_sub_st ml r f s st = sub_from ml r f None s st.
Proof. reflexivity. Qed.

Lemma sub_go_unanchored {St : Type} (ml : bool) (r : regex)
    (f : list str -> St -> str * St) :
  unanchored r ->
  forall fuel prev prev' s st,
    sub_go fuel ml r f prev s st = sub_go fuel ml r f prev' s st.
Proof.
  intros Hr. induction fuel as [|fuel IH]; intros prev prev' s st; [reflexivity|].
  rewrite !sub_go_S. rewrite (exec_unanchored ml r Hr prev prev').
  destruct (exec ml r prev' s) as [ws|]; [|reflexivity].
  destruct (f ws st) as [out st1].
  destruct (group0 ws) as [|c m]; [reflexivity|]. cbv zeta.
  now rewrite (IH (prev_after prev (c :: m)) (prev_after prev' (c :: m))).
Qed.

Lemma sub_from_unanchored {St : Type} (ml : bool) (r : regex)
    (f : list str -> St -> str * St) (prev prev' : option char) (s : str) (st : St) :
  unanchored r -> sub_from ml r f prev s st = sub_from ml r f prev' s st.
Proof. intros Hr. unfold sub_from. now apply sub_go_unanchored. Qed.

Lemma never_empty_nil (ml : bool) (r : regex) (prev : option char) :
  never_empty ml r -> exec ml r prev [] = None.
Proof.
  intros Hn. destruct (exec ml r prev []) as [ws|] eqn:E; [|reflexivity].
  exfalso. apply (Hn _ _ _ E).
  apply exec_sound in E as [rest [Hs _]]. symmetry in Hs.
  apply app_eq_nil in Hs as [Hs _]. exact Hs.
Qed.

(** A pattern that starts with one character never matches the empty
    string. *)
Lemma never_empty_One (ml : bool) (p : char -> bool) (r : regex) :
  never_empty ml (One p :: r).
Proof.
  intros prev s ws H. apply exec_sound in H as [rest [_ Hm]].
  destruct ws as [|w ws]; [contradiction|]. destruct Hm as [[c [-> _]] _].
  discriminate.
Qed.

(** Where the pattern matches nowhere, the scan copies the text. *)
Lemma sub_from_no_match {St : Type} (ml : bool) (r : regex)
    (f : list str -> St -> str * St) (x : str) :
  never_empty ml r ->
  (forall u c x' prev, x = u ++ c :: x' -> exec ml r prev (c :: x') = None) ->
  forall prev st, sub_from ml r f prev x st = (x, st).
Proof.
  intros Hn. induction x as [|c x IH]; intros H prev st.
  - apply sub_from_nil. now apply never_empty_nil.
  - rewrite sub_from_skip by (apply (H [] c x); reflexivity).
    rewrite IH; [reflexivity|].
    intros u c' x' prev' ->. apply (H (c :: u) c' x'). reflexivity.
Qed.

(** The scan of [x ++ y] is the scan of [x] followed by that of [y] when
    no match that starts in [x] depends on [y]. *)
Lemma sub_from_app {St : Type} (ml : bool) (r : regex)
    (f : list str -> St -> str * St) (y : str) :
  unanchored r -> never_empty ml r ->
  forall n x, length x <= n ->
    (forall u c x', x = u ++ c :: x' ->
                    exec ml r None (c :: x' ++ y) = exec ml r None (c :: x')) ->
    forall st,
      sub_from ml r f None (x ++ y) st =
      (fst (sub_from ml r f None x st)
         ++ fst (sub_from ml r f None y (snd (sub_from ml r f None x st))),
       snd (sub_from ml r f None y (snd (sub_from ml r f None x st)))).
Proof.
  intros Hr Hn. induction n as [|n IH]; intros x Hlen H st.
  - destruct x; [|simpl in Hlen; lia]. simpl app.
    rewrite (sub_from_nil ml r f None st) by now apply never_empty_nil.
    simpl. now destruct (sub_from ml r f None y st).
  - destruct x as [|c x].
    + simpl app.
      rewrite (sub_from_nil ml r f None st) by now apply never_empty_nil.
      simpl. now destruct (sub_from ml r f None y st).
    + pose proof (H [] c x eq_refl) as Hc.
      assert (Hsuf : forall k u c' x', skipn k (c :: x) = u ++ c' :: x' ->
                exec ml r None (c' :: x' ++ y) = exec ml r None (c' :: x')).
      { intros k u c' x' E. apply (H (firstn k (c :: x) ++ u)).
        rewrite <- app_assoc, <- E. symmetry. apply firstn_skipn. }
      destruct (exec ml r None (c :: x)) as [ws|] eqn:E.
      * pose proof (Hn _ _ _ E) as Hne.
        pose proof (exec_sound _ _ _ _ _ E) as [rest [Hs _]].
        fold (group0 ws) in Hs.
        rewrite (sub_from_match ml r f None (c :: x) st ws) by assumption.
        change ((c :: x) ++ y) with (c :: x ++ y).
        rewrite (sub_from_match ml r f None (c :: x ++ y) st ws) by (assumption || congruence).
        cbv zeta.
        rewrite !(sub_from_unanchored ml r f (prev_after None (group0 ws)) None)
          by assumption.
        assert (Hsk1 : skipn (length (group0 ws)) (c :: x) = rest)
          by (rewrite Hs; apply skipn_length_app).
        assert (Hsk2 : skipn (length (group0 ws)) (c :: x ++ y) = rest ++ y).
        { change (c :: x ++ y) with ((c :: x) ++ y).
          rewrite Hs, <- app_assoc. apply skipn_length_app. }
        rewrite Hsk1, Hsk2.
        rewrite IH.
        -- cbn [fst snd]. now rewrite app_assoc.
        -- assert (length (c :: x) = length (group0 ws) + length rest)
             by (rewrite Hs; apply length_app).
           destruct (group0 ws); [congruence|]. simpl in *. lia.
        -- intros u c' x' Erest.
           apply (Hsuf (length (group0 ws)) u). now rewrite Hsk1.
      * rewrite (sub_from_skip ml r f None c x st E).
        change ((c :: x) ++ y) with (c :: x ++ y).
        rewrite (sub_from_skip ml r f None c (x ++ y) st) by congruence.
        rewrite !(sub_from_unanchored ml r f (Some c) None) by assumption.
        rewrite IH.
        -- reflexivity.
        -- simpl in Hlen. lia.
        -- intros u c' x' ->. apply (Hsuf 1 u). reflexivity.
Qed.

(** ** The scan with a pure callback *)

Lemma re_sub_from (ml : bool) (r : regex) (f : list str -> str) (s : str) :
  re_sub ml r f s = fst (sub_from ml r (pure f) None s tt).
Proof. reflexivity. Qed.

Lemma unit_tt (u : unit) : u = tt.
Proof. now destruct u. Qed.

Lemma re_sub_nil (ml : bool) (r : regex) (f : list str -> str) :
  never_empty ml r -> re_sub ml r f [] = [].
Proof.
  intros Hn. rewrite re_sub_from, sub_from_nil; [reflexivity|].
  now apply never_empty_nil.
Qed.

Lemma re_sub_skip (r : regex) (f : list str -> str) (c : char) (s : str) :
  unanchored r -> exec false r None (c :: s) = None ->
  re_sub false r f (c :: s) = c :: re_sub false r f s.
Proof.
  intros Hr H. rewrite !re_sub_from, sub_from_skip by assumption. cbn [fst].
  now rewrite (sub_from_unanchored false r (pure f) (Some c) None s tt Hr).
Qed.

Lemma re_sub_match (r : regex) (f : list str -> str) (s : str) (ws : list str) :
  unanchored r -> never_empty false r -> exec false r None s = Some ws ->
  re_sub false r f s =
  f ws ++ re_sub false r f (skipn (length (group0 ws)) s).
Proof.
  intros Hr Hn H. rewrite !re_sub_from.
  rewrite (sub_from_match false r (pure f) None s tt ws H (Hn _ _ _ H)).
  cbn [fst snd pure].
  now rewrite (sub_from_unanchored false r (pure f) _ None _ tt Hr).
Qed.

Lemma re_sub_no_match (r : regex) (f : list str -> str) (x : str) :
  never_empty false r ->
  (forall u c x' prev, x = u ++ c :: x' -> exec false r prev (c :: x') = None) ->
  re_sub false r f x = x.
Proof.
  intros Hn H. rewrite re_sub_from, sub_from_no_match by assumption. reflexivity.
Qed.

Lemma re_sub_app (r : regex) (f : list str -> str) (x y : str) :
  unanchored r -> never_empty false r ->
  (forall u c x', x = u ++ c :: x' ->
                  exec false r None (c :: x' ++ y) = exec false r None (c :: x')) ->
  re_sub false r f (x ++ y) = re_sub false r f x ++ re_sub false r f y.
Proof.
  intros Hr Hn H. rewrite !re_sub_from.
  rewrite (sub_from_app false r (pure f) y Hr Hn (length x) x (le_n _) H tt).
  cbn [fst]. now rewrite (unit_tt (snd (sub_from false r (pure f) None x tt))).
Qed.

(** ** Quantifiers followed by something their class excludes *)

(** When the rest of the pattern cannot start with a character of the
    class, a greedy quantifier takes all it can and never gives back. *)
Lemma exec_rep_greedy_disjoint (ml : bool) (p : char -> bool) (lo : nat)
    (hi : option nat) (r : regex) (prev : option char) (s : str) :
  (forall c t prev', p c = true -> exec ml r prev' (c :: t) = None) ->
  exec ml (Rep p lo hi true :: r) prev s =
  if lo <=? rep_max p hi s
  then option_map (cons (firstn (rep_max p hi s) s))
         (exec ml r (prev_after prev (firstn (rep_max p hi s) s))
            (skipn (rep_max p hi s) s))
  else None.
Proof.
  intros Hd. destruct (lo <=? rep_max p hi s) eqn:Hlo.
  - apply Nat.leb_le in Hlo.
    destruct (exec ml r (prev_after prev (firstn (rep_max p hi s) s))
                (skipn (rep_max p hi s) s)) as [ws|] eqn:E.
    + apply exec_rep_greedy; [lia|assumption|intros; lia].
    + apply exec_rep_None. intros j Hj.
      destruct (Nat.eq_dec j (rep_max p hi s)) as [->|Hne]; [assumption|].
      pose proof (rep_max_le_span p hi s).
      destruct (span_len_skipn_lt p s j) as [c [t [-> Hc]]]; [lia|].
      now apply Hd.
  - apply Nat.leb_gt in Hlo. apply exec_rep_None. intros; lia.
Qed.

Lemma exec_One (ml : bool) (p : char -> bool) (r : regex) (prev : option char)
    (c : char) (s : str) :
  exec ml (One p :: r) prev (c :: s) =
  if p c then option_map (cons [c]) (exec ml r (Some c) s) else None.
Proof. reflexivity. Qed.

Lemma exec_Lit_other (ml : bool) (x : char) (r : regex) (prev : option char)
    (c : char) (s : str) :
  c <> x -> exec ml (Lit x :: r) prev (c :: s) = None.
Proof.
  intros H. unfold Lit. rewrite exec_One.
  destruct (N.eqb_spec x c); [congruence|reflexivity].
Qed.

Lemma exec_Lit_same (ml : bool) (x : char) (r : regex) (prev : option char)
    (s : str) :
  exec ml (Lit x :: r) prev (x :: s) = option_map (cons [x]) (exec ml r (Some x) s).
Proof. unfold Lit. rewrite exec_One, N.eqb_refl. reflexivity. Qed.

Ltac solve_unanchored := unfold unanchored; repeat constructor.

Lemma exec_Open (ml : bool) (r : regex) (prev : option char) (s : str) :
  exec ml (Open :: r) prev s = option_map (cons []) (exec ml r prev s).
Proof. reflexivity. Qed.

Lemma exec_Close (ml : bool) (r : regex) (prev : option char) (s : str) :
  exec ml (Close :: r) prev s = option_map (cons []) (exec ml r prev s).
Proof. reflexivity. Qed.

Lemma exec_nil (ml : bool) (prev : option char) (s : str) :
  exec ml [] prev s = Some [].
Proof. reflexivity. Qed.

Lemma exec_Bol (ml : bool) (r : regex) (prev : option char) (s : str) :
  exec ml (Bol :: r) prev s =
  if at_bol ml prev then option_map (cons []) (exec ml r prev s) else None.
Proof. reflexivity. Qed.

Lemma exec_Eol (ml : bool) (r : regex) (prev : option char) (s : str) :
  exec ml (Eol :: r) prev s =
  if at_eol ml s then option_map (cons []) (exec ml r prev s) else None.
Proof. reflexivity. Qed.

(* ================================================================== *)
(** * The clean-up of [restore_placeholders] *)
(* ================================================================== *)

Lemma unanchored_placeholder : unanchored RE_PLACEHOLDER.
Proof. solve_unanchored. Qed.

Lemma never_empty_placeholder : never_empty false RE_PLACEHOLDER.
Proof. apply never_empty_One. Qed.

Lemma digit_not_suffix (c : char) : is_digit c = true -> c <> PH_SUFFIX.
Proof. intros H ->. vm_compute in H. discriminate. Qed.

Lemma digit_not_prefix (c : char) : is_digit c = true -> c <> PH_PREFIX.
Proof. intros H ->. vm_compute in H. discriminate. Qed.

Lemma exec_placeholder_token (prev : option char) (digits rest : str) :
  digits <> [] -> forallb is_digit digits = true ->
  exec false RE_PLACEHOLDER prev (token digits ++ rest)
  = Some [[PH_PREFIX]; digits; [PH_SUFFIX]].
Proof.
  intros Hne Hd. unfold RE_PLACEHOLDER, token, Plus.
  cbn [app]. rewrite exec_Lit_same, <- app_assoc. cbn [app].
  rewrite exec_rep_greedy_disjoint.
  - unfold rep_max. rewrite span_len_app by (assumption || reflexivity).
    destruct digits as [|d digits]; [congruence|].
    cbn [length Nat.leb]. change (S (length digits)) with (length (d :: digits)).
    rewrite firstn_length_app, skipn_length_app, exec_Lit_same. reflexivity.
  - intros c t prev' Hc. apply exec_Lit_other. now apply digit_not_suffix.
Qed.

Lemma exec_placeholder_inv (prev : option char) (s : str) (ws : list str) :
  exec false RE_PLACEHOLDER prev s = Some ws ->
  exists digits rest, digits <> [] /\ forallb is_digit digits = true /\
    s = token digits ++ rest /\ ws = [[PH_PREFIX]; digits; [PH_SUFFIX]].
Proof.
  intros H. apply exec_sound in H as [rest [-> Hm]].
  destruct ws as [|w1 [|w2 [|w3 [|? ?]]]]; simpl in Hm; try tauto.
  destruct Hm as [[c1 [-> H1]] [[H2 [H2' _]] [[c3 [-> H3]] _]]].
  apply N.eqb_eq in H1, H3. subst c1 c3.
  exists w2, rest. repeat split; try assumption.
  destruct w2; simpl in H2'; [lia|discriminate].
Qed.

(** A match of the token pattern never reaches into a token that follows. *)
Lemma exec_placeholder_ext (prev : option char) (x y : str) :
  x <> [] ->
  exec false RE_PLACEHOLDER prev (x ++ PH_PREFIX :: y)
  = exec false RE_PLACEHOLDER prev x.
Proof.
  intros Hx.
  destruct (exec false RE_PLACEHOLDER prev x) as [ws|] eqn:E1.
  - apply exec_placeholder_inv in E1 as [digits [rest [Hne [Hd [-> ->]]]]].
    rewrite <- app_assoc. now apply exec_placeholder_token.
  - destruct (exec false RE_PLACEHOLDER prev (x ++ PH_PREFIX :: y)) as [ws|] eqn:E2;
      [exfalso|reflexivity].
    apply exec_placeholder_inv in E2 as [digits [rest [Hne [Hd [Hs _]]]]].
    destruct x as [|c x]; [congruence|].
    unfold token in Hs. simpl in Hs. injection Hs as -> Hs.
    rewrite <- app_assoc in Hs. simpl in Hs.
    apply app_eq_app in Hs as [l [[-> Hl]|[-> Hl]]].
    + destruct l as [|e l]; simpl in Hl; [discriminate|].
      injection Hl as <- _.
      rewrite (exec_placeholder_token prev digits l Hne Hd) in E1
        || (change (PH_PREFIX :: digits ++ PH_SUFFIX :: l)
              with (PH_PREFIX :: digits ++ [PH_SUFFIX] ++ l) in E1;
            rewrite app_assoc in E1;
            change (PH_PREFIX :: (digits ++ [PH_SUFFIX]) ++ l)
              with (token digits ++ l) in E1;
            rewrite (exec_placeholder_token prev digits l Hne Hd) in E1).
      discriminate.
    + destruct l as [|e l]; simpl in Hl; [discriminate|].
      injection Hl as <- _.
      rewrite forallb_app in Hd. apply andb_true_iff in Hd as [_ Hd].
      cbn [forallb] in Hd. apply andb_true_iff in Hd as [Hd _].
      now apply digit_not_prefix in Hd.
Qed.

(** A token is cleaned on its own, wherever it stands. *)
Lemma clean_token (known : list str) (pre digits post : str) :
  digits <> [] -> forallb is_digit digits = true ->
  re_sub false RE_PLACEHOLDER (clean_spurious known) (pre ++ token digits ++ post)
  = re_sub false RE_PLACEHOLDER (clean_spurious known) pre
    ++ (if existsb (str_eqb (token digits)) known then token digits else [])
    ++ re_sub false RE_PLACEHOLDER (clean_spurious known) post.
Proof.
  intros Hne Hd.
  rewrite re_sub_app.
  - f_equal.
    rewrite (re_sub_match RE_PLACEHOLDER _ _ [[PH_PREFIX]; digits; [PH_SUFFIX]]
               unanchored_placeholder never_empty_placeholder
               (exec_placeholder_token None digits post Hne Hd)).
    assert (Hg : group0 [[PH_PREFIX]; digits; [PH_SUFFIX]] = token digits)
      by (unfold group0, token; simpl; rewrite ?app_nil_r; reflexivity).
    unfold clean_spurious at 1. rewrite Hg, skipn_length_app. reflexivity.
  - apply unanchored_placeholder.
  - apply never_empty_placeholder.
  - intros u c x' _. unfold token. cbn [app].
    change (c :: x' ++ PH_PREFIX :: (digits ++ [PH_SUFFIX]) ++ post)
      with ((c :: x') ++ PH_PREFIX :: (digits ++ [PH_SUFFIX]) ++ post).
    apply exec_placeholder_ext. discriminate.
Qed.

Lemma space_not_comma (c : char) : is_space c = true -> c <> COMMA.
Proof. intros H ->. vm_compute in H. discriminate. Qed.

Lemma space_not_rparen (c : char) : is_space c = true -> c <> RPAREN.
Proof. intros H ->. vm_compute in H. discriminate. Qed.

Lemma exec_comma_then (x : char) (prev : option char) (ws rest : str) :
  (forall c, is_space c = true -> c <> x) ->
  forallb is_space ws = true ->
  exec false [Lit COMMA; Star is_space; Lit x] prev (COMMA :: ws ++ x :: rest)
  = Some [[COMMA]; ws; [x]].
Proof.
  intros Hx Hws. unfold Star. rewrite exec_Lit_same.
  rewrite exec_rep_greedy_disjoint.
  - unfold rep_max. rewrite span_len_app.
    + cbn [Nat.leb]. rewrite firstn_length_app, skipn_length_app, exec_Lit_same.
      reflexivity.
    + assumption.
    + destruct (is_space x) eqn:E; [|reflexivity]. now apply Hx in E.
  - intros c t prev' Hc. apply exec_Lit_other. now apply Hx.
Qed.

Lemma sub_comma_then (x : char) (ws rest : str) :
  (forall c, is_space c = true -> c <> x) ->
  forallb is_space ws = true ->
  re_sub false [Lit COMMA; Star is_space; Lit x] (fun _ => [x])
    (COMMA :: ws ++ x :: rest)
  = x :: re_sub false [Lit COMMA; Star is_space; Lit x] (fun _ => [x]) rest.
Proof.
  intros Hx Hws.
  rewrite (re_sub_match _ _ _ [[COMMA]; ws; [x]]).
  - assert (Hg : group0 [[COMMA]; ws; [x]] = COMMA :: ws ++ [x])
      by (unfold group0; simpl; rewrite ?app_nil_r; reflexivity).
    rewrite Hg.
    change (COMMA :: ws ++ x :: rest) with ((COMMA :: ws ++ [x] ++ rest)).
    rewrite app_assoc.
    change (COMMA :: (ws ++ [x]) ++ rest) with ((COMMA :: ws ++ [x]) ++ rest).
    now rewrite skipn_length_app.
  - solve_unanchored.
  - apply never_empty_One.
  - now apply exec_comma_then.
Qed.

(** C10. After the substitution, [restore_placeholders] cleans the text
    with three scans, whatever the map: every token-shaped piece of text
    (opening delimiter, digits, closing delimiter) that is not a key of the
    map is deleted wherever it stands, also when the map is empty; then a
    comma, white space and a comma become a comma, and a comma, white space
    and a closing parenthesis become the parenthesis.  So a document whose
    prose holds such text is altered even by the backend that returns its
    inputs unchanged. *)
Theorem C10_restore_cleans_unknown_tokens_and_commas
    (text : str) (phs : dict) (pre digits post ws rest : str) :
  digits <> [] -> forallb is_digit digits = true ->
  existsb (str_eqb (token digits)) (map fst phs) = false ->
  forallb is_space ws = true ->
  let substituted :=
    fold_left (fun acc kv => replace (fst kv) (snd kv) acc)
      (sorted_longest_first phs) text in
  let clean := re_sub false RE_PLACEHOLDER (clean_spurious (map fst phs)) in
  let commas := re_sub false RE_COMMA_COMMA (fun _ => [COMMA]) in
  let parens := re_sub false RE_COMMA_PAREN (fun _ => [RPAREN]) in
  restore_placeholders text phs = parens (commas (clean substituted)) /\
  clean (pre ++ token digits ++ post) = clean pre ++ clean post /\
  commas (COMMA :: ws ++ COMMA :: rest) = COMMA :: commas rest /\
  parens (COMMA :: ws ++ RPAREN :: rest) = RPAREN :: parens rest /\
  restore_placeholders (token digits) [] = [] /\
  translate_markdown_file (py "a ⟨7⟩ b") identity_translator = py "a  b" /\
  translate_markdown_file (py "a, , b") identity_translator = py "a, b" /\
  translate_markdown_file (py "f(x, )") identity_translator = py "f(x)".
Proof.
  intros Hne Hd Hk Hws substituted clean commas parens.
  split; [reflexivity|]. split.
  { unfold clean. rewrite clean_token by assumption. now rewrite Hk. }
  split; [apply sub_comma_then; [apply space_not_comma|assumption]|].
  split; [apply sub_comma_then; [apply space_not_rparen|assumption]|].
  split.
  { unfold restore_placeholders. cbn [sorted_longest_first fold_right fold_left map].
    pose proof (clean_token [] [] digits [] Hne Hd) as Hc.
    cbn [app existsb] in Hc. rewrite app_nil_r in Hc. rewrite Hc.
    rewrite (re_sub_nil false RE_PLACEHOLDER (clean_spurious [])
               never_empty_placeholder).
    cbn [app].
    rewrite (re_sub_nil false RE_COMMA_COMMA (fun _ => [COMMA])
               (never_empty_One _ _ _)).
    apply re_sub_nil, never_empty_One. }
  repeat split; vm_compute; reflexivity.
Qed.

Lemma C10_restore_cleans_witness :
  re_sub false RE_PLACEHOLDER (clean_spurious []) (py "a " ++ token (py "7") ++ py " b")
  = re_sub false RE_PLACEHOLDER (clean_spurious []) (py "a ")
    ++ re_sub false RE_PLACEHOLDER (clean_spurious []) (py " b").
Proof.
  refine (proj1 (proj2 (C10_restore_cleans_unknown_tokens_and_commas
            (py "x") [] (py "a ") (py "7") (py " b") (py " ") (py "c") _ _ _ _))).
  - discriminate.
  - reflexivity.
  - reflexivity.
  - reflexivity.
Defined.

(* ================================================================== *)
(** * Evaluations at the inputs where the code departs from its intent *)
(* ================================================================== *)

(** C3. The three lines of [power_block] are classified Code and nothing
    is handed to the backend, yet the emphasis post-pass, which runs over
    every line of the result, rewrites the line inside the fence: the output
    has two spaces on each side of the bold span where the input had the
    operator between single spaces. *)
Theorem C3_code_line_rewritten_by_post_pass (translator : list str -> list str) :
  line_types (split NL power_block) = [Code; Code; Code] /\
  texts_to_translate (extract_segments (split NL power_block)) = [] /\
  nth 1 (split NL power_block) [] = py "a ** b ** c" /\
  output_lines power_block translator = split NL power_block /\
  nth 1 (split NL (translate_markdown_file power_block translator)) []
  = py "a  **b**  c".
Proof. repeat split; vm_compute; reflexivity. Qed.

(** C5. The anchor of the heading of the specification's example loses
    its accented letter: the class of the deletion step keeps a to z, 0 to
    9, white space and the hyphen only, so the anchor is not the one with
    the accented letter that the heading has on the rendering platform named
    in the docstring. *)
Theorem C5_anchor_drops_accented_letter :
  text_to_anchor (py "¿Qué es?") = py "qu-es" /\
  text_to_anchor (py "¿Qué es?") <> py "qué-es" /\
  text_to_anchor (py "What is it?") = py "what-is-it".
Proof.
  split; [vm_compute; reflexivity|]. split; [|vm_compute; reflexivity].
  vm_compute. discriminate.
Qed.

(** C9. With the backend that returns its inputs unchanged, the span of
    [link_in_code] comes back with the two link tokens unrestored, and the
    validation of the output against the source reports a link count
    mismatch and two unrestored placeholders. *)
Theorem C9_identity_translation_fails_validation :
  translate_markdown_file link_in_code identity_translator
  = py "Use `⟨0⟩a⟨1⟩` here" /\
  translated_document link_in_code identity_translator
  = py "Use `⟨0⟩a⟨1⟩` here" /\
  validate_translation link_in_code
    (translated_document link_in_code identity_translator)
  = [LinkCountMismatch 1 0; UnrestoredPlaceholders 2].
Proof. repeat split; vm_compute; reflexivity. Qed.

(* ================================================================== *)
(** * Table rows *)
(* ================================================================== *)

Lemma split_app_sep_any (sep : char) (a b : str) :
  split sep (a ++ sep :: b) = split sep a ++ split sep b.
Proof.
  induction a as [|c a IH]; simpl.
  - now rewrite N.eqb_refl.
  - destruct (c =? sep)%N; [now rewrite IH|].
    rewrite IH. pose proof (split_not_nil sep a) as Hn.
    destruct (split sep a); [congruence|reflexivity].
Qed.

Lemma join_snoc (sep : str) (ws : list str) (w : str) :
  ws <> [] -> join sep (ws ++ [w]) = join sep ws ++ sep ++ w.
Proof.
  induction ws as [|x ws IH]; intros Hn; [congruence|].
  destruct ws as [|y ws].
  - reflexivity.
  - change ((x :: y :: ws) ++ [w]) with (x :: (y :: ws) ++ [w]).
    rewrite join_cons by (destruct ws; discriminate).
    rewrite IH by discriminate.
    rewrite (join_cons sep x (y :: ws)) by discriminate.
    now rewrite <- !app_assoc.
Qed.

Lemma lstrip_by_all (p : char -> bool) (w : str) :
  forallb p w = true -> lstrip_by p w = [].
Proof.
  intros H. rewrite <- (app_nil_r w). now rewrite lstrip_by_app.
Qed.

Lemma strip_all_space (w : str) : forallb is_space w = true -> strip w = [].
Proof.
  intros H. unfold strip. now rewrite lstrip_by_all.
Qed.

Lemma all_space_no_pipe (w : str) : forallb is_space w = true -> ~ In PIPE w.
Proof.
  intros H Hin. rewrite forallb_forall in H. apply H in Hin.
  vm_compute in Hin. discriminate.
Qed.

(** What [strip] removes. *)
Lemma strip_split (s : str) :
  exists w1 w2, s = w1 ++ strip s ++ w2 /\
    forallb is_space w1 = true /\ forallb is_space w2 = true.
Proof.
  destruct (lstrip_by_split is_space s) as [w1 [E1 [H1 _]]].
  destruct (rstrip_by_split is_space (lstrip_by is_space s)) as [w2 [E2 [H2 _]]].
  exists w1, w2. unfold strip. rewrite <- E2. auto.
Qed.

Lemma endswith_one (c : char) (s : str) :
  endswith [c] s = true -> exists t, s = t ++ [c].
Proof.
  unfold endswith. intros H. apply startswith_spec in H as [t Ht].
  exists (rev t). apply (f_equal (@rev char)) in Ht.
  rewrite rev_involutive in Ht. rewrite Ht. reflexivity.
Qed.

(** The first and the last cell of a table row are empty. *)
Lemma stripped_cells_shape (text : str) :
  is_table_row text = true ->
  exists mid, stripped_cells text = [] :: mid ++ [[]].
Proof.
  unfold is_table_row. intros H. apply andb_true_iff in H as [Hs He].
  apply startswith_spec in Hs as [t Ht]. simpl in Ht.
  destruct (strip_split text) as [w1 [w2 [E [H1 H2]]]].
  rewrite Ht in He. apply endswith_one in He as [t' Et'].
  unfold stripped_cells. rewrite E, Ht. simpl app.
  rewrite split_app_sep by now apply all_space_no_pipe.
  simpl map. rewrite (strip_all_space _ H1).
  destruct t' as [|c t'].
  - injection Et' as ->. simpl app.
    rewrite (split_no_sep PIPE w2) by now apply all_space_no_pipe.
    exists []. simpl. now rewrite (strip_all_space _ H2).
  - injection Et' as _ ->. rewrite <- app_assoc. simpl app.
    rewrite split_app_sep_any.
    rewrite (split_no_sep PIPE w2) by now apply all_space_no_pipe.
    rewrite map_app. simpl map. rewrite (strip_all_space _ H2).
    now exists (map strip (split PIPE t')).
Qed.

Lemma sub_from_nonempty {St : Type} (ml : bool) (r : regex)
    (f : list str -> St -> str * St) (prev : option char) (s : str) (st : St) :
  never_empty ml r -> (forall ws st', fst (f ws st') <> []) ->
  s <> [] -> fst (sub_from ml r f prev s st) <> [].
Proof.
  intros Hn Hf Hs. destruct s as [|c s]; [congruence|].
  destruct (exec ml r prev (c :: s)) as [ws|] eqn:E.
  - rewrite (sub_from_match ml r f prev (c :: s) st ws E (Hn _ _ _ E)).
    cbv zeta. cbn [fst]. intros H. apply app_eq_nil in H as [H _].
    now apply (Hf ws st).
  - rewrite (sub_from_skip ml r f prev c s st E). discriminate.
Qed.

(** Protection never empties a text. *)
Lemma protect_nonempty (text : str) :
  text <> [] -> fst (protect_inline_elements text) <> [].
Proof.
  intros H. unfold protect_inline_elements.
  destruct (re_sub_st false RE_BOLD_LINK replace_bold_link text _)
    as [p1 st1] eqn:E1.
  destruct (re_sub_st false RE_LINK_FULL replace_link p1 st1)
    as [p2 st2] eqn:E2.
  destruct (re_sub_st false RE_INLINE_CODE replace_inline_code p2 st2)
    as [p3 st3] eqn:E3.
  destruct (re_sub_st false RE_BOLD_TEXT replace_bold p3 st3)
    as [p4 st4] eqn:E4.
  rewrite re_sub_st_from in E1, E2, E3, E4. cbn [fst].
  assert (Hph : forall n rest, make_placeholder n ++ rest <> [])
    by (intros; discriminate).
  assert (H1 : p1 <> []).
  { pose proof (sub_from_nonempty false RE_BOLD_LINK replace_bold_link None text
                  (mk_ph_state 0 []) (never_empty_One _ _ _)) as Hs.
    rewrite E1 in Hs. apply Hs; [|assumption].
    intros ws st'. unfold replace_bold_link, next_ph. cbn [fst].
    rewrite <- (app_nil_r (make_placeholder _)). apply Hph. }
  assert (H2 : p2 <> []).
  { pose proof (sub_from_nonempty false RE_LINK_FULL replace_link None p1 st1
                  (never_empty_One _ _ _)) as Hs.
    rewrite E2 in Hs. apply Hs; [|assumption].
    intros ws st'. unfold replace_link, next_ph. cbn [fst]. apply Hph. }
  assert (H3 : p3 <> []).
  { pose proof (sub_from_nonempty false RE_INLINE_CODE replace_inline_code None
                  p2 st2 (never_empty_One _ _ _)) as Hs.
    rewrite E3 in Hs. apply Hs; [|assumption].
    intros ws st'. unfold replace_inline_code, next_ph. cbn [fst].
    rewrite <- (app_nil_r (make_placeholder _)). apply Hph. }
  pose proof (sub_from_nonempty false RE_BOLD_TEXT replace_bold None p3 st3
                (never_empty_One _ _ _)) as Hs.
  rewrite E4 in Hs. apply Hs; [|assumption].
  intros ws st'. unfold replace_bold, next_ph. cbn [fst]. apply Hph.
Qed.

Lemma make_cell_empty (stripped_cell : str) :
  is_empty (cell_text (make_cell stripped_cell)) = is_empty stripped_cell.
Proof.
  unfold make_cell. destruct (is_empty stripped_cell) eqn:E; [reflexivity|].
  apply is_empty_false in E. apply protect_nonempty in E.
  destruct (protect_inline_elements stripped_cell) as [p phs]. cbn [fst] in E.
  cbn [cell_text]. now apply is_empty_false.
Qed.

Lemma rebuild_row_pipes (cells : list cell) :
  startswith [PIPE] (rebuild_row cells) = true /\
  endswith [PIPE] (rebuild_row cells) = true.
Proof.
  unfold rebuild_row.
  set (line := join [PIPE] (map rebuild_cell cells)).
  set (line1 := if startswith [PIPE] line then line else [PIPE] ++ line).
  assert (H1 : startswith [PIPE] line1 = true).
  { unfold line1. destruct (startswith [PIPE] line) eqn:E; [assumption|].
    apply startswith_app. }
  destruct (endswith [PIPE] line1) eqn:E; [auto|]. split.
  - apply startswith_spec in H1 as [t ->]. apply startswith_spec.
    exists (t ++ [PIPE]). now rewrite app_assoc.
  - unfold endswith. rewrite rev_app_distr. apply startswith_app.
Qed.

Lemma rebuild_cell_empty (c : cell) : cell_text c = [] -> rebuild_cell c = [].
Proof. unfold rebuild_cell. now intros ->. Qed.

(** For the cells of a table row the two checks of [rebuild_row] find their
    pipes in place. *)
Lemma rebuild_row_join (text : str) (cells : list cell) :
  is_table_row text = true ->
  map cell_text cells = map cell_text (map make_cell (stripped_cells text)) ->
  rebuild_row cells = join [PIPE] (map rebuild_cell cells).
Proof.
  intros Ht Hc. destruct (stripped_cells_shape text Ht) as [mid Hm].
  rewrite Hm in Hc. simpl map in Hc. rewrite !map_app in Hc. simpl map in Hc.
  destruct cells as [|c0 cells]; [discriminate|].
  simpl map in Hc. injection Hc as H0 Hc.
  destruct (@exists_last _ cells) as [cs [cl ->]].
  { intros ->. cbn [map] in Hc. symmetry in Hc.
    apply app_eq_nil in Hc as [_ Hc]. discriminate Hc. }
  rewrite map_app in Hc. simpl map in Hc. apply app_inj_tail in Hc as [_ Hl].
  unfold rebuild_row. simpl map. rewrite map_app. simpl map.
  rewrite (rebuild_cell_empty c0 H0), (rebuild_cell_empty cl Hl).
  rewrite join_cons by (destruct (map rebuild_cell cs); discriminate).
  cbn [app startswith]. rewrite N.eqb_refl. cbn [andb].
  destruct (map rebuild_cell cs) as [|x xs] eqn:Ex.
  - reflexivity.
  - rewrite join_snoc by discriminate.
    unfold endswith. rewrite app_nil_r.
    change (PIPE :: join [PIPE] (x :: xs) ++ [PIPE])
      with ((PIPE :: join [PIPE] (x :: xs)) ++ [PIPE]).
    rewrite rev_app_distr. cbn [rev app startswith]. rewrite N.eqb_refl.
    reflexivity.
Qed.

(** C6. A table row is rebuilt cell by cell: a cell that was empty before
    protection gives the empty string, any other cell a space, the restored
    text and a space; the cells are joined by single pipes, the two checks
    for an edge pipe change nothing, and the line starts and ends with a
    pipe.  The row with an empty middle cell comes out with one pipe between
    any two adjacent cells and with both edge pipes. *)
Theorem C6_table_row_rebuilt_between_pipes
    (text : str) (cells : list cell) (stripped_cell : str) (translated : option str) :
  is_table_row text = true ->
  map cell_text cells = map cell_text (map make_cell (stripped_cells text)) ->
  let made := make_cell stripped_cell in
  let restored :=
    restore_placeholders (get_translated translated (cell_text made))
      (cell_placeholders made) in
  rebuild_cell (mk_cell (cell_text made) (cell_placeholders made) translated)
  = (if is_empty stripped_cell then [] else [SP] ++ restored ++ [SP]) /\
  rebuild_row cells = join [PIPE] (map rebuild_cell cells) /\
  startswith [PIPE] (rebuild_row cells) = true /\
  endswith [PIPE] (rebuild_row cells) = true /\
  translate_markdown_file (py "| a |  | b |") identity_translator
  = py "| a || b |".
Proof.
  intros Ht Hc made restored. split.
  { unfold rebuild_cell. cbn [cell_text cell_placeholders cell_translated].
    unfold made. now rewrite make_cell_empty. }
  split; [now apply (rebuild_row_join text)|].
  split; [apply rebuild_row_pipes|]. split; [apply rebuild_row_pipes|].
  vm_compute. reflexivity.
Qed.

Lemma C6_table_row_witness :
  let cells := map make_cell (stripped_cells (py "| a |  | b |")) in
  rebuild_row cells = join [PIPE] (map rebuild_cell cells).
Proof.
  refine (proj1 (proj2 (C6_table_row_rebuilt_between_pipes
            (py "| a |  | b |") _ (py "a") None _ _))).
  - reflexivity.
  - reflexivity.
Defined.

(* ================================================================== *)
(** * Segments *)
(* ================================================================== *)

(** A matched prefix and what [text[len(prefix):]] leaves give the text
    back. *)
Lemma match_prefix_skipn (r : regex) (text : str) (ws : list str) :
  re_match r text = Some ws -> group 1 r ws = group0 ws ->
  group 1 r ws ++ skipn (length (group 1 r ws)) text = text.
Proof.
  unfold re_match. intros H Hg. apply exec_sound in H as [rest [Hs _]].
  rewrite Hg. unfold group0. subst text. now rewrite skipn_length_app.
Qed.

Ltac finish_group :=
  unfold group0; cbn [group collect concat app]; rewrite ?app_nil_r; reflexivity.

Lemma heading_group (text : str) (ws : list str) :
  re_match RE_HEADING text = Some ws -> group 1 RE_HEADING ws = group0 ws.
Proof.
  unfold re_match, RE_HEADING, Plus. intros H.
  apply exec_sound in H as [rest [_ H]].
  destruct ws as [|w0 [|w1 [|w2 [|w3 [|w4 [|? ?]]]]]]; cbn [matches] in H;
    try tauto.
  cbn [chunk_ok] in H. destruct H as ([-> _] & -> & _ & _ & -> & _).
  finish_group.
Qed.

Lemma blockquote_group (text : str) (ws : list str) :
  re_match RE_BLOCKQUOTE text = Some ws -> group 1 RE_BLOCKQUOTE ws = group0 ws.
Proof.
  unfold re_match, RE_BLOCKQUOTE, Star, Lit. intros H.
  apply exec_sound in H as [rest [_ H]].
  destruct ws as [|w0 [|w1 [|w2 [|w3 [|w4 [|w5 [|? ?]]]]]]]; cbn [matches] in H;
    try tauto.
  cbn [chunk_ok] in H. destruct H as ([-> _] & -> & _ & _ & _ & -> & _).
  finish_group.
Qed.

Lemma bullet_group (text : str) (ws : list str) :
  re_match RE_LIST_BULLET text = Some ws -> group 1 RE_LIST_BULLET ws = group0 ws.
Proof.
  unfold re_match, RE_LIST_BULLET, Star, Plus. intros H.
  apply exec_sound in H as [rest [_ H]].
  destruct ws as [|w0 [|w1 [|w2 [|w3 [|w4 [|w5 [|? ?]]]]]]]; cbn [matches] in H;
    try tauto.
  cbn [chunk_ok] in H. destruct H as ([-> _] & -> & _ & _ & _ & -> & _).
  finish_group.
Qed.

Lemma ordinal_group (text : str) (ws : list str) :
  re_match RE_LIST_ORDINAL text = Some ws ->
  group 1 RE_LIST_ORDINAL ws = group0 ws.
Proof.
  unfold re_match, RE_LIST_ORDINAL, Star, Plus, Lit. intros H.
  apply exec_sound in H as [rest [_ H]].
  destruct ws as [|w0 [|w1 [|w2 [|w3 [|w4 [|w5 [|w6 [|? ?]]]]]]]];
    cbn [matches] in H; try tauto.
  cbn [chunk_ok] in H. destruct H as ([-> _] & -> & _ & _ & _ & _ & -> & _).
  finish_group.
Qed.

Lemma list_marker_prefix (text g : str) :
  match_list_marker text = Some g -> g ++ skipn (length g) text = text.
Proof.
  unfold match_list_marker.
  destruct (re_match RE_LIST_BULLET text) as [ws|] eqn:E1.
  - intros H. injection H as <-.
    exact (match_prefix_skipn RE_LIST_BULLET text ws E1 (bullet_group text ws E1)).
  - destruct (re_match RE_LIST_ORDINAL text) as [ws|] eqn:E2; [|discriminate].
    intros H. injection H as <-.
    exact (match_prefix_skipn RE_LIST_ORDINAL text ws E2
             (ordinal_group text ws E2)).
Qed.

(** The prefixes and the remaining text make up the line. *)
Lemma strip_prefixes_app (line : str) :
  fst (strip_prefixes line) ++ snd (strip_prefixes line) = line.
Proof.
  unfold strip_prefixes.
  destruct (re_match RE_HEADING line) as [ws1|] eqn:E1.
  all: match goal with
       | |- context [re_match RE_BLOCKQUOTE ?t] =>
           destruct (re_match RE_BLOCKQUOTE t) as [ws2|] eqn:E2
       end.
  all: match goal with
       | |- context [match_list_marker ?t] =>
           destruct (match_list_marker t) as [g|] eqn:E3
       end.
  all: cbn [fst snd]; rewrite <- ?app_assoc.
  all: try rewrite (list_marker_prefix _ _ E3).
  all: try rewrite (match_prefix_skipn _ _ _ E2 (blockquote_group _ _ E2)).
  all: try rewrite (match_prefix_skipn _ _ _ E1 (heading_group _ _ E1)).
  all: reflexivity.
Qed.

Lemma C4_joined_cells_counterexample : ~ joined_cells_restore_line.
Proof.
  intros H. specialize (H (py "| a | b |") eq_refl).
  vm_compute in H. discriminate.
Qed.

(** C4, amended.  A text segment holds the prefixes of its line and the
    protection of the text that follows them, and prefix and text make up
    the line.  A table-row segment holds the prefixes and one cell for each
    piece that the pipes cut out of the remaining text, made from the piece
    trimmed of its surrounding white space; it is the untrimmed pieces that,
    joined by pipes after the prefix, make up the line. *)
Theorem C4_segment_rebuilds_line (i : nat) (line : str) :
  let prefix := fst (strip_prefixes line) in
  let text := snd (strip_prefixes line) in
  prefix ++ text = line /\
  match extract_segment i line Translatable with
  | Some (TextSeg j protected phs pre translated) =>
      j = i /\ pre = prefix /\ translated = None /\
      (protected, phs) = protect_inline_elements text /\
      pre ++ text = line
  | Some (TableRow j cells pre) =>
      j = i /\ pre = prefix /\
      cells = map make_cell (map strip (split PIPE text)) /\
      pre ++ join [PIPE] (split PIPE text) = line
  | None => True
  end.
Proof.
  intros prefix text. pose proof (strip_prefixes_app line) as H.
  fold prefix text in H. split; [assumption|].
  unfold extract_segment.
  destruct (strip_prefixes line) as [p t] eqn:E. cbn [fst snd] in *.
  subst prefix text.
  destruct (is_table_row t).
  - repeat split. now rewrite join_split.
  - destruct (is_empty (strip t)); [exact I|].
    destruct (protect_inline_elements t) as [protected phs]. now repeat split.
Qed.

(* ================================================================== *)
(** * The emphasis post-pass *)
(* ================================================================== *)

Lemma span_len_ge_app (p : char -> bool) (w rest : str) :
  forallb p w = true -> length w <= span_len p (w ++ rest).
Proof.
  induction w as [|c w IH]; simpl; intros H; [lia|].
  apply andb_true_iff in H as [Hc Hw]. rewrite Hc. specialize (IH Hw). lia.
Qed.

Lemma skipn_app_lt (j : nat) (w rest : str) :
  j < length w -> exists c t, skipn j (w ++ rest) = c :: t /\ In c w.
Proof.
  revert j; induction w as [|x w IH]; intros j Hj; simpl in Hj; [lia|].
  destruct j as [|j]; simpl.
  - exists x, (w ++ rest). auto.
  - destruct (IH j) as [c [t [E Hin]]]; [lia|]. exists c, t. auto.
Qed.

Lemma lstrip_by_length (p : char -> bool) (s : str) :
  length (lstrip_by p s) <= length s.
Proof.
  induction s as [|c s IH]; simpl; [lia|]. destruct (p c); simpl; lia.
Qed.

Lemma lstrip_by_fixed (p : char -> bool) (c : char) (s : str) :
  lstrip_by p (c :: s) = c :: s -> p c = false.
Proof.
  simpl. destruct (p c); [|reflexivity]. intros H.
  pose proof (lstrip_by_length p s) as Hl. rewrite H in Hl. simpl in Hl. lia.
Qed.

Lemma unanchored_bold_text : unanchored RE_BOLD_TEXT.
Proof. solve_unanchored. Qed.

Lemma never_empty_bold_text : never_empty false RE_BOLD_TEXT.
Proof. apply never_empty_One. Qed.

Lemma plain_not_star (w : str) (c : char) :
  forallb plain w = true -> In c w -> c <> STAR.
Proof.
  intros H Hin. rewrite forallb_forall in H. apply H in Hin.
  unfold plain in Hin. apply andb_true_iff in Hin as [_ Hin].
  intros ->. now rewrite N.eqb_refl in Hin.
Qed.

Lemma plain_dot (w : str) : forallb plain w = true -> forallb dot w = true.
Proof.
  rewrite !forallb_forall. intros H x Hx. apply H in Hx.
  unfold plain in Hx. now apply andb_true_iff in Hx as [Hx _].
Qed.

(** The pattern finds a span whose content has no asterisk whole. *)
Lemma exec_bold_text (prev : option char) (content post : str) :
  content <> [] -> forallb plain content = true ->
  exec false RE_BOLD_TEXT prev
    ([STAR; STAR] ++ content ++ [STAR; STAR] ++ post)
  = Some [[STAR]; [STAR]; []; content; []; [STAR]; [STAR]].
Proof.
  intros Hne Hp. unfold RE_BOLD_TEXT, PlusLazy. cbn [app].
  rewrite !exec_Lit_same, exec_Open.
  rewrite (exec_rep_lazy false dot 1 None _ _ _ (length content)
             [[]; [STAR]; [STAR]]).
  - now rewrite firstn_length_app.
  - unfold rep_max.
    pose proof (span_len_ge_app dot content (STAR :: STAR :: post)
                  (plain_dot _ Hp)).
    destruct content; [congruence|]. simpl in *. lia.
  - rewrite skipn_length_app, exec_Close, !exec_Lit_same. reflexivity.
  - intros j Hj. destruct (skipn_app_lt j content (STAR :: STAR :: post))
      as [c [t [E Hin]]]; [lia|].
    rewrite E, exec_Close.
    rewrite exec_Lit_other; [reflexivity|]. now apply (plain_not_star content).
Qed.

(** What [_fix_bold_span] returns for a content made of blanks, a core that
    neither starts nor ends with a blank, and blanks. *)
Lemma fix_bold_span_blanks (lead core trail : str) :
  forallb blank lead = true -> forallb blank trail = true ->
  core <> [] -> lstrip_by blank core = core -> rstrip_by blank core = core ->
  fix_bold_span [[STAR]; [STAR]; []; lead ++ core ++ trail; []; [STAR]; [STAR]]
  = firstn 1 lead ++ [STAR; STAR] ++ core ++ [STAR; STAR]
      ++ rev (firstn 1 (rev trail)).
Proof.
  intros Hl Ht Hne Hcl Hcr. unfold fix_bold_span.
  unfold RE_BOLD_TEXT at 1. cbn [group collect PlusLazy Lit].
  rewrite app_nil_r.
  destruct core as [|a core]; [congruence|].
  pose proof (lstrip_by_fixed blank a core Hcl) as Ha.
  set (k := a :: core) in *.
  assert (E1 : take_leading_blank (lead ++ k ++ trail)
               = (firstn 1 lead, k ++ trail)).
  { destruct lead as [|l lead].
    - unfold take_leading_blank, k. cbn [app firstn]. now rewrite Ha.
    - unfold take_leading_blank. cbn [app firstn]. cbn [forallb] in Hl. apply andb_true_iff in Hl as [Hl1 Hl2].
      rewrite Hl1. f_equal.
      change (l :: lead ++ k ++ trail) with ((l :: lead) ++ k ++ trail).
      rewrite lstrip_by_app by (cbn [forallb]; now rewrite Hl1).
      unfold k. cbn [app]. now apply lstrip_by_keeps. }
  rewrite E1.
  assert (Hrev : forallb blank (rev trail) = true).
  { rewrite forallb_forall in *. intros x Hx. apply Ht. now apply in_rev. }
  assert (Hz : exists z rk, rev k = z :: rk /\ blank z = false).
  { destruct (rev k) as [|z rk] eqn:Erk.
    - apply (f_equal (@rev char)) in Erk. rewrite rev_involutive in Erk.
      discriminate.
    - exists z, rk. split; [reflexivity|].
      unfold rstrip_by in Hcr. rewrite Erk in Hcr.
      apply (f_equal (@rev char)) in Hcr. rewrite rev_involutive, Erk in Hcr.
      now apply lstrip_by_fixed in Hcr. }
  destruct Hz as [z [rk [Erk Hzb]]].
  assert (E2 : take_trailing_blank (k ++ trail)
               = (rev (firstn 1 (rev trail)), k)).
  { unfold take_trailing_blank. rewrite rev_app_distr. destruct (rev trail) as [|t rt] eqn:Ert.
    - apply (f_equal (@rev char)) in Ert. rewrite rev_involutive in Ert.
      subst trail. cbn [rev app firstn]. rewrite Erk, Hzb, app_nil_r. reflexivity.
    - cbn [app firstn rev]. cbn [forallb] in Hrev.
      apply andb_true_iff in Hrev as [Ht1 Ht2]. rewrite Ht1. f_equal.
      unfold rstrip_by. rewrite rev_app_distr, Ert.
      rewrite lstrip_by_app by (cbn [forallb]; now rewrite Ht1).
      exact Hcr. }
  rewrite E2. unfold k. cbn [is_empty]. reflexivity.
Qed.

(** Each line of the result is rewritten on its own. *)
Lemma fix_bold_lines_join (lines : list str) :
  lines <> [] -> Forall (fun l => ~ In NL l) lines ->
  fix_bold_lines (join [NL] lines) = join [NL] (map fix_bold_line lines).
Proof.
  intros Hn Hf. unfold fix_bold_lines. now rewrite split_join.
Qed.

Lemma C7_two_blanks_counterexample : ~ blanks_moved_outside.
Proof.
  intros H.
  specialize (H (py "  ") (py "hello") [] eq_refl eq_refl).
  assert (py "hello" <> []) as Hne by discriminate.
  specialize (H Hne eq_refl eq_refl eq_refl).
  vm_compute in H. discriminate.
Qed.

Lemma blank_plain (w : str) : forallb blank w = true -> forallb plain w = true.
Proof.
  rewrite !forallb_forall. intros H x Hx. apply H in Hx.
  unfold blank in Hx. apply in_set_In in Hx.
  destruct Hx as [<-|[<-|[]]]; reflexivity.
Qed.

(** C7, amended.  On a line, a bold span whose content is blanks, a core
    without asterisk that neither starts nor ends with a blank, and blanks
    again, standing after a text without asterisk, is rewritten to the
    first of the leading blanks, the markers around the core alone, and the
    last of the trailing blanks: no blank stays inside the markers, one
    blank at most comes out on each side and the others are dropped.  The
    text after the span is rewritten on its own, and so is every line of the
    result, so no span is matched across a line boundary. *)
Theorem C7_bold_span_blanks_trimmed
    (pre lead core trail post : str) (lines : list str) :
  ~ In STAR pre ->
  forallb blank lead = true -> forallb blank trail = true ->
  core <> [] -> lstrip_by blank core = core -> rstrip_by blank core = core ->
  forallb plain core = true ->
  lines <> [] -> Forall (fun l => ~ In NL l) lines ->
  fix_bold_line
    (pre ++ [STAR; STAR] ++ (lead ++ core ++ trail) ++ [STAR; STAR] ++ post)
  = pre ++ (firstn 1 lead ++ [STAR; STAR] ++ core ++ [STAR; STAR]
              ++ rev (firstn 1 (rev trail)))
        ++ fix_bold_line post /\
  fix_bold_lines (join [NL] lines) = join [NL] (map fix_bold_line lines) /\
  fix_bold_line (py "** hello**") = py " **hello**".
Proof.
  intros Hpre Hl Ht Hne Hcl Hcr Hp Hn Hf.
  split; [|split; [now apply fix_bold_lines_join|vm_compute; reflexivity]].
  assert (Hc : forallb plain (lead ++ core ++ trail) = true).
  { rewrite !forallb_app, Hp, (blank_plain _ Hl), (blank_plain _ Ht). reflexivity. }
  assert (Hcne : lead ++ core ++ trail <> []).
  { intros E. apply app_eq_nil in E as [_ E]. apply app_eq_nil in E as [E _].
    contradiction. }
  unfold fix_bold_line.
  rewrite re_sub_app;
    [|apply unanchored_bold_text|apply never_empty_bold_text|].
  - rewrite (re_sub_no_match RE_BOLD_TEXT fix_bold_span pre
               never_empty_bold_text).
    + f_equal.
      assert (Hsk : skipn
                (length (group0 [[STAR]; [STAR]; []; lead ++ core ++ trail; [];
                                 [STAR]; [STAR]]))
                ([STAR; STAR] ++ (lead ++ core ++ trail) ++ [STAR; STAR] ++ post)
              = post).
      { replace ([STAR; STAR] ++ (lead ++ core ++ trail) ++ [STAR; STAR] ++ post)
          with (group0 [[STAR]; [STAR]; []; lead ++ core ++ trail; [];
                        [STAR]; [STAR]] ++ post).
        - apply skipn_length_app.
        - unfold group0. cbn [concat app]. now rewrite <- !app_assoc. }
      rewrite (re_sub_match RE_BOLD_TEXT fix_bold_span _ _
                 unanchored_bold_text never_empty_bold_text
                 (exec_bold_text None _ post Hcne Hc)).
      rewrite fix_bold_span_blanks by assumption. f_equal. f_equal. exact Hsk.
    + intros u c x' prev ->. unfold RE_BOLD_TEXT. apply exec_Lit_other.
      intros ->. apply Hpre. apply in_or_app. right. now left.
  - intros u c x' ->. unfold RE_BOLD_TEXT.
    assert (c <> STAR) as Hcs
      by (intros ->; apply Hpre; apply in_or_app; right; now left).
    now rewrite !exec_Lit_other.
Qed.

Lemma C7_bold_span_witness :
  fix_bold_line
    (py "a " ++ [STAR; STAR] ++ (py "  " ++ py "hello" ++ py " ")
       ++ [STAR; STAR] ++ py " b")
  = py "a " ++ (firstn 1 (py "  ") ++ [STAR; STAR] ++ py "hello" ++ [STAR; STAR]
                  ++ rev (firstn 1 (rev (py " "))))
       ++ fix_bold_line (py " b").
Proof.
  refine (proj1 (C7_bold_span_blanks_trimmed (py "a ") (py "  ") (py "hello")
                   (py " ") (py " b") [py "x"] _ _ _ _ _ _ _ _ _)).
  - vm_compute. intuition discriminate.
  - reflexivity.
  - reflexivity.
  - discriminate.
  - reflexivity.
  - reflexivity.
  - reflexivity.
  - discriminate.
  - repeat constructor. vm_compute. intuition discriminate.
Defined.

(* ================================================================== *)
(** * Line classification *)
(* ================================================================== *)

(** ** The reference definition, as the specification words it *)

(** ** The reference definition, amended *)

(** ** The table-separator pattern *)

Lemma strip_last_not_space (line : str) :
  match rev (strip line) with [] => True | c :: _ => is_space c = false end.
Proof.
  unfold strip.
  destruct (rstrip_by_split is_space (lstrip_by is_space line)) as [w [_ [_ H]]].
  exact H.
Qed.

Lemma table_sep_pipe : table_sep_char PIPE = true.
Proof. reflexivity. Qed.

Lemma exec_table_sep (mid : str) :
  mid <> [] -> forallb table_sep_char mid = true ->
  exec false RE_TABLE_SEP None (PIPE :: mid ++ [PIPE])
  = Some [[]; [PIPE]; mid; [PIPE]; []].
Proof.
  intros Hne Hm. unfold RE_TABLE_SEP, Plus. rewrite exec_Bol. cbn [at_bol].
  rewrite exec_Lit_same.
  assert (Hspan : span_len table_sep_char (mid ++ [PIPE]) = S (length mid)).
  { rewrite <- (app_nil_r (mid ++ [PIPE])), span_len_app.
    - rewrite length_app. simpl. lia.
    - rewrite forallb_app, Hm. reflexivity.
    - exact I. }
  rewrite (exec_rep_greedy false table_sep_char 1 None _ _ _ (length mid)
             [[PIPE]; []]).
  - now rewrite firstn_length_app.
  - unfold rep_max. rewrite Hspan. destruct mid; [congruence|]. simpl. lia.
  - rewrite skipn_length_app, exec_Lit_same, exec_Eol. reflexivity.
  - unfold rep_max. rewrite Hspan. intros j Hj.
    assert (j = length (mid ++ [PIPE])) as -> by (rewrite length_app; simpl; lia).
    rewrite skipn_all. reflexivity.
Qed.

Lemma table_sep_refines (line : str) :
  is_some (re_match RE_TABLE_SEP (strip line)) = ref_table_separator (strip line).
Proof.
  pose proof (strip_last_not_space line) as Hlast.
  set (t := strip line) in *. clearbody t.
  destruct (ref_table_separator t) eqn:Href.
  - unfold ref_table_separator in Href. destruct t as [|c rest]; [discriminate|].
    apply andb_true_iff in Href as [Hc Href]. apply N.eqb_eq in Hc. subst c.
    destruct (rev rest) as [|l rmid] eqn:Erev; [discriminate|].
    apply andb_true_iff in Href as [Href Hall].
    apply andb_true_iff in Href as [Hl Hne].
    apply N.eqb_eq in Hl. subst l. apply negb_true_iff in Hne.
    apply is_empty_false in Hne.
    apply (f_equal (@rev char)) in Erev. rewrite rev_involutive in Erev.
    simpl in Erev. subst rest. unfold re_match.
    rewrite exec_table_sep; [reflexivity| |].
    + intros E. apply Hne. apply (f_equal (@rev char)) in E.
      now rewrite rev_involutive in E.
    + rewrite forallb_forall in *. intros x Hx. apply Hall. now apply in_rev.
  - destruct (re_match RE_TABLE_SEP t) as [ws|] eqn:E; [exfalso|reflexivity].
    unfold re_match in E. apply exec_sound in E as [rest [Hs Hm]].
    unfold RE_TABLE_SEP, Plus, Lit in Hm.
    destruct ws as [|w0 [|w1 [|w2 [|w3 [|w4 [|? ?]]]]]]; cbn [matches] in Hm;
      try tauto.
    cbn [chunk_ok] in Hm.
    destruct Hm as ([-> _] & [c1 [-> H1]] & [H2 [H2' _]] & [c3 [-> H3]]
                    & [-> Heol] & _).
    apply N.eqb_eq in H1, H3. subst c1 c3.
    cbn [concat app prev_after rev] in *.
    assert (rest = []) as ->.
    { destruct rest as [|c [|? ?]]; [reflexivity| |]; cbn [at_eol] in Heol.
      - apply andb_true_iff in Heol as [Hc _]. apply N.eqb_eq in Hc. subst c.
        exfalso. subst t.
        change (PIPE :: (w2 ++ [PIPE]) ++ [NL])
          with ((PIPE :: w2 ++ [PIPE]) ++ [NL]) in Hlast.
        rewrite rev_app_distr in Hlast. cbn [rev app] in Hlast. discriminate.
      - apply andb_true_iff in Heol as [_ Hc]. discriminate. }
    subst t. rewrite app_nil_r in Href.
    unfold ref_table_separator in Href.
    rewrite N.eqb_refl, rev_app_distr in Href. cbn [rev app andb] in Href.
    rewrite N.eqb_refl in Href. cbn [andb] in Href.
    assert (forallb table_sep_char (rev w2) = true) as Hall.
    { rewrite forallb_forall in *. intros x Hx. apply H2. now apply in_rev. }
    rewrite Hall, andb_true_r in Href. apply negb_false_iff in Href.
    apply is_empty_true in Href. apply (f_equal (@rev char)) in Href.
    rewrite rev_involutive in Href. subst w2. simpl in H2'. lia.
Qed.

(** ** The diagram pattern *)

Lemma art_chars_not_space :
  forallb (fun c => negb (is_space c)) (box_chars ++ ART_REGEX_EXTRA) = true.
Proof. vm_compute. reflexivity. Qed.

Lemma space_not_art (c : char) : is_space c = true -> art_regex_char c = false.
Proof.
  intros H. destruct (art_regex_char c) eqn:E; [|reflexivity].
  unfold art_regex_char in E. apply in_set_In in E.
  pose proof art_chars_not_space as Hall. rewrite forallb_forall in Hall.
  apply Hall in E. rewrite H in E. discriminate.
Qed.

Lemma skipn_span_lstrip (p : char -> bool) (s : str) :
  skipn (span_len p s) s = lstrip_by p s.
Proof.
  induction s as [|c s IH]; simpl; [reflexivity|].
  destruct (p c); simpl; [assumption|reflexivity].
Qed.

Lemma ascii_art_refines (line : str) :
  is_some (re_match RE_ASCII_ART line) = glyph_run art_regex_char line.
Proof.
  unfold re_match, RE_ASCII_ART, Star, glyph_run.
  rewrite exec_Bol. cbn [at_bol].
  rewrite exec_rep_greedy_disjoint.
  - change (rep_max is_space None line) with (span_len is_space line).
    change (0 <=? span_len is_space line) with true. cbv iota.
    rewrite skipn_span_lstrip.
    set (s := lstrip_by is_space line).
    set (pv := prev_after None (firstn (span_len is_space line) line)).
    destruct (3 <=? span_len art_regex_char s) eqn:E.
    + apply Nat.leb_le in E.
      rewrite (exec_rep_greedy false art_regex_char 3 None [] pv s
                 (span_len art_regex_char s) []).
      * reflexivity.
      * unfold rep_max. lia.
      * apply exec_nil.
      * unfold rep_max. intros; lia.
    + apply Nat.leb_gt in E. rewrite exec_rep_None; [reflexivity|].
      unfold rep_max. intros; lia.
  - intros c t prev' Hc. apply exec_rep_None. unfold rep_max. cbn [span_len].
    rewrite (space_not_art c Hc). intros; lia.
Qed.

Lemma ascii_art_line_refines (line : str) :
  strip line <> [] -> is_ascii_art_line line = ref_ascii_art line.
Proof.
  intros Hne. unfold is_ascii_art_line, ref_ascii_art.
  apply is_empty_false in Hne. rewrite Hne.
  rewrite <- ascii_art_refines.
  destruct (re_match RE_ASCII_ART line); cbn [is_some orb]; [reflexivity|].
  unfold glyph_share.
  pose proof (filter_length_le art_count_char (strip line)) as Hk.
  set (n := length (strip line)) in *.
  set (k := length (filter art_count_char (strip line))) in *.
  destruct (Nat.ltb_spec 0 n), (Nat.ltb_spec (2 * n) (5 * k)),
    (Nat.ltb_spec (40 * n) (100 * k)); cbn [andb]; try reflexivity; lia.
Qed.

Lemma classify_refines (lines : list str) :
  forall inside, classify inside lines = classify_ref inside lines.
Proof.
  induction lines as [|line rest IH]; intros inside; [reflexivity|].
  cbn [classify classify_ref]. unfold is_fence.
  destruct (startswith FENCE (strip line)); [now rewrite IH|].
  destruct inside; [now rewrite IH|].
  destruct (is_empty (strip line)) eqn:Hemp; cbn [orb]; [now rewrite IH|].
  pose proof (table_sep_refines line) as Ht.
  destruct (re_match RE_TABLE_SEP (strip line)); cbn [is_some] in Ht;
    rewrite <- Ht; cbn [orb]; [now rewrite IH|].
  apply is_empty_false in Hemp.
  rewrite (ascii_art_line_refines line Hemp).
  destruct (ref_ascii_art line); now rewrite IH.
Qed.

Lemma classify_unterminated (lines : list str) :
  (forall l, In l lines -> is_fence (strip l) = false) ->
  classify true lines = map (fun _ => Code) lines.
Proof.
  induction lines as [|line rest IH]; intros H; [reflexivity|].
  cbn [classify map]. unfold is_fence in H.
  rewrite (H line) by now left. f_equal. apply IH. intros l Hl. apply H.
  now right.
Qed.

Lemma C8_spec_reference_counterexample :
  line_types [py "::"] <> classify_spec false [py "::"].
Proof. vm_compute. discriminate. Qed.

(** C8, amended.  The classification is the one of the reference
    definition in which a table separator is a trimmed line that starts with
    a pipe and ends with a pipe with one or more pipes, dashes, colons or
    white-space characters between them, and in which the two tests of a
    diagram line use two glyph sets: three or more glyphs of the pattern's
    set (box characters and the characters of "|+-\/><=*") after the
    left-trim, or more than 40% of the trimmed line among the box characters
    and the characters of "|+\/><=".  Inside a fence that no later line
    closes, every line is Code. *)
Theorem C8_classification_refines_amended_reference (lines : list str) :
  line_types lines = classify_ref false lines /\
  ((forall l, In l lines -> is_fence (strip l) = false) ->
   classify true lines = map (fun _ => Code) lines).
Proof.
  split; [apply classify_refines|apply classify_unterminated].
Qed.

Lemma C8_classification_witness :
  classify true [py "x = 1"; py "| - |"] = [Code; Code].
Proof.
  refine (proj2 (C8_classification_refines_amended_reference
                   [py "x = 1"; py "| - |"]) _).
  intros l [<-|[<-|[]]]; reflexivity.
Defined.

(* ================================================================== *)
(** * Mapping the translations back *)
(* ================================================================== *)

Lemma nth_error_app_len {A : Type} (l : list A) (x : A) (r : list A) :
  nth_error (l ++ x :: r) (length l) = Some x.
Proof. induction l; simpl; auto. Qed.

Lemma set_nth_app_len {A : Type} (l : list A) (x y : A) (r : list A) :
  set_nth (length l) y (l ++ x :: r) = l ++ y :: r.
Proof. induction l; simpl; [reflexivity|]. now rewrite IHl. Qed.

Lemma combine_nil_r {A B : Type} (l : list A) : combine l (@nil B) = [].
Proof. now destruct l. Qed.

Lemma distribute_cells_nil (cells : list cell) :
  distribute_cells cells [] = (cells, []).
Proof.
  induction cells as [|c cells IH]; simpl; [reflexivity|].
  destruct (is_empty (cell_text c)); [|reflexivity]. now rewrite IH.
Qed.

Lemma distribute_nil (segments : list segment) : distribute segments [] = segments.
Proof.
  induction segments as [|[i p phs pre tr|i cells pre] segs IH]; simpl;
    [reflexivity|reflexivity|].
  rewrite distribute_cells_nil. simpl. now rewrite IH.
Qed.

(** The loop over the cells of one row. *)
Lemma attach_cells (done : list segment) (i : nat) (pre : str)
    (todo : list segment) (rest_idx : list (nat * key)) :
  forall ctodo cdone outs,
    fold_left attach_pair
      (combine (map snd (cell_work (length done) (length cdone) ctodo) ++ rest_idx)
         outs)
      (done ++ TableRow i (cdone ++ ctodo) pre :: todo)
    = fold_left attach_pair
        (combine rest_idx (snd (distribute_cells ctodo outs)))
        (done ++ TableRow i (cdone ++ fst (distribute_cells ctodo outs)) pre :: todo).
Proof.
  induction ctodo as [|c ctodo IH]; intros cdone outs; [reflexivity|].
  cbn [cell_work distribute_cells].
  destruct (is_empty (cell_text c)) eqn:Hc.
  - cbn [fst snd].
    replace (cdone ++ c :: ctodo) with ((cdone ++ [c]) ++ ctodo)
      by (now rewrite <- app_assoc).
    replace (S (length cdone)) with (length (cdone ++ [c]))
      by (rewrite length_app; simpl; lia).
    rewrite IH. now rewrite <- !app_assoc.
  - destruct outs as [|o outs].
    + cbn [fst snd]. now rewrite !combine_nil_r.
    + cbn [map snd app combine fold_left fst].
      unfold attach_pair at 2. cbn [fst snd]. unfold attach.
      rewrite nth_error_app_len, nth_error_app_len.
      rewrite !set_nth_app_len.
      replace (cdone ++ set_cell_translated o c :: ctodo)
        with ((cdone ++ [set_cell_translated o c]) ++ ctodo)
        by (now rewrite <- app_assoc).
      replace (S (length cdone)) with (length (cdone ++ [set_cell_translated o c]))
        by (rewrite length_app; simpl; lia).
      rewrite IH. now rewrite <- !app_assoc.
Qed.

(** The loop of Phase 5 hands the results out in document order. *)
Lemma attach_all :
  forall todo done outs,
    fold_left attach_pair
      (combine (map snd (work_from (length done) todo)) outs) (done ++ todo)
    = done ++ distribute todo outs.
Proof.
  induction todo as [|[i p phs pre tr|i cells pre] todo IH]; intros done outs.
  - reflexivity.
  - cbn [work_from map snd distribute]. destruct outs as [|o outs]; [reflexivity|].
    cbn [combine fold_left]. unfold attach_pair at 2. cbn [fst snd]. unfold attach.
    rewrite nth_error_app_len, set_nth_app_len.
    replace (done ++ TextSeg i p phs pre (Some o) :: todo)
      with ((done ++ [TextSeg i p phs pre (Some o)]) ++ todo)
      by (now rewrite <- app_assoc).
    replace (S (length done)) with (length (done ++ [TextSeg i p phs pre (Some o)]))
      by (rewrite length_app; simpl; lia).
    rewrite IH. now rewrite <- app_assoc.
  - cbn [work_from distribute]. rewrite map_app.
    pose proof (attach_cells done i pre todo
                  (map snd (work_from (S (length done)) todo)) cells [] outs) as H.
    cbn [app length] in H. rewrite H.
    set (cs := fst (distribute_cells cells outs)).
    set (outs' := snd (distribute_cells cells outs)).
    replace (done ++ TableRow i cs pre :: todo)
      with ((done ++ [TableRow i cs pre]) ++ todo) by (now rewrite <- app_assoc).
    replace (S (length done)) with (length (done ++ [TableRow i cs pre]))
      by (rewrite length_app; simpl; lia).
    rewrite IH. now rewrite <- app_assoc.
Qed.

Lemma map_back_distribute (segments : list segment) (outs : list str) :
  map_back segments outs = distribute segments outs.
Proof.
  unfold map_back, text_indices.
  exact (attach_all segments [] outs).
Qed.

(** ** Missing and surplus results *)

Lemma cell_work_texts (seg_idx : nat) (cells : list cell) :
  forall cell_idx, map fst (cell_work seg_idx cell_idx cells) = cell_texts cells.
Proof.
  unfold cell_texts. induction cells as [|c cells IH]; intros cell_idx;
    [reflexivity|].
  cbn [cell_work map filter]. destruct (is_empty (cell_text c)); cbn [negb].
  - apply IH.
  - cbn [map fst]. now rewrite IH.
Qed.

Lemma work_from_texts (segments : list segment) :
  forall seg_idx, map fst (work_from seg_idx segments) = seg_texts segments.
Proof.
  induction segments as [|[i p phs pre tr|i cells pre] segs IH]; intros seg_idx.
  - reflexivity.
  - cbn [work_from map fst seg_texts]. now rewrite IH.
  - cbn [work_from seg_texts]. now rewrite map_app, cell_work_texts, IH.
Qed.

Lemma texts_to_translate_seg_texts (segments : list segment) :
  texts_to_translate segments = seg_texts segments.
Proof. apply work_from_texts. Qed.

Lemma rebuild_cell_eff (c : cell) : rebuild_cell (eff_cell c) = rebuild_cell c.
Proof. reflexivity. Qed.

Lemma reconstruct_segment_eff (lines : list str) (seg : segment) :
  reconstruct_segment lines (eff seg) = reconstruct_segment lines seg.
Proof.
  destruct seg as [i p phs pre tr|i cells pre]; cbn [eff reconstruct_segment];
    [reflexivity|].
  unfold rebuild_row. rewrite map_map.
  now rewrite (map_ext _ _ rebuild_cell_eff).
Qed.

Lemma reconstruct_eff (segments : list segment) :
  forall lines, reconstruct lines (map eff segments) = reconstruct lines segments.
Proof.
  unfold reconstruct. induction segments as [|seg segs IH]; intros lines;
    [reflexivity|].
  cbn [map fold_left]. now rewrite reconstruct_segment_eff, IH.
Qed.

Lemma eff_cell_own_text (c : cell) :
  fresh_cell c -> eff_cell (set_cell_translated (cell_text c) c) = eff_cell c.
Proof.
  unfold fresh_cell, eff_cell, set_cell_translated. cbn [cell_text cell_placeholders
    cell_translated]. now intros ->.
Qed.

(** Completing the results of a row with its own texts changes nothing
    that Phase 6 reads. *)
Lemma distribute_cells_pad (later : list str) (cells : list cell) :
  Forall fresh_cell cells ->
  forall outs,
    map eff_cell
      (fst (distribute_cells cells
              (outs ++ skipn (length outs) (cell_texts cells ++ later))))
    = map eff_cell (fst (distribute_cells cells outs)) /\
    snd (distribute_cells cells
           (outs ++ skipn (length outs) (cell_texts cells ++ later)))
    = snd (distribute_cells cells outs)
        ++ skipn (length (snd (distribute_cells cells outs))) later.
Proof.
  induction 1 as [|c cells Hc Hcells IH]; intros outs.
  - cbn [distribute_cells cell_texts map filter app fst snd]. auto.
  - unfold cell_texts. cbn [distribute_cells map filter].
    destruct (is_empty (cell_text c)) eqn:He; cbn [negb fst snd].
    + fold (cell_texts cells). destruct (IH outs) as [H1 H2].
      cbn [map]. now rewrite H1, H2.
    + fold (cell_texts cells). destruct outs as [|o outs].
      * cbn [app length skipn fst snd map].
        destruct (IH []) as [H1 H2]. cbn [app length skipn] in H1, H2.
        rewrite distribute_cells_nil in H1, H2. cbn [fst snd app length skipn] in *.
        rewrite H1, H2, (eff_cell_own_text c Hc). auto.
      * cbn [app length skipn fst snd map].
        destruct (IH outs) as [H1 H2]. now rewrite H1, H2.
Qed.

(** The same for a document. *)
Lemma distribute_pad (segments : list segment) :
  Forall fresh segments ->
  forall outs,
    map eff (distribute segments (outs ++ skipn (length outs) (seg_texts segments)))
    = map eff (distribute segments outs).
Proof.
  induction 1 as [|seg segs Hseg Hsegs IH]; intros outs; [reflexivity|].
  destruct seg as [i p phs pre tr|i cells pre]; cbn [fresh] in Hseg.
  - subst tr. cbn [seg_texts distribute]. destruct outs as [|o outs].
    + cbn [app length skipn map eff get_translated]. f_equal.
      specialize (IH []). cbn [app length skipn] in IH.
      now rewrite distribute_nil in IH.
    + cbn [app length skipn map eff]. f_equal. apply IH.
  - cbn [seg_texts distribute map eff].
    destruct (distribute_cells_pad (seg_texts segs) cells Hseg outs) as [H1 H2].
    rewrite H1, H2. f_equal. apply IH.
Qed.

Lemma combine_firstn_length {A B : Type} (l : list A) (l' : list B) :
  combine l (firstn (length l) l') = combine l l'.
Proof.
  revert l'; induction l as [|x l IH]; intros [|y l']; simpl; try reflexivity.
  now rewrite IH.
Qed.

(** Results beyond the work list are not read. *)
Lemma map_back_surplus (segments : list segment) (outs : list str) :
  map_back segments (firstn (length (texts_to_translate segments)) outs)
  = map_back segments outs.
Proof.
  unfold map_back, texts_to_translate, text_indices.
  rewrite length_map, <- (length_map snd). now rewrite combine_firstn_length.
Qed.

Lemma make_cell_fresh (stripped_cell : str) : fresh_cell (make_cell stripped_cell).
Proof.
  unfold make_cell, fresh_cell. destruct (is_empty stripped_cell); [reflexivity|].
  now destruct (protect_inline_elements stripped_cell).
Qed.

Lemma extract_from_fresh (lines : list str) :
  forall i types, Forall fresh (extract_from i lines types).
Proof.
  induction lines as [|line lines IH]; intros i [|t types]; cbn [extract_from];
    try constructor.
  destruct (extract_segment i line t) as [seg|] eqn:E; [|apply IH].
  constructor; [|apply IH].
  unfold extract_segment in E. destruct t; try discriminate.
  destruct (strip_prefixes line) as [pre text].
  destruct (is_table_row text).
  - injection E as <-. cbn [fresh]. apply Forall_map.
    apply Forall_forall. intros x _. apply make_cell_fresh.
  - destruct (is_empty (strip text)); [discriminate|].
    destruct (protect_inline_elements text). injection E as <-. reflexivity.
Qed.

Lemma reconstruct_pad (lines : list str) (segments : list segment)
    (outs : list str) :
  Forall fresh segments ->
  reconstruct lines (map_back segments (pad (texts_to_translate segments) outs))
  = reconstruct lines (map_back segments outs).
Proof.
  intros Hf. rewrite <- (map_back_surplus segments outs).
  set (texts := texts_to_translate segments).
  set (outs1 := firstn (length texts) outs).
  assert (Hpad : pad texts outs = outs1 ++ skipn (length outs1) texts).
  { unfold pad. fold outs1. f_equal. unfold outs1. rewrite length_firstn.
    destruct (Nat.le_gt_cases (length outs) (length texts)).
    - now rewrite Nat.min_r by assumption.
    - rewrite Nat.min_l by lia. rewrite !skipn_all2 by lia. reflexivity. }
  rewrite Hpad, !map_back_distribute.
  rewrite <- (reconstruct_eff (distribute segments outs1)).
  rewrite <- (reconstruct_eff (distribute segments _)).
  unfold texts. rewrite texts_to_translate_seg_texts.
  now rewrite distribute_pad.
Qed.

Lemma C2_short_result_list_counterexample : ~ mismatched_results_never_mapped.
Proof.
  intros H.
  specialize (H (join [NL] [py "uno"; py "dos"]) (fun _ => [py "X"])).
  vm_compute in H.
  assert (1 <> 2) as Hne by discriminate. specialize (H Hne). discriminate.
Qed.

(** C2, amended.  Nothing checks the length of the result list, and the
    document is never abandoned.  The results are handed out by position:
    the first result goes to the first work item and so on.  Results beyond
    the work list are not read, and a work item beyond the result list keeps
    its own protected text, as if the backend had returned it unchanged: the
    output is the one of the backend whose result list is cut or completed to
    the length of the work list. *)
Theorem C2_results_mapped_by_position_without_length_check
    (content : str) (translator : list str -> list str) :
  let lines := split NL content in
  let segments := extract_segments lines in
  let results := call_translator translator (texts_to_translate segments) in
  output_lines content translator = reconstruct lines (distribute segments results) /\
  translate_markdown_file content translator
  = translate_markdown_file content (fun texts => pad texts (translator texts)) /\
  translate_markdown_file (join [NL] [py "uno"; py "dos"]) (fun _ => [py "X"])
  = join [NL] [py "X"; py "dos"].
Proof.
  intros lines segments results. split; [|split].
  - unfold output_lines. fold lines segments results.
    now rewrite map_back_distribute.
  - unfold translate_markdown_file, output_lines. fold lines segments.
    f_equal. f_equal. unfold call_translator.
    destruct (texts_to_translate segments) as [|t texts] eqn:E; [reflexivity|].
    rewrite <- E. symmetry. apply reconstruct_pad. apply extract_from_fresh.
  - vm_compute. reflexivity.
Qed.

(* ================================================================== *)
(** * Substitution of the placeholders *)
(* ================================================================== *)

(** ** [str.replace] *)

Lemma replace_go_fuel (old new : str) :
  old <> [] ->
  forall fuel1 fuel2 s, length s <= fuel1 -> length s <= fuel2 ->
    replace_go fuel1 old new s = replace_go fuel2 old new s.
Proof.
  intros Hold. induction fuel1 as [|fuel1 IH]; intros fuel2 s H1 H2.
  - destruct s; [|simpl in H1; lia].
    destruct fuel2; cbn [replace_go]; [reflexivity|].
    destruct old; [congruence|reflexivity].
  - destruct fuel2 as [|fuel2].
    + destruct s; [|simpl in H2; lia]. cbn [replace_go].
      destruct old; [congruence|reflexivity].
    + cbn [replace_go]. destruct (startswith old s) eqn:E.
      * f_equal. apply IH; rewrite length_skipn;
          destruct old; try congruence; destruct s; try discriminate;
          simpl in *; lia.
      * destruct s as [|c s]; [reflexivity|]. f_equal.
        apply IH; simpl in *; lia.
Qed.

Lemma replace_nil (old new : str) : old <> [] -> replace old new [] = [].
Proof. destruct old; [congruence|reflexivity]. Qed.

Lemma replace_miss (old new : str) (c : char) (s : str) :
  old <> [] -> startswith old (c :: s) = false ->
  replace old new (c :: s) = c :: replace old new s.
Proof.
  intros Hold H. unfold replace. destruct old as [|o old]; [congruence|].
  cbn [length replace_go]. now rewrite H.
Qed.

Lemma replace_hit (old new s : str) :
  old <> [] -> startswith old s = true ->
  replace old new s = new ++ replace old new (skipn (length old) s).
Proof.
  intros Hold H. unfold replace. destruct old as [|o old]; [congruence|].
  destruct s as [|c s]; [discriminate|].
  cbn [length replace_go]. rewrite H. f_equal.
  apply replace_go_fuel; [discriminate| |];
    rewrite length_skipn; simpl; lia.
Qed.

(** A text without the first character of [old] is copied. *)
Lemma replace_skip_prefix (o : char) (old new u w : str) :
  ~ In o u ->
  replace (o :: old) new (u ++ w) = u ++ replace (o :: old) new w.
Proof.
  induction u as [|c u IH]; intros H; [reflexivity|].
  cbn [app]. rewrite replace_miss.
  - rewrite IH; [reflexivity|]. intros Hin. apply H. now right.
  - discriminate.
  - cbn [startswith]. destruct (N.eqb_spec o c); [|reflexivity].
    subst. exfalso. apply H. now left.
Qed.

(** ** Tokens *)

Lemma uint_chars_digits (d : Decimal.uint) :
  forallb ascii_digit (uint_chars d) = true.
Proof. induction d; simpl; auto. Qed.

Lemma uint_chars_inj (d d' : Decimal.uint) :
  uint_chars d = uint_chars d' -> d = d'.
Proof.
  revert d'; induction d; intros d' H; destruct d'; simpl in H;
    try discriminate H; try reflexivity; injection H as H; f_equal; auto.
Qed.

Lemma str_of_nat_inj (n m : nat) : str_of_nat n = str_of_nat m -> n = m.
Proof.
  unfold str_of_nat. intros H. apply uint_chars_inj in H.
  rewrite <- (DecimalNat.Unsigned.of_to n), <- (DecimalNat.Unsigned.of_to m).
  now rewrite H.
Qed.

Lemma str_of_nat_digits (n : nat) : forallb ascii_digit (str_of_nat n) = true.
Proof. apply uint_chars_digits. Qed.

Lemma ascii_digit_not_prefix (c : char) : ascii_digit c = true -> c <> PH_PREFIX.
Proof. intros H ->. discriminate. Qed.

Lemma ascii_digit_not_suffix (c : char) : ascii_digit c = true -> c <> PH_SUFFIX.
Proof. intros H ->. discriminate. Qed.

Lemma digits_no (x : char) (w : str) :
  forallb ascii_digit w = true -> ascii_digit x = false -> ~ In x w.
Proof.
  intros Hw Hx Hin. rewrite forallb_forall in Hw. apply Hw in Hin. congruence.
Qed.

Lemma make_placeholder_token (n : nat) :
  make_placeholder n = PH_PREFIX :: str_of_nat n ++ [PH_SUFFIX].
Proof. reflexivity. Qed.

(** Two texts cut at the first occurrence of a character. *)
Lemma app_sep_unique {A : Type} (x : A) (a b c d : list A) :
  ~ In x a -> ~ In x c -> a ++ x :: b = c ++ x :: d -> a = c /\ b = d.
Proof.
  revert c; induction a as [|y a IH]; intros [|z c] Ha Hc H; simpl in *.
  - injection H as ->. auto.
  - injection H as <- _. tauto.
  - injection H as -> _. tauto.
  - injection H as -> H. destruct (IH c) as [-> ->]; auto.
Qed.

Lemma make_placeholder_inj_app (j k : nat) (w t : str) :
  make_placeholder j ++ w = make_placeholder k ++ t -> j = k.
Proof.
  rewrite !make_placeholder_token. cbn [app]. rewrite <- !app_assoc. cbn [app].
  intros H. injection H as H.
  apply app_sep_unique in H as [H _].
  - now apply str_of_nat_inj.
  - apply digits_no; [apply str_of_nat_digits|reflexivity].
  - apply digits_no; [apply str_of_nat_digits|reflexivity].
Qed.

Lemma make_placeholder_inj (j k : nat) :
  make_placeholder j = make_placeholder k -> j = k.
Proof.
  intros H. apply (make_placeholder_inj_app j k [] []). now rewrite !app_nil_r.
Qed.

Lemma make_placeholder_tail (n : nat) :
  ~ In PH_PREFIX (str_of_nat n ++ [PH_SUFFIX]).
Proof.
  intros H. apply in_app_or in H as [H|[H|[]]]; [|discriminate H].
  revert H. apply digits_no; [apply str_of_nat_digits|reflexivity].
Qed.

(** ** Pieces: a protected text as characters and tokens *)

Lemma render_app (a b : list piece) : render (a ++ b) = render a ++ render b.
Proof. apply flat_map_app. Qed.

Lemma expand_with_app (d : dict) (a b : list piece) :
  expand_with d (a ++ b) = expand_with d a ++ expand_with d b.
Proof. apply flat_map_app. Qed.

Lemma lookup_app_Some (k v : str) (d d' : dict) :
  lookup k d = Some v -> lookup k (d ++ d') = Some v.
Proof.
  induction d as [|[k' v'] d IH]; simpl; [discriminate|].
  destruct (str_eqb k k'); auto.
Qed.

Lemma lookup_app_None (k : str) (d d' : dict) :
  lookup k d = None -> lookup k (d ++ d') = lookup k d'.
Proof.
  induction d as [|[k' v'] d IH]; simpl; [reflexivity|].
  destruct (str_eqb k k'); [discriminate|auto].
Qed.

Lemma lookup_In (k v : str) (d : dict) : lookup k d = Some v -> In (k, v) d.
Proof.
  induction d as [|[k' v'] d IH]; simpl; [discriminate|].
  destruct (str_eqb k k') eqn:E.
  - apply str_eqb_eq in E. subst. intros H. injection H as ->. now left.
  - auto.
Qed.

Lemma lookup_None_keys (k : str) (d : dict) :
  lookup k d = None <-> ~ In k (map fst d).
Proof.
  induction d as [|[k' v'] d IH]; simpl; [tauto|].
  destruct (str_eqb k k') eqn:E.
  - apply str_eqb_eq in E. subst. split; [discriminate|tauto].
  - apply str_eqb_neq in E. rewrite IH. split; [|tauto].
    intros H [H1|H1]; [congruence|tauto].
Qed.

Lemma In_lookup (k v : str) (d : dict) :
  NoDup (map fst d) -> In (k, v) d -> lookup k d = Some v.
Proof.
  induction d as [|[k' v'] d IH]; simpl; intros Hnd Hin; [contradiction|].
  inversion Hnd as [|? ? Hk Hd]; subst.
  destruct Hin as [Hin|Hin].
  - injection Hin as -> ->. now rewrite str_eqb_refl.
  - destruct (str_eqb k k') eqn:E; [|auto].
    apply str_eqb_eq in E. subst. exfalso. apply Hk.
    apply (in_map fst) in Hin. exact Hin.
Qed.

(** A text without the opening delimiter has no token. *)
Lemma expand_with_clean (d : dict) (ps : list piece) :
  ~ In PH_PREFIX (render ps) -> expand_with d ps = render ps.
Proof.
  induction ps as [|[c|j] ps IH]; intros H; [reflexivity| |].
  - cbn. f_equal. apply IH. intros Hin. apply H. now right.
  - exfalso. apply H. cbn. now left.
Qed.

(** ** One substitution *)

Lemma startswith_placeholder (j k : nat) (w : str) :
  startswith (make_placeholder k) (make_placeholder j ++ w) = true -> j = k.
Proof.
  intros H. apply startswith_spec in H as [t Ht].
  now apply (make_placeholder_inj_app j k w t).
Qed.

Lemma replace_placeholder_other (j k : nat) (v w : str) :
  j <> k ->
  replace (make_placeholder k) v (make_placeholder j ++ w)
  = make_placeholder j ++ replace (make_placeholder k) v w.
Proof.
  intros Hjk. rewrite (make_placeholder_token j). cbn [app].
  rewrite replace_miss.
  - f_equal. rewrite (make_placeholder_token k).
    apply replace_skip_prefix. apply make_placeholder_tail.
  - discriminate.
  - destruct (startswith (make_placeholder k)
                (PH_PREFIX :: (str_of_nat j ++ [PH_SUFFIX]) ++ w)) eqn:E;
      [|reflexivity].
    exfalso. apply Hjk. apply (startswith_placeholder j k w).
    now rewrite make_placeholder_token.
Qed.

Lemma replace_placeholder_same (k : nat) (v w : str) :
  replace (make_placeholder k) v (make_placeholder k ++ w)
  = v ++ replace (make_placeholder k) v w.
Proof.
  rewrite replace_hit.
  - now rewrite skipn_length_app.
  - discriminate.
  - apply startswith_app.
Qed.

(** Replacing one token after others: the substitution of the entries
    handled so far, with the new entry added. *)
Lemma replace_step (d : dict) (k : nat) (v : str) (ps : list piece) :
  clean_pieces ps -> values_clean d -> lookup (make_placeholder k) d = None ->
  replace (make_placeholder k) v (expand_with d ps)
  = expand_with (d ++ [(make_placeholder k, v)]) ps.
Proof.
  intros Hps Hd Hk. induction ps as [|[c|j] ps IH].
  - apply replace_nil. discriminate.
  - cbn [expand_with flat_map expand_piece app].
    rewrite replace_miss.
    + f_equal. apply IH. intros c' Hc'. apply Hps. now right.
    + discriminate.
    + rewrite make_placeholder_token. cbn [startswith].
      destruct (N.eqb_spec PH_PREFIX c); [|reflexivity].
      exfalso. apply (Hps c); [now left|congruence].
  - assert (IH' : replace (make_placeholder k) v (expand_with d ps)
                  = expand_with (d ++ [(make_placeholder k, v)]) ps).
    { apply IH. intros c' Hc'. apply Hps. now right. }
    cbn [expand_with flat_map expand_piece].
    fold (expand_with d ps). fold (expand_with (d ++ [(make_placeholder k, v)]) ps).
    destruct (lookup (make_placeholder j) d) as [w|] eqn:El.
    + rewrite (lookup_app_Some _ _ _ _ El).
      rewrite (make_placeholder_token k).
      rewrite replace_skip_prefix; [now rewrite <- make_placeholder_token, IH'|].
      apply (Hd (make_placeholder j)). now apply lookup_In.
    + rewrite (lookup_app_None _ _ _ El). cbn [lookup].
      destruct (Nat.eq_dec j k) as [->|Hjk].
      * rewrite str_eqb_refl, replace_placeholder_same. now rewrite IH'.
      * destruct (str_eqb (make_placeholder j) (make_placeholder k)) eqn:E.
        -- apply str_eqb_eq in E. apply make_placeholder_inj in E. contradiction.
        -- rewrite replace_placeholder_other by assumption. now rewrite IH'.
Qed.

(** ** All substitutions *)

Lemma insert_by_len_perm (x : str * str) (l : list (str * str)) :
  Permutation (insert_by_len x l) (x :: l).
Proof.
  induction l as [|y l IH]; simpl; [reflexivity|].
  destruct (length (fst y) <=? length (fst x)); [reflexivity|].
  rewrite IH. apply perm_swap.
Qed.

Lemma sorted_longest_first_perm (d : dict) : Permutation (sorted_longest_first d) d.
Proof.
  unfold sorted_longest_first. induction d as [|x d IH]; simpl; [reflexivity|].
  rewrite insert_by_len_perm. now constructor.
Qed.

Lemma expand_with_nil (ps : list piece) : expand_with [] ps = render ps.
Proof. reflexivity. Qed.

Lemma expand_with_ext (l m : dict) (ps : list piece) :
  (forall k, lookup k l = lookup k m) -> expand_with l ps = expand_with m ps.
Proof.
  intros H. unfold expand_with. apply flat_map_ext. intros [c|j]; [reflexivity|].
  cbn [expand_piece]. now rewrite H.
Qed.

Lemma lookup_perm (l m : dict) (k : str) :
  Permutation l m -> NoDup (map fst m) -> lookup k l = lookup k m.
Proof.
  intros Hp Hnd.
  assert (Hnd' : NoDup (map fst l)).
  { apply (Permutation_NoDup (l:=map fst m)); [|assumption].
    apply Permutation_map. now symmetry. }
  destruct (lookup k m) as [v|] eqn:E.
  - apply In_lookup; [assumption|]. apply lookup_In in E.
    apply (Permutation_in (l:=m)); [now symmetry|assumption].
  - apply lookup_None_keys. apply lookup_None_keys in E. intros Hin. apply E.
    apply (Permutation_in (l:=map fst l)); [|assumption].
    now apply Permutation_map.
Qed.

Lemma substitute_all (ps : list piece) :
  clean_pieces ps ->
  forall l d, token_keys l -> values_clean (d ++ l) -> NoDup (map fst (d ++ l)) ->
    fold_left (fun acc kv => replace (fst kv) (snd kv) acc) l (expand_with d ps)
    = expand_with (d ++ l) ps.
Proof.
  intros Hps. induction l as [|[k v] l IH]; intros d Hk Hv Hnd.
  - now rewrite app_nil_r.
  - cbn [fold_left fst snd].
    destruct (Hk k v (or_introl eq_refl)) as [j ->].
    rewrite replace_step.
    + replace (d ++ (make_placeholder j, v) :: l)
        with ((d ++ [(make_placeholder j, v)]) ++ l) in *
        by (now rewrite <- app_assoc).
      apply IH; [|assumption|assumption].
      intros k' v' Hin. apply (Hk k' v'). now right.
    + assumption.
    + intros k' v' Hin. apply (Hv k' v'). apply in_or_app. now left.
    + apply lookup_None_keys. rewrite map_app in Hnd. cbn [map fst] in Hnd.
      apply NoDup_remove_2 in Hnd. intros Hin. apply Hnd.
      apply in_or_app. now left.
Qed.

(** The loop of [restore_placeholders] replaces every token by its entry. *)
Lemma restore_substitution (m : dict) (ps : list piece) :
  clean_pieces ps -> token_keys m -> values_clean m -> NoDup (map fst m) ->
  fold_left (fun acc kv => replace (fst kv) (snd kv) acc)
    (sorted_longest_first m) (render ps)
  = expand_with m ps.
Proof.
  intros Hps Hk Hv Hnd.
  pose proof (sorted_longest_first_perm m) as Hp.
  rewrite <- expand_with_nil. rewrite substitute_all.
  - cbn [app]. apply expand_with_ext. intros k. now apply lookup_perm.
  - assumption.
  - intros k v Hin. apply (Hk k v). now apply (Permutation_in (l:=sorted_longest_first m)).
  - cbn [app]. intros k v Hin. apply (Hv k v).
    now apply (Permutation_in (l:=sorted_longest_first m)).
  - cbn [app]. apply (Permutation_NoDup (l:=map fst m)); [|assumption].
    apply Permutation_map. now symmetry.
Qed.

(* ================================================================== *)
(** * The passes of [protect_inline_elements] *)
(* ================================================================== *)

Lemma scannable_never_empty (r : regex) : scannable r -> never_empty false r.
Proof.
  intros [_ [_ Hl]] prev s ws H. destruct (Hl _ _ _ H) as [m [c [-> _]]].
  destruct m; discriminate.
Qed.

Lemma make_placeholder_tok_chars (j : nat) :
  forallb tok_char (make_placeholder j) = true.
Proof.
  rewrite make_placeholder_token. cbn [forallb]. rewrite forallb_app.
  cbn [forallb]. replace (tok_char PH_PREFIX) with true by reflexivity.
  replace (tok_char PH_SUFFIX) with true by reflexivity. cbn [andb].
  rewrite andb_true_r. pose proof (str_of_nat_digits j) as H.
  rewrite forallb_forall in *. intros x Hx. unfold tok_char.
  rewrite (H x Hx). now rewrite orb_true_r.
Qed.

(** Characters that cannot start a match are copied. *)
Lemma sub_from_copy {St : Type} (r : regex) (f : list str -> St -> str * St)
    (c0 : char) (x y : str) :
  unanchored r ->
  (forall prev c s, c <> c0 -> exec false r prev (c :: s) = None) ->
  (forall c, In c x -> c <> c0) ->
  forall prev st,
    sub_from false r f prev (x ++ y) st
    = (x ++ fst (sub_from false r f None y st), snd (sub_from false r f None y st)).
Proof.
  intros Hr Hf. induction x as [|c x IH]; intros Hx prev st.
  - cbn [app]. rewrite (sub_from_unanchored false r f prev None y st Hr).
    now destruct (sub_from false r f None y st).
  - cbn [app]. rewrite sub_from_skip by (apply Hf, Hx; now left).
    rewrite IH by (intros c' Hc'; apply Hx; now right). reflexivity.
Qed.

Lemma dict_ok_lookup (n : nat) (m : dict) (j : nat) :
  dict_ok n m -> j < n -> exists v, lookup (make_placeholder j) m = Some v.
Proof.
  intros Hm Hj. destruct (lookup (make_placeholder j) m) as [v|] eqn:E;
    [now exists v|].
  exfalso. apply lookup_None_keys in E. apply E. rewrite Hm.
  apply in_map. apply in_seq. lia.
Qed.

Lemma dict_ok_fresh (n : nat) (m : dict) :
  dict_ok n m -> ~ In (make_placeholder n) (map fst m).
Proof.
  intros Hm Hin. rewrite Hm in Hin. apply in_map_iff in Hin as [j [Hj Hin]].
  apply make_placeholder_inj in Hj. apply in_seq in Hin. lia.
Qed.

Lemma NoDup_map_inj {A B : Type} (g : A -> B) (l : list A) :
  (forall x y, g x = g y -> x = y) -> NoDup l -> NoDup (map g l).
Proof.
  intros Hg. induction 1 as [|x l Hx Hl IH]; cbn [map]; constructor;
    [|assumption].
  intros Hin. apply in_map_iff in Hin as [y [Hy Hin]].
  apply Hg in Hy. now subst.
Qed.

Lemma dict_ok_NoDup (n : nat) (m : dict) : dict_ok n m -> NoDup (map fst m).
Proof.
  intros Hm. rewrite Hm. apply NoDup_map_inj.
  - apply make_placeholder_inj.
  - apply seq_NoDup.
Qed.

Lemma dict_ok_token_keys (n : nat) (m : dict) : dict_ok n m -> token_keys m.
Proof.
  intros Hm k v Hin. apply (in_map fst) in Hin. rewrite Hm in Hin.
  apply in_map_iff in Hin as [j [Hj _]]. now exists j.
Qed.

Lemma expand_extend (n : nat) (m new : dict) (ps : list piece) :
  bounded n ps -> dict_ok n m -> expand_with (m ++ new) ps = expand_with m ps.
Proof.
  intros Hb Hm. unfold expand_with. apply flat_map_ext_in || idtac.
  induction ps as [|[c|j] ps IH]; [reflexivity| |].
  - cbn [flat_map expand_piece]. f_equal. apply IH.
    intros j Hj. apply Hb. now right.
  - cbn [flat_map expand_piece].
    destruct (dict_ok_lookup n m j Hm (Hb j (or_introl eq_refl))) as [v Hv].
    rewrite Hv, (lookup_app_Some _ _ _ _ Hv). f_equal. apply IH.
    intros j' Hj'. apply Hb. now right.
Qed.

Lemma dict_set_fresh (k v : str) (m : dict) :
  ~ In k (map fst m) -> dict_set k v m = m ++ [(k, v)].
Proof.
  induction m as [|[k' v'] m IH]; intros H; [reflexivity|].
  cbn [dict_set]. destruct (str_eqb k k') eqn:E.
  - apply str_eqb_eq in E. subst. exfalso. apply H. now left.
  - cbn [app]. f_equal. apply IH. intros Hin. apply H. now right.
Qed.

Lemma dict_ok_snoc (n : nat) (m : dict) (v : str) :
  dict_ok n m -> dict_ok (S n) (m ++ [(make_placeholder n, v)]).
Proof.
  unfold dict_ok. intros Hm. rewrite map_app, Hm, seq_S, map_app. reflexivity.
Qed.

(** Before a character that tokens do not have, a text made of pieces is
    cut between two pieces. *)
Lemma cut_plain (c : char) :
  tok_char c = false ->
  forall ps a b, render ps = a ++ c :: b ->
    exists ps1 ps2, ps = ps1 ++ Ch c :: ps2 /\ render ps1 = a /\ render ps2 = b.
Proof.
  intros Hc. induction ps as [|[x|j] ps IH]; intros a b H.
  - destruct a; discriminate.
  - cbn in H. destruct a as [|y a].
    + injection H as -> <-. now exists [], ps.
    + injection H as -> H. destruct (IH a b H) as [ps1 [ps2 [-> [<- <-]]]].
      now exists (Ch y :: ps1), ps2.
  - change (render (Tok j :: ps)) with (make_placeholder j ++ render ps) in H.
    apply app_eq_app in H as [l [[H1 H2]|[H1 H2]]].
    + destruct l as [|c' l].
      * cbn [app] in H2. rewrite app_nil_r in H1. symmetry in H2.
        destruct (IH [] b H2) as [ps1 [ps2 [-> [E1 <-]]]].
        exists (Tok j :: ps1), ps2. repeat split.
        change (render (Tok j :: ps1)) with (make_placeholder j ++ render ps1).
        now rewrite E1, app_nil_r.
      * injection H2 as <- _. exfalso.
        pose proof (make_placeholder_tok_chars j) as Ht. rewrite H1 in Ht.
        rewrite forallb_app in Ht. apply andb_true_iff in Ht as [_ Ht].
        cbn [forallb] in Ht. rewrite Hc in Ht. discriminate.
    + destruct (IH l b H2) as [ps1 [ps2 [-> [<- <-]]]].
      exists (Tok j :: ps1), ps2. repeat split.
      now rewrite H1.
Qed.

Lemma clean_pieces_app (a b : list piece) :
  clean_pieces (a ++ b) <-> clean_pieces a /\ clean_pieces b.
Proof.
  unfold clean_pieces. split.
  - intros H. split; intros c Hc; apply H; apply in_or_app; auto.
  - intros [Ha Hb] c Hc. apply in_app_or in Hc as [Hc|Hc]; auto.
Qed.

Lemma bounded_app (n : nat) (a b : list piece) :
  bounded n (a ++ b) <-> bounded n a /\ bounded n b.
Proof.
  unfold bounded. split.
  - intros H. split; intros c Hc; apply H; apply in_or_app; auto.
  - intros [Ha Hb] c Hc. apply in_app_or in Hc as [Hc|Hc]; auto.
Qed.

Lemma bounded_le (n n' : nat) (ps : list piece) :
  n <= n' -> bounded n ps -> bounded n' ps.
Proof. intros Hn H j Hj. specialize (H j Hj). lia. Qed.

Lemma values_clean_app (a b : dict) :
  values_clean (a ++ b) <-> values_clean a /\ values_clean b.
Proof.
  unfold values_clean. split.
  - intros H. split; intros k v Hin; apply (H k v); apply in_or_app; auto.
  - intros [Ha Hb] k v Hin. apply in_app_or in Hin as [Hin|Hin]; eauto.
Qed.

(** One pass over a text made of pieces gives a text made of pieces that
    stands for the same original. *)
Lemma scan_pieces (r : regex) (f : list str -> ph_state -> str * ph_state) :
  scannable r -> good_callback r f ->
  forall k ps, length ps <= k ->
    forall n m, clean_pieces ps -> bounded n ps -> dict_ok n m ->
      exists ps' n' new,
        sub_from false r f None (render ps) (mk_ph_state n m)
        = (render ps', mk_ph_state n' (m ++ new)) /\
        n <= n' /\ dict_ok n' (m ++ new) /\ clean_pieces ps' /\ bounded n' ps' /\
        (values_clean (m ++ new) ->
         expand_with (m ++ new) ps' = expand_with m ps).
Proof.
  intros Hsc Hgood. pose proof (scannable_never_empty r Hsc) as Hne.
  destruct Hsc as [Hun [[c0 [Hc0 Hfirst]] Hlast]].
  induction k as [|k IH]; intros ps Hlen n m Hcl Hb Hm.
  - destruct ps; [|simpl in Hlen; lia].
    exists [], n, []. rewrite app_nil_r. cbn [render flat_map].
    rewrite sub_from_nil by now apply never_empty_nil. auto 10.
  - destruct ps as [|[c|j] ps].
    + exists [], n, []. rewrite app_nil_r. cbn [render flat_map].
      rewrite sub_from_nil by now apply never_empty_nil. auto 10.
    + assert (Hcl' : clean_pieces ps) by (intros x Hx; apply Hcl; now right).
      assert (Hb' : bounded n ps) by (intros x Hx; apply Hb; now right).
      change (render (Ch c :: ps)) with (c :: render ps).
      destruct (exec false r None (c :: render ps)) as [ws|] eqn:E.
      * destruct (Hlast _ _ _ E) as [m0 [cl [Hg Hcl0]]].
        pose proof (exec_sound _ _ _ _ _ E) as [rest [Hs _]].
        fold (group0 ws) in Hs. rewrite Hg, <- app_assoc in Hs. cbn [app] in Hs.
        destruct (cut_plain cl Hcl0 (Ch c :: ps) m0 rest Hs)
          as [ps1 [ps2 [Eps [E1 E2]]]].
        set (psm := ps1 ++ [Ch cl]).
        assert (Hpsm : render psm = group0 ws).
        { unfold psm. rewrite render_app, E1, Hg. reflexivity. }
        assert (Eps' : Ch c :: ps = psm ++ ps2)
          by (unfold psm; now rewrite <- app_assoc).
        assert (Hclm : clean_pieces psm /\ clean_pieces ps2)
          by (apply clean_pieces_app; now rewrite <- Eps').
        assert (Hbm : bounded n psm /\ bounded n ps2)
          by (apply bounded_app; now rewrite <- Eps').
        destruct Hclm as [Hclm Hcl2]. destruct Hbm as [Hbm Hb2].
        assert (Estr : c :: render ps = render psm ++ render ps2).
        { change (c :: render ps) with (render (Ch c :: ps)).
          now rewrite Eps', render_app. }
        rewrite Estr in E.
        destruct (Hgood psm None (render ps2) ws n m E (eq_sym Hpsm) Hclm Hbm Hm)
          as [pso [n1 [new1 [Hf [Hn1 [Hm1 [Hclo [Hbo Hexp1]]]]]]]].
        assert (Hlen2 : length ps2 <= k).
        { apply (f_equal (@length piece)) in Eps'. unfold psm in Eps'.
          rewrite !length_app in Eps'. simpl in *. lia. }
        destruct (IH ps2 Hlen2 n1 (m ++ new1) Hcl2 (bounded_le _ _ _ Hn1 Hb2) Hm1)
          as [ps2' [n2 [new2 [Hsub [Hn2 [Hm2 [Hcl2' [Hb2' Hexp2]]]]]]]].
        exists (pso ++ ps2'), n2, (new1 ++ new2).
        rewrite (app_assoc m new1 new2). rewrite Estr.
        rewrite (sub_from_match false r f None _ _ ws E (Hne _ _ _ E)).
        cbv zeta. rewrite Hf. cbn [fst snd].
        rewrite (sub_from_unanchored false r f _ None _ _ Hun).
        rewrite <- Hpsm, skipn_length_app, Hsub. cbn [fst snd].
        rewrite render_app. repeat split; try assumption; try lia.
        -- apply clean_pieces_app. auto.
        -- apply bounded_app. split; [now apply (bounded_le n1)|assumption].
        -- intros Hv. rewrite expand_with_app.
           rewrite (Hexp2 Hv).
           rewrite (expand_extend n m new1 ps2 Hb2 Hm).
           rewrite (expand_extend n1 (m ++ new1) new2 pso Hbo Hm1).
           rewrite Hexp1 by (apply values_clean_app in Hv; tauto).
           rewrite <- expand_with_app, <- Eps'. reflexivity.
      * destruct (IH ps ltac:(simpl in Hlen; lia) n m Hcl' Hb' Hm)
          as [ps' [n' [new [Hsub [Hn' [Hm' [Hcl2 [Hb2 Hexp]]]]]]]].
        exists (Ch c :: ps'), n', new.
        rewrite (sub_from_skip false r f None c (render ps) _ E).
        rewrite (sub_from_unanchored false r f (Some c) None _ _ Hun), Hsub.
        cbn [fst snd]. repeat split; try assumption.
        -- intros x [Hx|Hx]; [injection Hx as <-; apply Hcl; now left|now apply Hcl2].
        -- intros x [Hx|Hx]; [discriminate|now apply Hb2].
        -- intros Hv. cbn [expand_with flat_map expand_piece]. f_equal.
           now apply Hexp.
    + assert (Hcl' : clean_pieces ps) by (intros x Hx; apply Hcl; now right).
      assert (Hb' : bounded n ps) by (intros x Hx; apply Hb; now right).
      destruct (IH ps ltac:(simpl in Hlen; lia) n m Hcl' Hb' Hm)
        as [ps' [n' [new [Hsub [Hn' [Hm' [Hcl2 [Hb2 Hexp]]]]]]]].
      exists (Tok j :: ps'), n', new.
      change (render (Tok j :: ps)) with (make_placeholder j ++ render ps).
      rewrite (sub_from_copy r f c0 (make_placeholder j) (render ps) Hun Hfirst).
      * rewrite Hsub. cbn [fst snd]. repeat split; try assumption.
        -- intros x [Hx|Hx]; [discriminate|now apply Hcl2].
        -- intros x [Hx|Hx]; [|now apply Hb2]. injection Hx as <-.
           specialize (Hb j (or_introl eq_refl)). lia.
        -- intros Hv. cbn [expand_with flat_map expand_piece].
           destruct (dict_ok_lookup n m j Hm (Hb j (or_introl eq_refl))) as [v Hl].
           rewrite Hl, (lookup_app_Some _ _ _ _ Hl). f_equal. now apply Hexp.
      * intros x Hx. pose proof (make_placeholder_tok_chars j) as Ht.
        rewrite forallb_forall in Ht. apply Ht in Hx. congruence.
Qed.

(** ** The four patterns and their callbacks *)

Lemma matches_last (ml : bool) (p : char -> bool) (r : regex) :
  forall prev ws rest,
    matches ml (r ++ [One p]) prev ws rest ->
    exists ws' c, ws = ws' ++ [[c]] /\ p c = true.
Proof.
  induction r as [|n r IH]; intros prev ws rest H.
  - cbn [app matches] in H. destruct ws as [|w [|? ?]]; try tauto.
    destruct H as [[c [-> Hc]] _]. now exists [], c.
  - cbn [app matches] in H. destruct ws as [|w ws]; [tauto|].
    destruct H as [_ H]. destruct (IH _ _ _ H) as [ws' [c [-> Hc]]].
    now exists (w :: ws'), c.
Qed.

Lemma match_ends_with (x : char) (r : regex) (prev : option char) (s : str)
    (ws : list str) :
  exec false (r ++ [Lit x]) prev s = Some ws ->
  exists m, group0 ws = m ++ [x].
Proof.
  intros H. apply exec_sound in H as [rest [_ H]].
  apply matches_last in H as [ws' [c [-> Hc]]]. apply N.eqb_eq in Hc. subst c.
  exists (concat ws'). unfold group0. rewrite concat_app. cbn [concat].
  now rewrite app_nil_r.
Qed.

Lemma scannable_lit (c0 x : char) (mid : regex) :
  unanchored (Lit c0 :: mid ++ [Lit x]) ->
  tok_char c0 = false -> tok_char x = false ->
  scannable (Lit c0 :: mid ++ [Lit x]).
Proof.
  intros Hun H0 Hx. split; [assumption|]. split.
  - exists c0. split; [assumption|]. intros prev c s Hc. now apply exec_Lit_other.
  - intros prev s ws H.
    change (Lit c0 :: mid ++ [Lit x]) with ((Lit c0 :: mid) ++ [Lit x]) in H.
    apply match_ends_with in H as [m Hm]. now exists m, x.
Qed.

Lemma scannable_bold_link : scannable RE_BOLD_LINK.
Proof.
  apply (scannable_lit STAR STAR
           [Lit STAR; Lit LBRACK; Open; Star (notc RBRACK); Close; Lit RBRACK;
            Lit LPAREN; Open; Plus (notc RPAREN); Close; Lit RPAREN; Lit STAR]);
    [solve_unanchored|reflexivity|reflexivity].
Qed.

Lemma scannable_link : scannable RE_LINK_FULL.
Proof.
  apply (scannable_lit LBRACK RPAREN
           [Open; Star (notc RBRACK); Close; Lit RBRACK;
            Lit LPAREN; Open; Plus (notc RPAREN); Close]);
    [solve_unanchored|reflexivity|reflexivity].
Qed.

Lemma scannable_inline_code : scannable RE_INLINE_CODE.
Proof.
  apply (scannable_lit BACKTICK BACKTICK [Open; Plus (notc BACKTICK); Close]);
    [solve_unanchored|reflexivity|reflexivity].
Qed.

Lemma scannable_bold_text : scannable RE_BOLD_TEXT.
Proof.
  apply (scannable_lit STAR STAR
           [Lit STAR; Open; PlusLazy dot; Close; Lit STAR]);
    [solve_unanchored|reflexivity|reflexivity].
Qed.

Lemma lookup_fresh_snoc (n : nat) (m : dict) (v : str) (rest : dict) :
  dict_ok n m ->
  lookup (make_placeholder n) (m ++ (make_placeholder n, v) :: rest) = Some v.
Proof.
  intros Hm. rewrite lookup_app_None.
  - cbn [lookup]. now rewrite str_eqb_refl.
  - apply lookup_None_keys. now apply dict_ok_fresh.
Qed.

(** The callbacks that store the whole match under one token. *)
Lemma good_whole_match (r : regex) :
  good_callback r
    (fun m st => let (ph, st1) := next_ph st in (ph, store ph (group0 m) st1)).
Proof.
  intros psm prev rest ws n m _ Hg Hcl Hb Hm.
  exists [Tok n], (S n), [(make_placeholder n, render psm)].
  unfold next_ph, store. cbn [counter placeholders].
  rewrite (dict_set_fresh _ _ _ (dict_ok_fresh n m Hm)), Hg.
  repeat split.
  - cbn [render flat_map render_piece]. now rewrite app_nil_r.
  - lia.
  - now apply dict_ok_snoc.
  - intros c [H|[]]. discriminate.
  - intros j [H|[]]. injection H as <-. lia.
  - intros Hv. cbn [expand_with flat_map expand_piece].
    rewrite (lookup_fresh_snoc n m _ [] Hm), app_nil_r.
    symmetry. apply expand_with_clean.
    apply (Hv (make_placeholder n)). apply in_or_app. right. now left.
Qed.

Lemma render_nil (ps : list piece) : render ps = [] -> ps = [].
Proof.
  destruct ps as [|[c|j] ps]; [reflexivity| |]; cbn; discriminate.
Qed.

Lemma cut_first (c : char) (ps : list piece) (b : str) :
  tok_char c = false -> render ps = c :: b ->
  exists ps2, ps = Ch c :: ps2 /\ render ps2 = b.
Proof.
  intros Hc H. destruct (cut_plain c Hc ps [] b H) as [ps1 [ps2 [-> [E1 E2]]]].
  apply render_nil in E1. subst ps1. now exists ps2.
Qed.

Lemma lookup_second (n : nat) (m : dict) (v1 v2 : str) :
  dict_ok n m ->
  lookup (make_placeholder (S n))
    (m ++ [(make_placeholder n, v1); (make_placeholder (S n), v2)]) = Some v2.
Proof.
  intros Hm.
  replace (m ++ [(make_placeholder n, v1); (make_placeholder (S n), v2)])
    with ((m ++ [(make_placeholder n, v1)]) ++ [(make_placeholder (S n), v2)])
    by (now rewrite <- app_assoc).
  apply (lookup_fresh_snoc (S n) _ v2 []). now apply dict_ok_snoc.
Qed.

(** The state after a callback that takes two tokens. *)
Lemma store_two (n : nat) (m : dict) (v1 v2 : str) :
  dict_ok n m ->
  store (make_placeholder (S n)) v2
    (snd (next_ph (store (make_placeholder n) v1 (snd (next_ph (mk_ph_state n m))))))
  = mk_ph_state (S (S n))
      (m ++ [(make_placeholder n, v1); (make_placeholder (S n), v2)]).
Proof.
  intros Hm. unfold next_ph, store. cbn [counter placeholders snd].
  rewrite (dict_set_fresh _ _ _ (dict_ok_fresh n m Hm)).
  rewrite (dict_set_fresh _ _ _ (dict_ok_fresh (S n) _ (dict_ok_snoc n m v1 Hm))).
  now rewrite <- app_assoc.
Qed.

Lemma dict_ok_two (n : nat) (m : dict) (v1 v2 : str) :
  dict_ok n m ->
  dict_ok (S (S n)) (m ++ [(make_placeholder n, v1); (make_placeholder (S n), v2)]).
Proof.
  intros Hm.
  replace (m ++ [(make_placeholder n, v1); (make_placeholder (S n), v2)])
    with ((m ++ [(make_placeholder n, v1)]) ++ [(make_placeholder (S n), v2)])
    by (now rewrite <- app_assoc).
  now apply dict_ok_snoc, dict_ok_snoc.
Qed.

(** What a callback that wraps an exposed text between two tokens gives. *)
Lemma wrap_between_tokens (n : nat) (m : dict) (v1 v2 : str)
    (inner : list piece) :
  dict_ok n m -> clean_pieces inner -> bounded n inner ->
  clean_pieces (Tok n :: inner ++ [Tok (S n)]) /\
  bounded (S (S n)) (Tok n :: inner ++ [Tok (S n)]) /\
  expand_with (m ++ [(make_placeholder n, v1); (make_placeholder (S n), v2)])
    (Tok n :: inner ++ [Tok (S n)])
  = v1 ++ expand_with m inner ++ v2.
Proof.
  intros Hm Hcl Hb. repeat split.
  - intros c [H|H]; [discriminate|]. apply in_app_or in H as [H|[H|[]]];
      [now apply Hcl|discriminate].
  - intros j [H|H]; [injection H as <-; lia|].
    apply in_app_or in H as [H|[H|[]]]; [specialize (Hb j H); lia|].
    injection H as <-. lia.
  - change (Tok n :: inner ++ [Tok (S n)]) with ([Tok n] ++ inner ++ [Tok (S n)]).
    rewrite !expand_with_app. cbn [expand_with flat_map expand_piece].
    rewrite (lookup_fresh_snoc n m v1 _ Hm), (lookup_second n m v1 v2 Hm).
    rewrite !app_nil_r. f_equal. f_equal.
    apply (expand_extend n); assumption.
Qed.

Lemma good_replace_link : good_callback RE_LINK_FULL replace_link.
Proof.
  intros psm prev rest ws n m E Hg Hcl Hb Hm.
  apply exec_sound in E as [rest' [_ Hmt]].
  unfold RE_LINK_FULL, Lit, Star, Plus in Hmt.
  destruct ws as [|w0 [|w1 [|disp [|w3 [|w4 [|w5 [|w6 [|url [|w8 [|w9 [|? ?]]]]]]]]]]];
    cbn [matches] in Hmt; try tauto.
  cbn [chunk_ok] in Hmt.
  destruct Hmt as ([c0 [-> H0]] & -> & _ & -> & [c4 [-> H4]] & [c5 [-> H5]]
                   & -> & _ & -> & [c9 [-> H9]] & _).
  apply N.eqb_eq in H0, H4, H5, H9. subst c0 c4 c5 c9.
  unfold group0 in Hg. cbn [concat app] in Hg. rewrite ?app_nil_r in Hg.
  symmetry in Hg.
  destruct (cut_first LBRACK psm _ eq_refl Hg) as [ps2 [-> Hg2]].
  destruct (cut_plain RBRACK eq_refl ps2 disp _ Hg2) as [psd [ps3 [-> [Ed E3]]]].
  assert (Hcld : clean_pieces psd).
  { intros c Hc. apply Hcl. right. apply in_or_app. now left. }
  assert (Hbd : bounded n psd).
  { intros j Hj. apply Hb. right. apply in_or_app. now left. }
  destruct (wrap_between_tokens n m [LBRACK]
              ([RBRACK; LPAREN] ++ url ++ [RPAREN]) psd Hm Hcld Hbd)
    as [Hclo [Hbo Hexp]].
  exists (Tok n :: psd ++ [Tok (S n)]), (S (S n)),
    [(make_placeholder n, [LBRACK]);
     (make_placeholder (S n), [RBRACK; LPAREN] ++ url ++ [RPAREN])].
  repeat split; try assumption.
  - unfold replace_link. unfold RE_LINK_FULL at 1 2.
    cbn [group collect Lit Star Plus app]. rewrite !app_nil_r.
    change (next_ph (mk_ph_state n m))
      with (make_placeholder n, snd (next_ph (mk_ph_state n m))).
    cbv iota.
    change (next_ph (store (make_placeholder n) [LBRACK]
                       (snd (next_ph (mk_ph_state n m)))))
      with (make_placeholder (S n),
            snd (next_ph (store (make_placeholder n) [LBRACK]
                            (snd (next_ph (mk_ph_state n m)))))).
    cbv iota. rewrite (store_two n m _ _ Hm). f_equal.
    change (Tok n :: psd ++ [Tok (S n)]) with ([Tok n] ++ psd ++ [Tok (S n)]).
    rewrite !render_app, Ed. cbn [render flat_map render_piece].
    now rewrite !app_nil_r.
  - lia.
  - now apply dict_ok_two.
  - intros Hv. refine (eq_trans Hexp _).
    change (Ch LBRACK :: psd ++ Ch RBRACK :: ps3)
      with ([Ch LBRACK] ++ psd ++ [Ch RBRACK] ++ ps3).
    rewrite !expand_with_app. cbn [expand_with flat_map expand_piece app].
    f_equal. f_equal. f_equal.
    rewrite expand_with_clean; [now rewrite E3|].
    rewrite E3. intros Hin.
    apply (Hv (make_placeholder (S n)) ([RBRACK; LPAREN] ++ url ++ [RPAREN])).
    + apply in_or_app. right. right. now left.
    + cbn [app]. right. exact Hin.
Qed.

Lemma good_replace_bold : good_callback RE_BOLD_TEXT replace_bold.
Proof.
  intros psm prev rest ws n m E Hg Hcl Hb Hm.
  apply exec_sound in E as [rest' [_ Hmt]].
  unfold RE_BOLD_TEXT, Lit, PlusLazy in Hmt.
  destruct ws as [|w0 [|w1 [|w2 [|inner [|w4 [|w5 [|w6 [|? ?]]]]]]]];
    cbn [matches] in Hmt; try tauto.
  cbn [chunk_ok] in Hmt.
  destruct Hmt as ([c0 [-> H0]] & [c1 [-> H1]] & -> & _ & -> & [c5 [-> H5]]
                   & [c6 [-> H6]] & _).
  apply N.eqb_eq in H0, H1, H5, H6. subst c0 c1 c5 c6.
  unfold group0 in Hg. cbn [concat app] in Hg. rewrite ?app_nil_r in Hg.
  symmetry in Hg.
  destruct (cut_first STAR psm _ eq_refl Hg) as [ps2 [-> Hg2]].
  destruct (cut_first STAR ps2 _ eq_refl Hg2) as [ps3 [-> Hg3]].
  destruct (cut_plain STAR eq_refl ps3 inner _ Hg3) as [psi [ps4 [-> [Ei E4]]]].
  assert (Hcli : clean_pieces psi).
  { intros c Hc. apply Hcl. right. right. apply in_or_app. now left. }
  assert (Hbi : bounded n psi).
  { intros j Hj. apply Hb. right. right. apply in_or_app. now left. }
  destruct (wrap_between_tokens n m [STAR; STAR] [STAR; STAR] psi Hm Hcli Hbi)
    as [Hclo [Hbo Hexp]].
  exists (Tok n :: psi ++ [Tok (S n)]), (S (S n)),
    [(make_placeholder n, [STAR; STAR]); (make_placeholder (S n), [STAR; STAR])].
  repeat split; try assumption.
  - unfold replace_bold. unfold RE_BOLD_TEXT at 1.
    cbn [group collect Lit PlusLazy app]. rewrite !app_nil_r.
    change (next_ph (mk_ph_state n m))
      with (make_placeholder n, snd (next_ph (mk_ph_state n m))).
    cbv iota.
    change (next_ph (store (make_placeholder n) [STAR; STAR]
                       (snd (next_ph (mk_ph_state n m)))))
      with (make_placeholder (S n),
            snd (next_ph (store (make_placeholder n) [STAR; STAR]
                            (snd (next_ph (mk_ph_state n m)))))).
    cbv iota. rewrite (store_two n m _ _ Hm). f_equal.
    change (Tok n :: psi ++ [Tok (S n)]) with ([Tok n] ++ psi ++ [Tok (S n)]).
    rewrite !render_app, Ei. cbn [render flat_map render_piece].
    now rewrite !app_nil_r.
  - lia.
  - now apply dict_ok_two.
  - intros Hv. refine (eq_trans Hexp _).
    change (Ch STAR :: Ch STAR :: psi ++ Ch STAR :: ps4)
      with ([Ch STAR; Ch STAR] ++ psi ++ [Ch STAR] ++ ps4).
    rewrite !expand_with_app. cbn [expand_with flat_map expand_piece app].
    f_equal. f_equal. f_equal. f_equal.
    rewrite expand_with_clean; [now rewrite E4|].
    rewrite E4. intros [H|[]]. discriminate.
Qed.

(** ** The round trip *)

Lemma in_set_false (l : str) (c : char) : in_set l c = false <-> ~ In c l.
Proof.
  rewrite <- in_set_In. destruct (in_set l c); split; congruence.
Qed.

Lemma render_chars (text : str) : render (map Ch text) = text.
Proof. induction text as [|c t IH]; [reflexivity|]. cbn. now f_equal. Qed.

Lemma expand_chars (d : dict) (text : str) : expand_with d (map Ch text) = text.
Proof. induction text as [|c t IH]; [reflexivity|]. cbn. now f_equal. Qed.

Lemma clean_chars (text : str) :
  ~ In PH_PREFIX text -> clean_pieces (map Ch text).
Proof.
  intros H c Hc. apply in_map_iff in Hc as [x [Hx Hin]]. injection Hx as ->.
  intros ->. contradiction.
Qed.

Lemma originals_clean_values (phs : dict) :
  originals_clean phs = true -> values_clean phs.
Proof.
  unfold originals_clean. rewrite forallb_forall. intros H k v Hin.
  specialize (H (k, v) Hin). cbn [snd] in H. apply negb_true_iff in H.
  now apply in_set_false.
Qed.

(** What [protect_inline_elements] returns for a text without the opening
    delimiter: a text made of pieces, the dictionary of its tokens, and, when
    no stored original holds a token, the original text as what the pieces
    stand for. *)
Lemma protect_pieces (text : str) :
  ~ In PH_PREFIX text ->
  exists ps n,
    fst (protect_inline_elements text) = render ps /\
    dict_ok n (snd (protect_inline_elements text)) /\
    clean_pieces ps /\ bounded n ps /\
    (values_clean (snd (protect_inline_elements text)) ->
     expand_with (snd (protect_inline_elements text)) ps = text).
Proof.
  intros Hno.
  assert (Hb0 : bounded 0 (map Ch text)).
  { intros j Hj. apply in_map_iff in Hj as [x [Hx _]]. discriminate. }
  assert (Hm0 : dict_ok 0 []) by reflexivity.
  destruct (scan_pieces RE_BOLD_LINK replace_bold_link scannable_bold_link
              (good_whole_match RE_BOLD_LINK) _ (map Ch text) (le_n _) 0 []
              (clean_chars text Hno) Hb0 Hm0)
    as [ps1 [n1 [new1 [E1 [_ [Hm1 [Hc1 [Hb1 Hx1]]]]]]]].
  rewrite render_chars in E1. cbn [app] in *.
  destruct (scan_pieces RE_LINK_FULL replace_link scannable_link
              good_replace_link _ ps1 (le_n _) n1 new1 Hc1 Hb1 Hm1)
    as [ps2 [n2 [new2 [E2 [_ [Hm2 [Hc2 [Hb2 Hx2]]]]]]]].
  destruct (scan_pieces RE_INLINE_CODE replace_inline_code scannable_inline_code
              (good_whole_match RE_INLINE_CODE) _ ps2 (le_n _) n2 _ Hc2 Hb2 Hm2)
    as [ps3 [n3 [new3 [E3 [_ [Hm3 [Hc3 [Hb3 Hx3]]]]]]]].
  destruct (scan_pieces RE_BOLD_TEXT replace_bold scannable_bold_text
              good_replace_bold _ ps3 (le_n _) n3 _ Hc3 Hb3 Hm3)
    as [ps4 [n4 [new4 [E4 [_ [Hm4 [Hc4 [Hb4 Hx4]]]]]]]].
  assert (Ep : protect_inline_elements text
               = (render ps4, ((new1 ++ new2) ++ new3) ++ new4)).
  { unfold protect_inline_elements. rewrite !re_sub_st_from.
    rewrite E1. rewrite re_sub_st_from, E2. rewrite re_sub_st_from, E3.
    rewrite re_sub_st_from, E4. reflexivity. }
  rewrite Ep. cbn [fst snd]. exists ps4, n4. repeat split; try assumption.
  intros Hv. rewrite (Hx4 Hv).
  apply values_clean_app in Hv as [Hv _]. rewrite (Hx3 Hv).
  apply values_clean_app in Hv as [Hv _]. rewrite (Hx2 Hv).
  apply values_clean_app in Hv as [Hv _]. rewrite (Hx1 Hv).
  apply expand_chars.
Qed.

Lemma clean_spurious_no_prefix (known : list str) (text : str) :
  ~ In PH_PREFIX text ->
  re_sub false RE_PLACEHOLDER (clean_spurious known) text = text.
Proof.
  intros H. apply re_sub_no_match; [apply never_empty_placeholder|].
  intros u c x' prev ->. unfold RE_PLACEHOLDER. apply exec_Lit_other.
  intros ->. apply H. apply in_or_app. right. now left.
Qed.

Lemma comma_free_suffix (u : str) :
  forall text x', text = u ++ COMMA :: x' -> comma_free text = true ->
    match lstrip_by is_space x' with
    | y :: _ => y <> COMMA /\ y <> RPAREN
    | [] => True
    end.
Proof.
  induction u as [|c u IH]; intros text x' -> H.
  - cbn [app comma_free] in H. rewrite N.eqb_refl in H.
    apply andb_true_iff in H as [H _].
    destruct (lstrip_by is_space x') as [|y ?]; [exact I|].
    apply andb_true_iff in H as [H1 H2].
    apply negb_true_iff in H1, H2. split; intros ->;
      rewrite N.eqb_refl in *; discriminate.
  - cbn [app comma_free] in H. apply andb_true_iff in H as [_ H].
    now apply (IH (u ++ COMMA :: x') x').
Qed.

Lemma comma_scan_free (x : char) (f : list str -> str) (text : str) :
  x = COMMA \/ x = RPAREN ->
  (forall c, is_space c = true -> c <> x) ->
  comma_free text = true ->
  re_sub false [Lit COMMA; Star is_space; Lit x] f text = text.
Proof.
  intros Hx Hsp H. apply re_sub_no_match; [apply never_empty_One|].
  intros u c x' prev ->.
  destruct (N.eqb_spec c COMMA) as [->|Hc]; [|now apply exec_Lit_other].
  rewrite exec_Lit_same. unfold Star.
  rewrite exec_rep_greedy_disjoint
    by (intros c t prev' Hc; apply exec_Lit_other; now apply Hsp).
  change (rep_max is_space None x') with (span_len is_space x').
  change (0 <=? span_len is_space x') with true. cbv iota.
  rewrite skipn_span_lstrip.
  pose proof (comma_free_suffix u _ x' eq_refl H) as Hs.
  destruct (lstrip_by is_space x') as [|y t]; [reflexivity|].
  rewrite exec_Lit_other; [reflexivity|]. destruct Hs, Hx; congruence.
Qed.

Lemma C1_comma_sequence_counterexample : ~ protect_restore_inverse.
Proof.
  intros H. specialize (H (py "a, , b")). vm_compute in H. discriminate.
Qed.

(** C1, amended.  For every text that does not hold the opening delimiter
    of tokens and in which no comma is followed, after optional white space,
    by a comma or a closing parenthesis, and whose protection stored no
    original that holds a token (no markup inside a span that was replaced
    whole), restoring the protected text with its map gives the text back. *)
Theorem C1_protect_restore_round_trip (text : str) :
  in_set text PH_PREFIX = false ->
  comma_free text = true ->
  originals_clean (snd (protect_inline_elements text)) = true ->
  restore_placeholders (fst (protect_inline_elements text))
    (snd (protect_inline_elements text)) = text.
Proof.
  intros Hno Hcf Hor. apply in_set_false in Hno.
  apply originals_clean_values in Hor.
  destruct (protect_pieces text Hno) as [ps [n [Ep [Hm [Hcl [Hb Hx]]]]]].
  unfold restore_placeholders. rewrite Ep.
  rewrite restore_substitution;
    [|assumption|now apply (dict_ok_token_keys n)|assumption
     |now apply (dict_ok_NoDup n)].
  rewrite (Hx Hor).
  rewrite (clean_spurious_no_prefix _ text Hno).
  rewrite (comma_scan_free COMMA _ text (or_introl eq_refl) space_not_comma Hcf).
  apply (comma_scan_free RPAREN _ text (or_intror eq_refl) space_not_rparen Hcf).
Qed.

Lemma C1_round_trip_witness :
  let text := py "See **[the docs](x.md)**, `run()` and **bold** [a link](u)" in
  restore_placeholders (fst (protect_inline_elements text))
    (snd (protect_inline_elements text)) = text.
Proof.
  refine (C1_protect_restore_round_trip
            (py "See **[the docs](x.md)**, `run()` and **bold** [a link](u)")
            _ _ _).
  - reflexivity.
  - reflexivity.
  - reflexivity.
Defined.

(* ================================================================== *)
(** * Further properties: tokens, protection and restoration *)
(* ================================================================== *)

(** X1. A token is never the start of the text of another token: a text
    that starts with the token of [j] starts with the token of [k] only if
    [j] is [k].  So the order in which [restore_placeholders] replaces the
    keys cannot make one key eat part of another. *)
Theorem X1_tokens_prefix_free (j k : nat) (w : str) :
  startswith (make_placeholder k) (make_placeholder j ++ w) = (j =? k).
Proof.
  destruct (Nat.eqb_spec j k) as [->|Hjk].
  - apply startswith_app.
  - destruct (startswith (make_placeholder k) (make_placeholder j ++ w)) eqn:E;
      [|reflexivity].
    apply startswith_placeholder in E. contradiction.
Qed.

(** The state of the scan keeps what the callbacks keep. *)
Lemma sub_go_state_inv {St : Type} (Inv : St -> Prop) (ml : bool) (r : regex)
    (f : list str -> St -> str * St) :
  (forall ws st, Inv st -> Inv (snd (f ws st))) ->
  forall fuel prev s st, Inv st -> Inv (snd (sub_go fuel ml r f prev s st)).
Proof.
  intros Hf. induction fuel as [|fuel IH]; intros prev s st Hst; [assumption|].
  rewrite sub_go_S. destruct (exec ml r prev s) as [ws|].
  - specialize (Hf ws st Hst). destruct (f ws st) as [out st1]. cbn [snd] in Hf.
    destruct (group0 ws) as [|c m].
    + destruct s as [|c s]; [assumption|].
      specialize (IH (Some c) s st1 Hf).
      now destruct (sub_go fuel ml r f (Some c) s st1).
    + specialize (IH (prev_after prev (c :: m)) (skipn (length (c :: m)) s) st1 Hf).
      cbv zeta.
      destruct (sub_go fuel ml r f (prev_after prev (c :: m))
                  (skipn (length (c :: m)) s) st1).
      exact IH.
  - destruct s as [|c s]; [assumption|].
    specialize (IH (Some c) s st Hst).
    now destruct (sub_go fuel ml r f (Some c) s st).
Qed.

Lemma take_token_ok (v : str) (st : ph_state) :
  state_ok st ->
  state_ok (store (fst (next_ph st)) v (snd (next_ph st))).
Proof.
  destruct st as [n m]. unfold state_ok, next_ph, store.
  cbn [counter placeholders fst snd]. intros Hm.
  rewrite (dict_set_fresh _ _ _ (dict_ok_fresh n m Hm)). now apply dict_ok_snoc.
Qed.

Lemma replace_bold_link_ok (ws : list str) (st : ph_state) :
  state_ok st -> state_ok (snd (replace_bold_link ws st)).
Proof. intros H. apply (take_token_ok (group0 ws) st H). Qed.

Lemma replace_inline_code_ok (ws : list str) (st : ph_state) :
  state_ok st -> state_ok (snd (replace_inline_code ws st)).
Proof. intros H. apply (take_token_ok (group0 ws) st H). Qed.

Lemma replace_link_ok (ws : list str) (st : ph_state) :
  state_ok st -> state_ok (snd (replace_link ws st)).
Proof.
  intros H. unfold replace_link.
  apply (take_token_ok _ _ (take_token_ok [LBRACK] st H)).
Qed.

Lemma replace_bold_ok (ws : list str) (st : ph_state) :
  state_ok st -> state_ok (snd (replace_bold ws st)).
Proof.
  intros H. unfold replace_bold.
  apply (take_token_ok _ _ (take_token_ok [STAR; STAR] st H)).
Qed.

(** X2. For every text, the keys of the map that
    [protect_inline_elements] returns are the tokens numbered from 0 in the
    order of insertion, without gap and without repetition. *)
Theorem X2_protect_keys_are_numbered_tokens (text : str) :
  let phs := snd (protect_inline_elements text) in
  map fst phs = map make_placeholder (seq 0 (length phs)) /\
  NoDup (map fst phs).
Proof.
  intros phs.
  assert (H : exists n, dict_ok n phs).
  { unfold phs, protect_inline_elements.
    assert (H0 : state_ok (mk_ph_state 0 [])) by reflexivity.
    pose proof (sub_go_state_inv state_ok false RE_BOLD_LINK replace_bold_link
                  replace_bold_link_ok (S (length text)) None text _ H0) as H1.
    fold (re_sub_st false RE_BOLD_LINK replace_bold_link text (mk_ph_state 0 []))
      in H1.
    destruct (re_sub_st false RE_BOLD_LINK replace_bold_link text _) as [p1 st1].
    cbn [snd] in H1.
    pose proof (sub_go_state_inv state_ok false RE_LINK_FULL replace_link
                  replace_link_ok (S (length p1)) None p1 _ H1) as H2.
    fold (re_sub_st false RE_LINK_FULL replace_link p1 st1) in H2.
    destruct (re_sub_st false RE_LINK_FULL replace_link p1 st1) as [p2 st2].
    cbn [snd] in H2.
    pose proof (sub_go_state_inv state_ok false RE_INLINE_CODE replace_inline_code
                  replace_inline_code_ok (S (length p2)) None p2 _ H2) as H3.
    fold (re_sub_st false RE_INLINE_CODE replace_inline_code p2 st2) in H3.
    destruct (re_sub_st false RE_INLINE_CODE replace_inline_code p2 st2)
      as [p3 st3].
    cbn [snd] in H3.
    pose proof (sub_go_state_inv state_ok false RE_BOLD_TEXT replace_bold
                  replace_bold_ok (S (length p3)) None p3 _ H3) as H4.
    fold (re_sub_st false RE_BOLD_TEXT replace_bold p3 st3) in H4.
    destruct (re_sub_st false RE_BOLD_TEXT replace_bold p3 st3) as [p4 st4].
    cbn [snd] in *. now exists (counter st4). }
  destruct H as [n Hn]. split; [|now apply (dict_ok_NoDup n)].
  assert (length phs = n) as ->; [|exact Hn].
  apply (f_equal (@length str)) in Hn.
  now rewrite !length_map, length_seq in Hn.
Qed.

Lemma no_markup_pass (r : regex) (c0 : char)
    (f : list str -> ph_state -> str * ph_state) (text : str) (st : ph_state) :
  never_empty false r ->
  (forall prev c s, c <> c0 -> exec false r prev (c :: s) = None) ->
  markup_start c0 = true ->
  forallb (fun c => negb (markup_start c)) text = true ->
  re_sub_st false r f text st = (text, st).
Proof.
  intros Hne Hfirst Hc0 Htext. rewrite re_sub_st_from.
  apply sub_from_no_match; [assumption|].
  intros u c x' prev ->. apply Hfirst. intros ->.
  rewrite forallb_forall in Htext.
  assert (Hin : In c0 (u ++ c0 :: x')) by (apply in_or_app; right; now left).
  specialize (Htext c0 Hin). rewrite Hc0 in Htext. discriminate.
Qed.

(** X3. A text with no asterisk, no opening bracket and no backtick is
    returned unchanged by [protect_inline_elements], with an empty map. *)
Theorem X3_protect_leaves_plain_prose (text : str) :
  forallb (fun c => negb (markup_start c)) text = true ->
  protect_inline_elements text = (text, []).
Proof.
  intros H. unfold protect_inline_elements.
  rewrite (no_markup_pass RE_BOLD_LINK STAR) by
    (try apply never_empty_One; try assumption; try reflexivity;
     intros; now apply exec_Lit_other).
  rewrite (no_markup_pass RE_LINK_FULL LBRACK) by
    (try apply never_empty_One; try assumption; try reflexivity;
     intros; now apply exec_Lit_other).
  rewrite (no_markup_pass RE_INLINE_CODE BACKTICK) by
    (try apply never_empty_One; try assumption; try reflexivity;
     intros; now apply exec_Lit_other).
  rewrite (no_markup_pass RE_BOLD_TEXT STAR) by
    (try apply never_empty_One; try assumption; try reflexivity;
     intros; now apply exec_Lit_other).
  reflexivity.
Qed.

Lemma X3_protect_plain_witness :
  protect_inline_elements (py "Hola, mundo (v1.0)") = (py "Hola, mundo (v1.0)", []).
Proof.
  refine (X3_protect_leaves_plain_prose (py "Hola, mundo (v1.0)") _).
  reflexivity.
Defined.

(** X4. The protected text is empty exactly when the text is: no pass of
    the protection deletes text without leaving a token. *)
Theorem X4_protected_text_empty_iff (text : str) :
  fst (protect_inline_elements text) = [] <-> text = [].
Proof.
  split.
  - intros H. destruct text as [|c t]; [reflexivity|].
    exfalso. revert H. apply protect_nonempty. discriminate.
  - intros ->. reflexivity.
Qed.

(** X5. With an empty map, [restore_placeholders] returns unchanged every
    text that has no opening delimiter and in which no comma is followed,
    after optional white space, by a comma or a closing parenthesis. *)
Theorem X5_restore_identity_on_clean_text (text : str) :
  in_set text PH_PREFIX = false -> comma_free text = true ->
  restore_placeholders text [] = text.
Proof.
  intros Hno Hcf. apply in_set_false in Hno. unfold restore_placeholders.
  cbn [sorted_longest_first fold_right fold_left map].
  rewrite (clean_spurious_no_prefix _ text Hno).
  rewrite (comma_scan_free COMMA _ text (or_introl eq_refl) space_not_comma Hcf).
  apply (comma_scan_free RPAREN _ text (or_intror eq_refl) space_not_rparen Hcf).
Qed.

Lemma X5_restore_identity_witness :
  restore_placeholders (py "f(a, b), c") [] = py "f(a, b), c".
Proof.
  refine (X5_restore_identity_on_clean_text (py "f(a, b), c") _ _); reflexivity.
Defined.

(** X6. When every opening delimiter of a text belongs to a token whose
    key is in the map, and no stored original holds a delimiter, the loop of
    [restore_placeholders] replaces each token by its original in one go,
    whatever the order of the keys: a text made of the pieces [ps] becomes
    the text the pieces stand for. *)
Theorem X6_restore_replaces_every_token (n : nat) (phs : dict)
    (ps : list piece) :
  dict_ok n phs -> values_clean phs -> clean_pieces ps -> bounded n ps ->
  comma_free (expand_with phs ps) = true ->
  restore_placeholders (render ps) phs = expand_with phs ps /\
  ~ In PH_PREFIX (expand_with phs ps).
Proof.
  intros Hm Hv Hcl Hb Hcf.
  assert (Hno : ~ In PH_PREFIX (expand_with phs ps)).
  { clear Hcf. induction ps as [|[c|j] ps IH]; [intros []| |].
    - cbn [expand_with flat_map expand_piece app]. intros [H|H].
      + apply (Hcl c); [now left|congruence].
      + revert H. apply IH; [intros x Hx; apply Hcl|intros x Hx; apply Hb];
          now right.
    - cbn [expand_with flat_map expand_piece]. intros H.
      apply in_app_or in H as [H|H].
      + destruct (dict_ok_lookup n phs j Hm (Hb j (or_introl eq_refl)))
          as [v Hl].
        rewrite Hl in H. apply lookup_In in Hl. now apply (Hv _ _ Hl).
      + revert H. apply IH; [intros x Hx; apply Hcl|intros x Hx; apply Hb];
          now right. }
  split; [|assumption].
  unfold restore_placeholders.
  rewrite restore_substitution;
    [|assumption|now apply (dict_ok_token_keys n)|assumption
     |now apply (dict_ok_NoDup n)].
  rewrite (clean_spurious_no_prefix _ _ Hno).
  rewrite (comma_scan_free COMMA _ _ (or_introl eq_refl) space_not_comma Hcf).
  apply (comma_scan_free RPAREN _ _ (or_intror eq_refl) space_not_rparen Hcf).
Qed.

Lemma X6_restore_witness :
  let phs := [(make_placeholder 0, py "`x`"); (make_placeholder 1, py "**")] in
  let ps := [Tok 1; Ch 97%N; Tok 1; Ch 32%N; Tok 0] in
  restore_placeholders (render ps) phs = expand_with phs ps.
Proof.
  refine (proj1 (X6_restore_replaces_every_token 2
                   [(make_placeholder 0, py "`x`"); (make_placeholder 1, py "**")]
                   [Tok 1; Ch 97%N; Tok 1; Ch 32%N; Tok 0] _ _ _ _ _)).
  - reflexivity.
  - intros k v [H|[H|[]]]; injection H as <- <-; vm_compute; intuition discriminate.
  - intros c [H|[H|[H|[H|[H|[]]]]]]; try discriminate H; injection H as <-;
      discriminate.
  - intros j [H|[H|[H|[H|[H|[]]]]]]; try discriminate H; injection H as <-; lia.
  - reflexivity.
Defined.

(* ================================================================== *)
(** * Further properties: the phases of [translate_markdown_file] *)
(* ================================================================== *)

Lemma classify_length (lines : list str) :
  forall in_code_block, length (classify in_code_block lines) = length lines.
Proof.
  induction lines as [|line lines IH]; intros b; [reflexivity|].
  cbn [classify].
  destruct (startswith FENCE (strip line)); [cbn [length]; now rewrite IH|].
  destruct b; [cbn [length]; now rewrite IH|].
  destruct (is_empty (strip line)); [cbn [length]; now rewrite IH|].
  destruct (re_match RE_TABLE_SEP (strip line)); [cbn [length]; now rewrite IH|].
  destruct (is_ascii_art_line line); cbn [length]; now rewrite IH.
Qed.

Lemma extract_segment_idx (i : nat) (line : str) (t : line_type) (seg : segment) :
  extract_segment i line t = Some seg -> seg_line_idx seg = i /\ t = Translatable.
Proof.
  unfold extract_segment. destruct t; try discriminate.
  destruct (strip_prefixes line) as [pre text].
  destruct (is_table_row text).
  - intros H. injection H as <-. now split.
  - destruct (is_empty (strip text)); [discriminate|].
    destruct (protect_inline_elements text). intros H. injection H as <-.
    now split.
Qed.

Lemma extract_from_idx (lines : list str) :
  forall i types seg, In seg (extract_from i lines types) ->
    i <= seg_line_idx seg /\ seg_line_idx seg - i < length lines /\
    nth_error types (seg_line_idx seg - i) = Some Translatable.
Proof.
  induction lines as [|line lines IH]; intros i [|t types] seg Hin;
    cbn [extract_from] in Hin; try contradiction.
  assert (Hrest : In seg (extract_from (S i) lines types) ->
            i <= seg_line_idx seg /\ seg_line_idx seg - i < length (line :: lines) /\
            nth_error (t :: types) (seg_line_idx seg - i) = Some Translatable).
  { intros H. apply IH in H as [H1 [H2 H3]]. cbn [length].
    replace (seg_line_idx seg - i) with (S (seg_line_idx seg - S i)) by lia.
    cbn [nth_error]. repeat split; [lia|lia|assumption]. }
  destruct (extract_segment i line t) as [seg0|] eqn:E; [|now apply Hrest].
  destruct Hin as [->|Hin]; [|now apply Hrest].
  apply extract_segment_idx in E as [-> ->]. rewrite Nat.sub_diag. cbn [length].
  repeat split; [lia|lia].
Qed.

Lemma extract_from_sorted (lines : list str) :
  forall i types,
    StronglySorted lt (map seg_line_idx (extract_from i lines types)).
Proof.
  induction lines as [|line lines IH]; intros i [|t types]; cbn [extract_from];
    try constructor.
  destruct (extract_segment i line t) as [seg0|] eqn:E; [|apply IH].
  cbn [map]. constructor; [apply IH|].
  apply extract_segment_idx in E as [-> _].
  apply Forall_forall. intros j Hj. apply in_map_iff in Hj as [seg [<- Hin]].
  apply extract_from_idx in Hin. lia.
Qed.

(** X7. Phase 1 gives every line of the document exactly one type. *)
Theorem X7_one_type_per_line (lines : list str) :
  length (line_types lines) = length lines.
Proof. apply classify_length. Qed.

(** X8. The segments of Phase 2 come in document order, no two for the
    same line, and each one carries the index of a line of the document that
    Phase 1 classified as translatable. *)
Theorem X8_segments_follow_translatable_lines (lines : list str) :
  StronglySorted lt (map seg_line_idx (extract_segments lines)) /\
  Forall (fun seg =>
            seg_line_idx seg < length lines /\
            nth_error (line_types lines) (seg_line_idx seg) = Some Translatable)
    (extract_segments lines).
Proof.
  split; [apply extract_from_sorted|].
  apply Forall_forall. intros seg Hin. apply extract_from_idx in Hin.
  rewrite Nat.sub_0_r in Hin. tauto.
Qed.

Lemma set_nth_length {A : Type} (x : A) (l : list A) :
  forall i, length (set_nth i x l) = length l.
Proof.
  induction l as [|y l IH]; intros [|i]; cbn [set_nth length]; try reflexivity.
  now rewrite IH.
Qed.

Lemma nth_error_set_nth_other {A : Type} (x : A) (l : list A) :
  forall i j, i <> j -> nth_error (set_nth i x l) j = nth_error l j.
Proof.
  induction l as [|y l IH]; intros [|i] [|j] H; cbn [set_nth nth_error];
    try reflexivity; try contradiction.
  apply IH. lia.
Qed.

Lemma reconstruct_segment_length (l : list str) (seg : segment) :
  length (reconstruct_segment l seg) = length l.
Proof. destruct seg; cbn [reconstruct_segment]; apply set_nth_length. Qed.

Lemma reconstruct_length (segments : list segment) :
  forall l, length (reconstruct l segments) = length l.
Proof.
  unfold reconstruct. induction segments as [|seg segs IH]; intros l;
    [reflexivity|].
  cbn [fold_left]. rewrite IH. apply reconstruct_segment_length.
Qed.

Lemma reconstruct_segment_other (l : list str) (seg : segment) (j : nat) :
  seg_line_idx seg <> j ->
  nth_error (reconstruct_segment l seg) j = nth_error l j.
Proof.
  destruct seg; cbn [reconstruct_segment seg_line_idx]; intros H;
    now apply nth_error_set_nth_other.
Qed.

Lemma reconstruct_other (segments : list segment) (j : nat) :
  forall l, ~ In j (map seg_line_idx segments) ->
    nth_error (reconstruct l segments) j = nth_error l j.
Proof.
  unfold reconstruct. induction segments as [|seg segs IH]; intros l H;
    [reflexivity|].
  cbn [fold_left]. rewrite IH by (intros Hin; apply H; now right).
  apply reconstruct_segment_other. intros He. apply H. now left.
Qed.

Lemma distribute_idx (segments : list segment) :
  forall outs,
    map seg_line_idx (distribute segments outs) = map seg_line_idx segments.
Proof.
  induction segments as [|[i p phs pre tr|i cells pre] segs IH]; intros outs;
    [reflexivity| |].
  - destruct outs as [|o outs]; [reflexivity|].
    cbn [distribute map seg_line_idx]. now rewrite IH.
  - cbn [distribute map seg_line_idx]. now rewrite IH.
Qed.

(** X9. Whatever the backend returns, Phases 2 to 6 keep the number of
    lines: the list of output lines is as long as the list of input lines. *)
Theorem X9_reconstruction_keeps_line_count (content : str)
    (translator : list str -> list str) :
  length (output_lines content translator) = length (split NL content).
Proof. unfold output_lines. apply reconstruct_length. Qed.

(** X10. Whatever the backend returns, a line that Phase 1 did not
    classify as translatable (a fence, a line of a code block, a blank line,
    a table separator, line art) is the same line after Phase 6. *)
Theorem X10_reconstruction_keeps_other_lines (content : str)
    (translator : list str -> list str) (j : nat) :
  nth_error (line_types (split NL content)) j <> Some Translatable ->
  nth_error (output_lines content translator) j = nth_error (split NL content) j.
Proof.
  intros H. unfold output_lines. rewrite map_back_distribute.
  apply reconstruct_other. rewrite distribute_idx. intros Hin.
  apply in_map_iff in Hin as [seg [<- Hin]]. apply extract_from_idx in Hin.
  rewrite Nat.sub_0_r in Hin. apply H. tauto.
Qed.

Lemma X10_code_line_witness :
  nth_error (output_lines (py "Hola
```
x = **1**
```") (fun _ => [py "Hello"])) 2 = Some (py "x = **1**").
Proof.
  refine (X10_reconstruction_keeps_other_lines _ (fun _ => [py "Hello"]) 2 _).
  vm_compute. discriminate.
Defined.

(** ** Text without asterisk *)

Lemma split_chars (sep c : char) (s : str) :
  forall w, In w (split sep s) -> In c w -> In c s.
Proof.
  induction s as [|c0 s IH]; intros w Hw Hc.
  - destruct Hw as [<-|[]]. contradiction.
  - cbn [split] in Hw. destruct (c0 =? sep)%N.
    + destruct Hw as [<-|Hw]; [contradiction|]. right. now apply (IH w).
    + destruct (split sep s) as [|w0 ws] eqn:E.
      * destruct Hw as [<-|[]]. destruct Hc as [->|[]]. now left.
      * destruct Hw as [<-|Hw].
        -- destruct Hc as [->|Hc]; [now left|]. right.
           apply (IH w0); [now left|assumption].
        -- right. apply (IH w); [now right|assumption].
Qed.

Lemma matches_has_char (ml : bool) (p : char -> bool) (r : regex) :
  In (One p) r ->
  forall prev ws rest, matches ml r prev ws rest ->
    exists c, p c = true /\ In c (concat ws).
Proof.
  induction r as [|n r IH]; intros Hin prev ws rest Hm; [contradiction|].
  destruct ws as [|w ws]; [contradiction|]. cbn [matches] in Hm.
  destruct Hm as [Hc Hm]. cbn [concat]. destruct Hin as [->|Hin].
  - destruct Hc as [c [-> Hp]]. exists c. split; [assumption|now left].
  - destruct (IH Hin _ _ _ Hm) as [c [Hp Hc']]. exists c.
    split; [assumption|]. apply in_or_app. now right.
Qed.

(** A pattern with a literal character matches nothing in a text without
    that character. *)
Lemma re_sub_without_literal (ml : bool) (r : regex) (f : list str -> str)
    (c0 : char) (x : str) :
  In (Lit c0) r -> ~ In c0 x -> re_sub ml r f x = x.
Proof.
  intros Hin Hx. rewrite re_sub_from.
  rewrite (@sub_from_no_match unit ml r (pure f) x); [reflexivity| |].
  - intros prev s ws H. apply exec_sound in H as [rest [_ Hm]].
    destruct (matches_has_char ml _ r Hin _ _ _ Hm) as [c [_ Hc]].
    unfold group0. intros He. rewrite He in Hc. contradiction.
  - intros u c x' prev ->.
    destruct (exec ml r prev (c :: x')) as [ws|] eqn:E; [|reflexivity].
    exfalso. apply exec_sound in E as [rest [Hs Hm]].
    destruct (matches_has_char ml _ r Hin _ _ _ Hm) as [c1 [Hp Hc]].
    apply N.eqb_eq in Hp. subst c1. apply Hx. apply in_or_app. right.
    rewrite Hs. apply in_or_app. now left.
Qed.

Lemma fix_bold_lines_without_star (s : str) :
  ~ In STAR s -> fix_bold_lines s = s.
Proof.
  intros H. unfold fix_bold_lines.
  rewrite (map_ext_in fix_bold_line (fun w => w)).
  - rewrite map_id. apply join_split.
  - intros w Hw. unfold fix_bold_line.
    apply (re_sub_without_literal false RE_BOLD_TEXT _ STAR); [now left|].
    intros Hc. apply H. now apply (split_chars NL STAR s w).
Qed.

Lemma post_process_without_star (result : str) :
  ~ In STAR result -> post_process result = result.
Proof.
  intros H. unfold post_process, fix_list_markers.
  rewrite (fix_bold_lines_without_star result H).
  rewrite (re_sub_without_literal true RE_BULLET_BOLD _ STAR result)
    by (try assumption; cbn; tauto).
  apply (re_sub_without_literal true RE_ORDINAL_BOLD _ STAR result);
    [cbn; tauto|assumption].
Qed.

(** X11. The post-processing pass returns unchanged every text that has
    no asterisk. *)
Theorem X11_post_process_needs_asterisk (result : str) :
  ~ In STAR result -> post_process result = result.
Proof. apply post_process_without_star. Qed.

Lemma X11_post_process_witness :
  post_process (py "- uno
1. dos") = py "- uno
1. dos".
Proof.
  refine (X11_post_process_needs_asterisk _ _).
  vm_compute. intuition discriminate.
Defined.

Lemma extract_from_none (lines : list str) :
  forall i types, Forall (fun t => t <> Translatable) types ->
    extract_from i lines types = [].
Proof.
  induction lines as [|line lines IH]; intros i [|t types] H; try reflexivity.
  cbn [extract_from]. inversion H as [|? ? Ht Hts]; subst.
  rewrite (IH _ _ Hts). destruct t; try reflexivity. contradiction.
Qed.

(** X12. A document in which Phase 1 finds no translatable line, and
    which has no asterisk, is returned unchanged, and the backend is not
    called. *)
Theorem X12_nothing_translatable_nothing_changed (content : str)
    (translator : list str -> list str) :
  Forall (fun t => t <> Translatable) (line_types (split NL content)) ->
  ~ In STAR content ->
  translate_markdown_file content translator = content.
Proof.
  intros Ht Hs. unfold translate_markdown_file, output_lines, extract_segments.
  rewrite (extract_from_none _ 0 _ Ht).
  cbn [texts_to_translate work_from map call_translator].
  unfold map_back. cbn [text_indices work_from map combine fold_left reconstruct].
  rewrite join_split. now apply post_process_without_star.
Qed.

Lemma X12_code_only_witness :
  translate_markdown_file (py "```
a, b = f(x),, 2

```") (fun _ => [py "unused"]) = py "```
a, b = f(x),, 2

```".
Proof.
  refine (X12_nothing_translatable_nothing_changed _ (fun _ => [py "unused"]) _ _).
  - vm_compute. repeat constructor; discriminate.
  - vm_compute. intuition discriminate.
Defined.

(* ================================================================== *)
(** * Further properties: what is sent to the backend, and the identity
      backend *)
(* ================================================================== *)

Lemma strip_nonempty (text : str) : strip text <> [] -> text <> [].
Proof. intros H ->. now apply H. Qed.

Lemma extract_segment_text (i : nat) (line : str) (seg : segment) :
  extract_segment i line Translatable = Some seg ->
  match seg with
  | TextSeg _ protected _ _ _ => protected <> []
  | TableRow _ _ _ => True
  end.
Proof.
  unfold extract_segment. destruct (strip_prefixes line) as [pre text].
  destruct (is_table_row text); [intros H; now injection H as <-|].
  destruct (is_empty (strip text)) eqn:E; [discriminate|].
  apply is_empty_false, strip_nonempty, protect_nonempty in E.
  destruct (protect_inline_elements text). intros H. now injection H as <-.
Qed.

Lemma extract_from_line (lines : list str) :
  forall i types seg, In seg (extract_from i lines types) ->
    exists line,
      nth_error lines (seg_line_idx seg - i) = Some line /\
      nth_error types (seg_line_idx seg - i) = Some Translatable /\
      extract_segment (seg_line_idx seg) line Translatable = Some seg.
Proof.
  induction lines as [|line lines IH]; intros i [|t types] seg Hin;
    cbn [extract_from] in Hin; try contradiction.
  assert (Hrest : In seg (extract_from (S i) lines types) ->
            exists line0,
              nth_error (line :: lines) (seg_line_idx seg - i) = Some line0 /\
              nth_error (t :: types) (seg_line_idx seg - i) = Some Translatable /\
              extract_segment (seg_line_idx seg) line0 Translatable = Some seg).
  { intros H. pose proof (extract_from_idx _ _ _ _ H) as [Hle _].
    apply IH in H as [line0 H]. exists line0.
    replace (seg_line_idx seg - i) with (S (seg_line_idx seg - S i)) by lia.
    exact H. }
  destruct (extract_segment i line t) as [seg0|] eqn:E; [|now apply Hrest].
  destruct Hin as [->|Hin]; [|now apply Hrest].
  destruct (extract_segment_idx _ _ _ _ E) as [Hi ->]. rewrite Hi, Nat.sub_diag.
  exists line. now repeat split.
Qed.

Lemma cell_texts_nonempty (cells : list cell) :
  Forall (fun t => t <> []) (cell_texts cells).
Proof.
  unfold cell_texts. apply Forall_forall. intros t Ht.
  apply filter_In in Ht as [_ Ht]. apply negb_true_iff in Ht.
  now apply is_empty_false.
Qed.

Lemma seg_texts_nonempty (segments : list segment) :
  Forall (fun seg => match seg with
                     | TextSeg _ protected _ _ _ => protected <> []
                     | TableRow _ _ _ => True
                     end) segments ->
  Forall (fun t => t <> []) (seg_texts segments).
Proof.
  induction 1 as [|[i p phs pre tr|i cells pre] segs Hseg Hsegs IH];
    cbn [seg_texts]; [constructor| |].
  - now constructor.
  - apply Forall_app. split; [apply cell_texts_nonempty|assumption].
Qed.

(** X13. No empty string is ever handed to the backend: the work list of
    Phase 3 holds the protected text of lines that are not blank and the
    cells of table rows that are not empty, and protection never empties
    a text. *)
Theorem X13_no_empty_text_to_translate (lines : list str) :
  Forall (fun t => t <> []) (texts_to_translate (extract_segments lines)).
Proof.
  rewrite texts_to_translate_seg_texts. apply seg_texts_nonempty.
  apply Forall_forall. intros seg Hin.
  apply extract_from_line in Hin as [line [_ [_ H]]].
  now apply (extract_segment_text _ _ _ H).
Qed.

(** ** The identity backend *)

Lemma protect_restore_clean (text : str) :
  in_set text PH_PREFIX = false ->
  comma_free text = true ->
  originals_clean (snd (protect_inline_elements text)) = true ->
  restore_placeholders (fst (protect_inline_elements text))
    (snd (protect_inline_elements text)) = text.
Proof.
  intros Hno Hcf Hor. apply in_set_false in Hno.
  apply originals_clean_values in Hor.
  destruct (protect_pieces text Hno) as [ps [n [Ep [Hm [Hcl [Hb Hx]]]]]].
  unfold restore_placeholders. rewrite Ep.
  rewrite restore_substitution;
    [|assumption|now apply (dict_ok_token_keys n)|assumption
     |now apply (dict_ok_NoDup n)].
  rewrite (Hx Hor).
  rewrite (clean_spurious_no_prefix _ text Hno).
  rewrite (comma_scan_free COMMA _ text (or_introl eq_refl) space_not_comma Hcf).
  apply (comma_scan_free RPAREN _ text (or_intror eq_refl) space_not_rparen Hcf).
Qed.

Lemma set_nth_same {A : Type} (x : A) (l : list A) :
  forall i, nth_error l i = Some x -> set_nth i x l = l.
Proof.
  induction l as [|y l IH]; intros [|i] H; cbn [set_nth nth_error] in *;
    try discriminate.
  - now injection H as ->.
  - f_equal. now apply IH.
Qed.

Lemma nth_error_combine {A B : Type} (l : list A) :
  forall (l' : list B) i x y,
    nth_error l i = Some x -> nth_error l' i = Some y ->
    nth_error (combine l l') i = Some (x, y).
Proof.
  induction l as [|a l IH]; intros [|b l'] [|i] x y H1 H2;
    cbn [nth_error combine] in *; try discriminate.
  - now injection H1 as ->; injection H2 as ->.
  - now apply IH.
Qed.

Lemma reconstruct_fixed (lines : list str) (segments : list segment) :
  Forall (fun seg => reconstruct_segment lines seg = lines) segments ->
  reconstruct lines segments = lines.
Proof.
  unfold reconstruct. induction 1 as [|seg segs Hseg Hsegs IH]; [reflexivity|].
  cbn [fold_left]. now rewrite Hseg.
Qed.

Lemma identity_output (lines : list str) (segments : list segment) :
  Forall fresh segments ->
  reconstruct lines
    (map_back segments (call_translator identity_translator
                          (texts_to_translate segments)))
  = reconstruct lines segments.
Proof.
  intros Hf.
  assert (E : call_translator identity_translator (texts_to_translate segments)
              = seg_texts segments).
  { rewrite texts_to_translate_seg_texts.
    now destruct (seg_texts segments). }
  rewrite E, map_back_distribute.
  rewrite <- reconstruct_eff, <- (reconstruct_eff segments).
  f_equal. pose proof (distribute_pad segments Hf []) as H.
  cbn [app length skipn] in H. now rewrite distribute_nil in H.
Qed.

(** X14. With a backend that returns its inputs, a document whose
    translatable lines are no table rows and hold text that protection and
    restoration give back (no delimiter of tokens, no comma followed by a
    comma or a closing parenthesis) leaves Phase 6 as it came in: the result
    is the post-processing pass applied to the document itself. *)
Theorem X14_identity_backend_round_trip (content : str) :
  translatable_lines_round_trip (split NL content) = true ->
  translate_markdown_file content identity_translator = post_process content.
Proof.
  intros Hok. unfold translate_markdown_file, output_lines. f_equal.
  set (lines := split NL content) in *.
  rewrite identity_output by apply extract_from_fresh.
  rewrite reconstruct_fixed; [apply join_split|].
  apply Forall_forall. intros seg Hin.
  apply extract_from_line in Hin as [line [Hl [Ht He]]].
  rewrite Nat.sub_0_r in Hl, Ht.
  unfold translatable_lines_round_trip in Hok. rewrite forallb_forall in Hok.
  specialize (Hok (line, Translatable)
                (nth_error_In _ _ (nth_error_combine _ _ _ _ _ Hl Ht))).
  cbn [fst snd] in Hok. unfold text_round_trips in Hok.
  unfold extract_segment in He.
  pose proof (strip_prefixes_app line) as Happ.
  destruct (strip_prefixes line) as [pre text]. cbn [fst snd] in Happ.
  apply andb_true_iff in Hok as [Hok Hor].
  apply andb_true_iff in Hok as [Hok Hcf].
  apply andb_true_iff in Hok as [Htab Hno].
  apply negb_true_iff in Htab, Hno. rewrite Htab in He.
  destruct (is_empty (strip text)); [discriminate|].
  pose proof (protect_restore_clean text Hno Hcf Hor) as Hrt.
  destruct (protect_inline_elements text) as [protected phs].
  cbn [fst snd] in Hrt. injection He as <-.
  cbn [reconstruct_segment get_translated seg_line_idx] in *.
  rewrite Hrt, Happ. now apply set_nth_same.
Qed.

Lemma X14_identity_witness :
  translate_markdown_file (py "# Titulo

Ver [la guia](guia.md), y `main()`.
```
x = 1
```
- punto uno") identity_translator = post_process (py "# Titulo

Ver [la guia](guia.md), y `main()`.
```
x = 1
```
- punto uno").
Proof.
  refine (X14_identity_backend_round_trip _ _). reflexivity.
Defined.

(* ================================================================== *)
(** * Further properties: anchors, link rewriting and validation *)
(* ================================================================== *)

Lemma re_sub_delete_class (p : char -> bool) (s : str) :
  re_sub false [One p] (fun _ => []) s = filter (fun c => negb (p c)) s.
Proof.
  induction s as [|c s IH]; [apply re_sub_nil, never_empty_One|].
  cbn [filter]. destruct (p c) eqn:E; cbn [negb].
  - rewrite (re_sub_match [One p] _ (c :: s) [[c]]);
      [exact IH|solve_unanchored|apply never_empty_One|].
    now rewrite exec_One, E.
  - rewrite re_sub_skip; [now rewrite IH|solve_unanchored|].
    now rewrite exec_One, E.
Qed.

Lemma replace_char (x y : char) (s : str) :
  replace [x] [y] s = map (fun c => if (c =? x)%N then y else c) s.
Proof.
  induction s as [|c s IH]; [reflexivity|]. cbn [map].
  destruct (N.eqb_spec c x) as [->|Hc].
  - rewrite replace_hit; [|discriminate|cbn [startswith]; now rewrite N.eqb_refl].
    cbn [length skipn app]. now rewrite IH.
  - rewrite replace_miss; [now rewrite IH|discriminate|].
    cbn [startswith]. destruct (N.eqb_spec x c); [congruence|reflexivity].
Qed.

(** X15. A slug computed by [text_to_anchor] holds nothing but lower-case
    ASCII letters, ASCII digits, hyphens and white space other than the
    space: every space has become a hyphen, and nothing else survives the
    deletion of the characters outside the class. *)
Theorem X15_anchor_alphabet (text : str) :
  forallb anchor_char (text_to_anchor text) = true.
Proof.
  unfold text_to_anchor, RE_NOT_ANCHOR.
  rewrite re_sub_delete_class, replace_char.
  apply forallb_forall. intros c Hc.
  apply in_map_iff in Hc as [c' [<- Hc]]. apply filter_In in Hc as [_ Hc].
  unfold not_anchor_char in Hc. rewrite negb_involutive in Hc.
  unfold anchor_char. destruct (N.eqb_spec c' SP) as [->|Hsp]; [reflexivity|].
  apply N.eqb_neq in Hsp. rewrite Hsp.
  destruct (in_range 97 122 c'); [reflexivity|].
  destruct (in_range 48 57 c'); [reflexivity|].
  cbn [orb] in *. destruct (is_space c'); cbn [orb andb negb] in *.
  - apply orb_true_r.
  - now rewrite Hc.
Qed.

Lemma anchor_map_same_anchors (src tgt : list str) :
  map text_to_anchor src = map text_to_anchor tgt ->
  anchor_map src tgt = [].
Proof.
  unfold anchor_map. generalize (@nil (str * str)) as m. revert tgt.
  induction src as [|a src IH]; intros [|b tgt] m H; try reflexivity;
    try discriminate.
  cbn [map] in H. injection H as Ha H. cbn [combine fold_left fst snd].
  rewrite Ha, str_eqb_refl, !andb_false_r. now apply IH.
Qed.

(** X16. When the headings of the translation have, one by one, the slugs
    of the headings of the source, [fix_heading_anchors] returns the
    translation unchanged: no anchor is mapped.  A document is in that case
    with itself. *)
Theorem X16_same_anchors_no_rewrite (source_content translated_content : str) :
  map text_to_anchor (heading_texts source_content)
  = map text_to_anchor (heading_texts translated_content) ->
  fix_heading_anchors source_content translated_content = translated_content.
Proof.
  intros H. unfold fix_heading_anchors.
  destruct (negb (length (heading_texts source_content)
                  =? length (heading_texts translated_content))); [reflexivity|].
  now rewrite (anchor_map_same_anchors _ _ H).
Qed.

Lemma X16_same_anchors_witness :
  fix_heading_anchors (py "# Base de Datos
ver [db](#base-de-datos)") (py "# BASE de datos!
see [db](#base-de-datos)") = py "# BASE de datos!
see [db](#base-de-datos)".
Proof.
  refine (X16_same_anchors_no_rewrite _ _ _). vm_compute. reflexivity.
Defined.

(** ** Text without closing bracket *)

Lemma replace_without_first (o : char) (old new s : str) :
  ~ In o s -> replace (o :: old) new s = s.
Proof.
  intros H. rewrite <- (app_nil_r s) at 1.
  rewrite replace_skip_prefix by assumption.
  rewrite replace_nil by discriminate. apply app_nil_r.
Qed.

Lemma fold_replace_without_first {A : Type} (o : char)
    (old new : A -> str) (l : list A) (s : str) :
  ~ In o s ->
  fold_left (fun acc a => replace (o :: old a) (new a) acc) l s = s.
Proof.
  intros H. induction l as [|a l IH]; [reflexivity|].
  cbn [fold_left]. now rewrite replace_without_first.
Qed.

Lemma rewrite_cross_references_no_bracket (content : str) :
  ~ In RBRACK content -> rewrite_cross_references content = content.
Proof.
  intros H. unfold rewrite_cross_references.
  change (py "](") with [RBRACK; LPAREN]. cbn [app].
  induction CROSSREF_MAP as [|[es en] l IH]; [reflexivity|].
  cbn [fold_left fst snd].
  rewrite (replace_without_first RBRACK _ _ content H).
  rewrite (replace_without_first RBRACK _ _ content H). exact IH.
Qed.

Lemma rewrite_source_links_no_bracket (content : str) :
  ~ In RBRACK content -> rewrite_source_links content = content.
Proof.
  intros H. unfold rewrite_source_links.
  change (py "](../src/") with (RBRACK :: py "(../src/").
  change (py "](../build.gradle.kts)") with (RBRACK :: py "(../build.gradle.kts)").
  change (py "](../Dockerfile)") with (RBRACK :: py "(../Dockerfile)").
  change (py "](../.github/") with (RBRACK :: py "(../.github/").
  change (py "](../k8s/") with (RBRACK :: py "(../k8s/").
  change (py "](../scripts/") with (RBRACK :: py "(../scripts/").
  now rewrite !(replace_without_first RBRACK _ _ content H).
Qed.

Lemma fix_heading_anchors_no_bracket (source_content translated_content : str) :
  ~ In RBRACK translated_content ->
  fix_heading_anchors source_content translated_content = translated_content.
Proof.
  intros H. unfold fix_heading_anchors.
  destruct (negb (length (heading_texts source_content)
                  =? length (heading_texts translated_content))); [reflexivity|].
  change (py "](#") with [RBRACK; LPAREN; HASH]. cbn [app].
  now apply (fold_replace_without_first RBRACK
               (fun p : str * str => LPAREN :: HASH :: fst p ++ py ")")
               (fun p : str * str => RBRACK :: LPAREN :: HASH :: snd p ++ py ")")).
Qed.

(** X17. The three link rewriters only touch text that follows a closing
    square bracket: a document without one goes through
    [rewrite_cross_references], [rewrite_source_links] and
    [fix_heading_anchors] unchanged, whatever the source document is. *)
Theorem X17_rewriters_need_closing_bracket (source_content content : str) :
  ~ In RBRACK content ->
  rewrite_cross_references content = content /\
  rewrite_source_links content = content /\
  fix_heading_anchors source_content content = content.
Proof.
  intros H. repeat split.
  - now apply rewrite_cross_references_no_bracket.
  - now apply rewrite_source_links_no_bracket.
  - now apply fix_heading_anchors_no_bracket.
Qed.

Lemma X17_rewriters_witness :
  rewrite_cross_references (py "# Indice (01-arquitectura.md)")
    = py "# Indice (01-arquitectura.md)" /\
  rewrite_source_links (py "# Indice (01-arquitectura.md)")
    = py "# Indice (01-arquitectura.md)" /\
  fix_heading_anchors (py "# Index") (py "# Indice (01-arquitectura.md)")
    = py "# Indice (01-arquitectura.md)".
Proof.
  refine (X17_rewriters_need_closing_bracket (py "# Index")
            (py "# Indice (01-arquitectura.md)") _).
  vm_compute. intuition discriminate.
Defined.

(** ** Validation *)

(** X18. Validating a document against itself reports nothing about the
    fences, the headings, the links and the line count; the only warning it
    can give is the one on the tokens left in the text. *)
Theorem X18_validation_against_itself (content : str) :
  validate_translation content content =
  let leftover := re_findall false RE_PLACEHOLDER content in
  if is_empty leftover then [] else [UnrestoredPlaceholders (length leftover)].
Proof.
  unfold validate_translation. rewrite !Nat.eqb_refl. cbn [negb].
  assert (E : forall n, (0 <? n) && ((5 * n <? 4 * n) || (6 * n <? 5 * n)) = false).
  { intros n. destruct (Nat.ltb_spec 0 n); [|reflexivity].
    destruct (Nat.ltb_spec (5 * n) (4 * n)); [lia|].
    destruct (Nat.ltb_spec (6 * n) (5 * n)); [lia|reflexivity]. }
  rewrite E. cbv zeta.
  now destruct (is_empty (re_findall false RE_PLACEHOLDER content)).
Qed.

(* ================================================================== *)
(** * Properties of the clients *)
(* ================================================================== *)

Lemma total_len_app (a b : list str) :
  total_len (a ++ b) = total_len a + total_len b.
Proof. unfold total_len. now rewrite map_app, list_sum_app. Qed.

Lemma total_len_one (t : str) : total_len [t] = length t.
Proof. unfold total_len. cbn. lia. Qed.

Lemma client_eq (n u n' u' : nat) :
  n = n' -> u = u' -> mk_client n u = mk_client n' u'.
Proof. now intros -> ->. Qed.

Lemma batches_from_spec (texts : list str) :
  forall batch batch_size,
    batch_size = total_len batch ->
    (batch = [] \/ batch_ok batch) ->
    concat (batches_from batch batch_size texts) = batch ++ texts /\
    Forall batch_ok (batches_from batch batch_size texts).
Proof.
  induction texts as [|text texts IH]; intros batch bs Hbs Hb;
    cbn [batches_from].
  - destruct batch as [|t batch]; cbn [is_empty negb].
    + now split.
    + cbn [concat]. rewrite !app_nil_r. split; [reflexivity|].
      constructor; [|constructor]. destruct Hb as [Hb|Hb]; [discriminate|exact Hb].
  - destruct ((MAX_BATCH_CHARS <? bs + length text) && negb (is_empty batch))
      eqn:E.
    + apply andb_true_iff in E as [_ E]. apply negb_true_iff, is_empty_false in E.
      destruct (IH [text] (length text)) as [H1 H2].
      * now rewrite total_len_one.
      * right. split; [discriminate|]. right. now exists text.
      * cbn [concat]. rewrite H1. split; [reflexivity|].
        constructor; [|exact H2]. destruct Hb as [Hb|Hb]; [contradiction|exact Hb].
    + destruct (IH (batch ++ [text]) (bs + length text)) as [H1 H2].
      * now rewrite total_len_app, total_len_one, Hbs.
      * right. split; [now destruct batch|].
        apply andb_false_iff in E as [E|E].
        -- left. apply Nat.ltb_ge in E.
           rewrite total_len_app, total_len_one, <- Hbs. exact E.
        -- apply negb_false_iff, is_empty_true in E. subst batch.
           right. now exists text.
      * rewrite <- app_assoc in H1. now split.
Qed.

(** X19. The batches that [DeepLTranslator.translate_batch] sends are the
    texts in order, each text in exactly one batch; no batch is empty, and a
    batch is longer than [MAX_BATCH_CHARS] characters only when it is a single
    text. *)
Theorem X19_batches_partition_the_texts (texts : list str) :
  concat (batches texts) = texts /\ Forall batch_ok (batches texts).
Proof.
  apply (batches_from_spec texts [] 0); [reflexivity|now left].
Qed.

Section AnsweringServer.

Variable f : list str -> list str.
Variable srv : DeepL.server.
Hypothesis srv_ok : forall n payload, srv n payload = DeepL.Reply 200 (f payload).

Lemma call_api_answered (texts : list str) (c : client) :
  DeepL.call_api srv texts c
  = Returned (f texts) (add_chars (total_len texts) (sent c)).
Proof.
  unfold DeepL.call_api. cbn [seq RETRY_ATTEMPTS DeepL.attempts].
  now rewrite srv_ok.
Qed.

Lemma batch_loop_answered (texts : list str) :
  forall results batch batch_size c,
    batch_size = total_len batch ->
    DeepL.batch_loop srv texts results batch batch_size c
    = Returned (results ++ flat_map f (batches_from batch batch_size texts))
        (mk_client
           (requests c + length (batches_from batch batch_size texts))
           (chars_used c + total_len batch + total_len texts)).
Proof.
  induction texts as [|text texts IH]; intros results batch bs c Hbs;
    cbn [DeepL.batch_loop batches_from].
  - destruct batch as [|t batch]; cbn [is_empty negb].
    + cbn [flat_map length]. rewrite app_nil_r. destruct c as [n u].
      cbn [requests chars_used]. change (total_len []) with 0.
      f_equal. apply client_eq; lia.
    + rewrite call_api_answered. cbn [flat_map length]. rewrite app_nil_r.
      destruct c as [n u]. unfold add_chars, sent. cbn [requests chars_used].
      change (total_len []) with 0. f_equal. apply client_eq; lia.
  - destruct ((MAX_BATCH_CHARS <? bs + length text) && negb (is_empty batch)).
    + rewrite call_api_answered. cbn [app Nat.add].
      rewrite IH by now rewrite total_len_one.
      cbn [flat_map length]. rewrite <- app_assoc.
      destruct c as [n u]. unfold add_chars, sent. cbn [requests chars_used].
      change (text :: texts) with ([text] ++ texts).
      rewrite (total_len_app [text] texts). f_equal. apply client_eq; lia.
    + rewrite IH by now rewrite total_len_app, total_len_one, Hbs.
      change (text :: texts) with ([text] ++ texts).
      rewrite (total_len_app [text] texts), total_len_app.
      f_equal. apply client_eq; lia.
Qed.

End AnsweringServer.

(** X20. With a server that answers every request by a response 200,
    [DeepLTranslator.translate_batch] returns the server's translations of
    the batches, one after the other; it makes one request for each batch
    and adds the length of every text to [chars_used] once. *)
Theorem X20_deepl_with_answering_server (f : list str -> list str)
    (srv : DeepL.server) (texts : list str) (c : client) :
  (forall n payload, srv n payload = DeepL.Reply 200 (f payload)) ->
  DeepL.translate_batch srv texts c
  = Returned (flat_map f (batches texts))
      (mk_client (requests c + length (batches texts))
         (chars_used c + total_len texts)).
Proof.
  intros Hsrv. unfold DeepL.translate_batch.
  destruct texts as [|t texts]; cbn [is_empty].
  - cbn [batches batches_from is_empty negb flat_map length].
    change (total_len []) with 0. destruct c as [n u].
    cbn [requests chars_used]. f_equal. apply client_eq; lia.
  - rewrite (batch_loop_answered f srv Hsrv) by reflexivity.
    change (total_len []) with 0. cbn [app]. unfold batches.
    f_equal. apply client_eq; lia.
Qed.

Lemma X20_deepl_witness :
  DeepL.translate_batch (fun _ payload => DeepL.Reply 200 (map (@rev char) payload))
    [py "uno"; py "dos"] (mk_client 0 0)
  = Returned [py "onu"; py "sod"] (mk_client 1 6).
Proof.
  refine (X20_deepl_with_answering_server (map (@rev char))
            (fun _ payload => DeepL.Reply 200 (map (@rev char) payload))
            [py "uno"; py "dos"] (mk_client 0 0) _).
  reflexivity.
Defined.

(** ** One call *)

Ltac retry_cases H :=
  repeat match type of H with
         | context [if ?x =? ?y then _ else _] => destruct (Nat.eqb_spec x y)
         end;
  try discriminate H; try (exfalso; lia).

Lemma deepl_call_api_outcomes (srv : DeepL.server) (texts : list str)
    (c : client) (r : list str) (c' : client) :
  DeepL.call_api srv texts c = Returned r c' ->
  requests c < requests c' <= requests c + RETRY_ATTEMPTS /\
  ((srv (requests c' - 1) texts = DeepL.Reply 200 r /\
    chars_used c' = chars_used c + total_len texts) \/
   (r = texts /\ chars_used c' = chars_used c /\
    requests c' = requests c + RETRY_ATTEMPTS /\
    exists body, srv (requests c + 2) texts = DeepL.Reply 429 body)).
Proof.
  unfold DeepL.call_api, RETRY_ATTEMPTS. cbn [seq DeepL.attempts].
  unfold RETRY_ATTEMPTS.
  destruct c as [n u]. unfold sent, add_chars. cbn [requests chars_used].
  intros H.
  destruct (srv n texts) as [c1 b1|] eqn:E1;
    destruct (srv (S n) texts) as [c2 b2|] eqn:E2;
    destruct (srv (S (S n)) texts) as [c3 b3|] eqn:E3;
    retry_cases H; injection H as <- <-; cbn [requests chars_used];
    (split; [lia|]); subst;
    first
      [ left; split; [|reflexivity];
        first [ replace (S n - 1) with n by lia; assumption
              | replace (S (S n) - 1) with (S n) by lia; assumption
              | replace (S (S (S n)) - 1) with (S (S n)) by lia; assumption ]
      | right; repeat split; try lia;
        exists b3; replace (n + 2) with (S (S n)) by lia; assumption ].
Qed.

(** X21. A call of [DeepLTranslator._call_api] that returns has made one
    to three requests.  It returns the translations of a response 200 and
    counts the characters sent; or, when the third response is the code 429,
    it returns the texts it was given, untranslated, and counts nothing. *)
Theorem X21_deepl_call_api_outcomes (srv : DeepL.server) (texts : list str)
    (c : client) (r : list str) (c' : client) :
  DeepL.call_api srv texts c = Returned r c' ->
  requests c < requests c' <= requests c + RETRY_ATTEMPTS /\
  ((srv (requests c' - 1) texts = DeepL.Reply 200 r /\
    chars_used c' = chars_used c + total_len texts) \/
   (r = texts /\ chars_used c' = chars_used c /\
    requests c' = requests c + RETRY_ATTEMPTS /\
    exists body, srv (requests c + 2) texts = DeepL.Reply 429 body)).
Proof. apply deepl_call_api_outcomes. Qed.

Lemma X21_rate_limited_witness :
  let srv : DeepL.server := fun _ _ => DeepL.Reply 429 [] in
  let c := mk_client 0 0 in
  let c' := mk_client 3 0 in
  requests c < requests c' <= requests c + RETRY_ATTEMPTS /\
  ((srv (requests c' - 1) [py "hola"] = DeepL.Reply 200 [py "hola"] /\
    chars_used c' = chars_used c + total_len [py "hola"]) \/
   ([py "hola"] = [py "hola"] /\ chars_used c' = chars_used c /\
    requests c' = requests c + RETRY_ATTEMPTS /\
    exists body, srv (requests c + 2) [py "hola"] = DeepL.Reply 429 body)).
Proof.
  refine (X21_deepl_call_api_outcomes (fun _ _ => DeepL.Reply 429 [])
            [py "hola"] (mk_client 0 0) [py "hola"] (mk_client 3 0) _).
  reflexivity.
Defined.

(** ** One result for each text *)

Section CountedReplies.

Variable srv : DeepL.server.
Hypothesis srv_counts :
  forall n payload body,
    srv n payload = DeepL.Reply 200 body -> length body = length payload.

Lemma call_api_counted (texts : list str) (c : client) (r : list str)
    (c' : client) :
  DeepL.call_api srv texts c = Returned r c' -> length r = length texts.
Proof.
  intros H. apply deepl_call_api_outcomes in H as [_ [[H _]|[-> _]]];
    [|reflexivity].
  now apply srv_counts in H.
Qed.

Lemma batch_loop_counted (texts : list str) :
  forall results batch batch_size c r c',
    DeepL.batch_loop srv texts results batch batch_size c = Returned r c' ->
    length r = length results + length batch + length texts.
Proof.
  induction texts as [|text texts IH]; intros results batch bs c r c';
    cbn [DeepL.batch_loop].
  - destruct batch as [|t batch]; cbn [is_empty negb].
    + intros H. injection H as <- <-. cbn [length]. lia.
    + destruct (DeepL.call_api srv (t :: batch) c) as [tr c1|] eqn:E;
        [|discriminate].
      intros H. injection H as <- <-. apply call_api_counted in E.
      rewrite length_app, E. cbn [length]. lia.
  - destruct ((MAX_BATCH_CHARS <? bs + length text) && negb (is_empty batch)).
    + destruct (DeepL.call_api srv batch c) as [tr c1|] eqn:E; [|discriminate].
      intros H. apply IH in H. apply call_api_counted in E.
      rewrite length_app, E in H. cbn [app length] in *. lia.
    + intros H. apply IH in H. rewrite length_app in H. cbn [length] in *. lia.
Qed.

End CountedReplies.

(** X22. When every response 200 carries as many translations as the
    request carried texts, [DeepLTranslator.translate_batch] returns, if it
    returns, one result for each text, however the texts were cut into
    batches and whichever calls fell back on their input. *)
Theorem X22_deepl_one_result_per_text (srv : DeepL.server) (texts : list str)
    (c : client) (r : list str) (c' : client) :
  (forall n payload body,
      srv n payload = DeepL.Reply 200 body -> length body = length payload) ->
  DeepL.translate_batch srv texts c = Returned r c' ->
  length r = length texts.
Proof.
  intros Hsrv. unfold DeepL.translate_batch.
  destruct texts as [|t texts]; cbn [is_empty].
  - intros H. now injection H as <- <-.
  - intros H. apply (batch_loop_counted srv Hsrv) in H. exact H.
Qed.

Lemma X22_deepl_count_witness :
  length [py "u"; py "d"] = length [py "uno"; py "dos"].
Proof.
  refine (X22_deepl_one_result_per_text
            (fun n payload => if n =? 0 then DeepL.Reply 500 []
                              else DeepL.Reply 200 (map (firstn 1) payload))
            [py "uno"; py "dos"] (mk_client 0 0) [py "u"; py "d"]
            (mk_client 2 6) _ _).
  - intros n payload body. destruct (n =? 0); [discriminate|].
    intros H. injection H as <-. apply length_map.
  - reflexivity.
Defined.

(** ** The clients that translate the texts one by one *)

Section OneByOne.

Variable call_api : str -> client -> outcome str.
Hypothesis call_api_requests :
  forall text c t c', call_api text c = Returned t c' ->
    chars_used c' = chars_used c /\
    requests c < requests c' <= requests c + RETRY_ATTEMPTS.

Lemma each_loop_counted (texts : list str) :
  forall results c r c',
    each_loop call_api texts results c = Returned r c' ->
    length r = length results + length texts /\
    chars_used c' = chars_used c + total_len texts /\
    requests c + length texts <= requests c' /\
    requests c' <= requests c + RETRY_ATTEMPTS * length texts.
Proof.
  induction texts as [|text texts IH]; intros results c r c';
    cbn [each_loop].
  - intros H. injection H as <- <-. change (total_len []) with 0.
    cbn [length]. lia.
  - destruct (call_api text c) as [t c1|] eqn:E; [|discriminate].
    intros H. apply IH in H as [H1 [H2 [H3 H4]]].
    apply call_api_requests in E as [E1 E2].
    unfold add_chars in *. cbn [requests chars_used] in *.
    rewrite length_app in H1. change (text :: texts) with ([text] ++ texts).
    rewrite total_len_app, total_len_one. cbn [length app] in *. lia.
Qed.

Lemma translate_each_counted (texts : list str) (c : client) (r : list str)
    (c' : client) :
  translate_each call_api texts c = Returned r c' ->
  length r = length texts /\
  chars_used c' = chars_used c + total_len texts /\
  requests c + length texts <= requests c' /\
  requests c' <= requests c + RETRY_ATTEMPTS * length texts.
Proof.
  unfold translate_each. destruct texts as [|t texts]; cbn [is_empty].
  - intros H. injection H as <- <-. change (total_len []) with 0.
    cbn [length]. lia.
  - intros H. apply each_loop_counted in H. exact H.
Qed.

End OneByOne.

Lemma google_call_api_requests (srv : Google.server) (text : str) (c : client)
    (t : str) (c' : client) :
  Google.call_api srv text c = Returned t c' ->
  chars_used c' = chars_used c /\
  requests c < requests c' <= requests c + RETRY_ATTEMPTS.
Proof.
  unfold Google.call_api, RETRY_ATTEMPTS. cbn [seq Google.attempts].
  unfold RETRY_ATTEMPTS.
  destruct c as [n u]. unfold sent. cbn [requests chars_used].
  intros H.
  destruct (srv n text) as [c1 b1|] eqn:E1;
    destruct (srv (S n) text) as [c2 b2|] eqn:E2;
    destruct (srv (S (S n)) text) as [c3 b3|] eqn:E3;
    retry_cases H; injection H as <- <-; cbn [requests chars_used]; lia.
Qed.

Lemma openai_call_api_requests (srv : OpenAI.server) (text : str) (c : client)
    (t : str) (c' : client) :
  OpenAI.call_api srv text c = Returned t c' ->
  chars_used c' = chars_used c /\
  requests c < requests c' <= requests c + RETRY_ATTEMPTS.
Proof.
  unfold OpenAI.call_api, RETRY_ATTEMPTS. cbn [seq OpenAI.attempts].
  unfold RETRY_ATTEMPTS.
  destruct c as [n u]. unfold sent. cbn [requests chars_used].
  intros H.
  destruct (srv n text) as [c1 b1|] eqn:E1;
    destruct (srv (S n) text) as [c2 b2|] eqn:E2;
    destruct (srv (S (S n)) text) as [c3 b3|] eqn:E3;
    retry_cases H; injection H as <- <-; cbn [requests chars_used]; lia.
Qed.

(** X23. Whatever the server answers, [GoogleTranslator.translate_batch]
    returns, if it returns, one result for each text; it has then added the
    length of every text to [chars_used] and made between one and
    [RETRY_ATTEMPTS] requests for each text. *)
Theorem X23_google_one_result_per_text (srv : Google.server)
    (texts : list str) (c : client) (r : list str) (c' : client) :
  Google.translate_batch srv texts c = Returned r c' ->
  length r = length texts /\
  chars_used c' = chars_used c + total_len texts /\
  requests c + length texts <= requests c' /\
  requests c' <= requests c + RETRY_ATTEMPTS * length texts.
Proof.
  apply translate_each_counted. apply google_call_api_requests.
Qed.

Lemma X23_google_witness :
  length [py "Hello"; py "adios"] = length [py "hola"; py "adios"] /\
  chars_used (mk_client 4 9) = 0 + total_len [py "hola"; py "adios"] /\
  0 + length [py "hola"; py "adios"] <= requests (mk_client 4 9) /\
  requests (mk_client 4 9) <= 0 + RETRY_ATTEMPTS * length [py "hola"; py "adios"].
Proof.
  refine (X23_google_one_result_per_text
            (fun n text => if n =? 0 then Google.Reply 200 [py "Hel"; py "lo"]
                           else Google.Reply 429 [])
            [py "hola"; py "adios"] (mk_client 0 0) [py "Hello"; py "adios"]
            (mk_client 4 9) _).
  reflexivity.
Defined.

(** X24. Whatever the server answers, [OpenAITranslator.translate_batch]
    returns, if it returns, one result for each text; it has then added the
    length of every text to [chars_used] and made between one and
    [RETRY_ATTEMPTS] requests for each text. *)
Theorem X24_openai_one_result_per_text (srv : OpenAI.server)
    (texts : list str) (c : client) (r : list str) (c' : client) :
  OpenAI.translate_batch srv texts c = Returned r c' ->
  length r = length texts /\
  chars_used c' = chars_used c + total_len texts /\
  requests c + length texts <= requests c' /\
  requests c' <= requests c + RETRY_ATTEMPTS * length texts.
Proof.
  apply translate_each_counted. apply openai_call_api_requests.
Qed.

Lemma X24_openai_witness :
  length [py "Hello"] = length [py "hola"] /\
  chars_used (mk_client 2 4) = 0 + total_len [py "hola"] /\
  0 + length [py "hola"] <= requests (mk_client 2 4) /\
  requests (mk_client 2 4) <= 0 + RETRY_ATTEMPTS * length [py "hola"].
Proof.
  refine (X24_openai_one_result_per_text
            (fun n text => if n =? 0 then OpenAI.RequestException
                           else OpenAI.Reply 200 (py " Hello
"))
            [py "hola"] (mk_client 0 0) [py "Hello"] (mk_client 2 4) _).
  reflexivity.
Defined.

(* ================================================================== *)
(** * Properties of the toggle and of the cache *)
(* ================================================================== *)

Lemma toggle_from_none (rest lines : list str) :
  forall i, Forall (fun l => startswith [HASH; SP] l = false) rest ->
    toggle_from i rest lines = lines.
Proof.
  induction rest as [|line rest IH]; intros i H; [reflexivity|].
  inversion H as [|? ? Hl Hr]; subst. cbn [toggle_from]. rewrite Hl.
  now apply IH.
Qed.

Lemma toggle_from_first (pre : list str) (heading : str) (post lines : list str) :
  forall i, Forall (fun l => startswith [HASH; SP] l = false) pre ->
    startswith [HASH; SP] heading = true ->
    toggle_from i (pre ++ heading :: post) lines
    = insert_toggle (i + length pre) lines.
Proof.
  induction pre as [|line pre IH]; intros i H Hh.
  - cbn [app toggle_from length]. now rewrite Hh, Nat.add_0_r.
  - inversion H as [|? ? Hl Hr]; subst. cbn [app toggle_from length].
    rewrite Hl, IH by assumption. f_equal. lia.
Qed.

Lemma list_insert_app {A : Type} (a b : list A) (k : nat) (x : A) :
  list_insert (length a + k) x (a ++ b) = a ++ list_insert k x b.
Proof.
  unfold list_insert. rewrite firstn_app, skipn_app.
  replace (length a + k - length a) with k by lia.
  rewrite firstn_all2 by lia. rewrite skipn_all2 by lia.
  now rewrite <- app_assoc.
Qed.

Lemma insert_toggle_after (pre : list str) (heading : str) (post : list str) :
  insert_toggle (length pre) (pre ++ heading :: post)
  = pre ++ heading :: blank_then_toggle post.
Proof.
  unfold insert_toggle. rewrite length_app. cbn [length].
  rewrite app_nth2_plus.
  replace (length pre + 1 <? length pre + S (length post))
    with (0 <? length post)
    by (destruct (Nat.ltb_spec 0 (length post));
        destruct (Nat.ltb_spec (length pre + 1) (length pre + S (length post)));
        try reflexivity; lia).
  destruct post as [|next post]; cbn [length nth blank_then_toggle].
  - cbn [Nat.ltb Nat.leb andb]. rewrite !list_insert_app. reflexivity.
  - change (0 <? S (length post)) with true. cbn [andb].
    destruct (is_empty (strip next)); rewrite !list_insert_app; reflexivity.
Qed.

(** X25. In a README whose lines do not start with the mark of a
    first-level heading, [add_language_toggle] inserts nothing: the content
    is returned as it is. *)
Theorem X25_no_heading_no_toggle (content : str) :
  Forall (fun l => startswith [HASH; SP] l = false) (split NL content) ->
  add_language_toggle content true = content.
Proof.
  intros H. unfold add_language_toggle.
  rewrite toggle_from_none by assumption. apply join_split.
Qed.

Lemma X25_no_heading_witness :
  add_language_toggle (py "## Notas
#sin espacio") true = py "## Notas
#sin espacio".
Proof.
  refine (X25_no_heading_no_toggle _ _).
  vm_compute. repeat constructor.
Defined.

(** X26. In a README, the toggle goes after the first line that starts
    with the mark of a first-level heading, and only there: the lines before
    and the heading are kept; when the line that follows the heading is
    blank, it is kept and the toggle is put after it; otherwise an empty line
    and the toggle are put between the heading and what followed. *)
Theorem X26_toggle_after_first_heading (pre : list str) (heading : str)
    (post : list str) :
  Forall (fun l => startswith [HASH; SP] l = false) pre ->
  startswith [HASH; SP] heading = true ->
  Forall (fun l => ~ In NL l) (pre ++ heading :: post) ->
  add_language_toggle (join [NL] (pre ++ heading :: post)) true
  = join [NL] (pre ++ heading :: blank_then_toggle post).
Proof.
  intros Hpre Hh Hnl. unfold add_language_toggle.
  rewrite split_join; [|now destruct pre|assumption].
  rewrite (toggle_from_first pre heading post _ 0 Hpre Hh). cbn [Nat.add].
  now rewrite insert_toggle_after.
Qed.

Lemma X26_toggle_witness :
  add_language_toggle (py "intro
# Proyecto
texto
# Otro") true = py "intro
# Proyecto

> **[Leer en espanol](README.md)**
texto
# Otro".
Proof.
  refine (X26_toggle_after_first_heading [py "intro"] (py "# Proyecto")
            [py "texto"; py "# Otro"] _ _ _).
  - repeat constructor.
  - reflexivity.
  - repeat constructor; vm_compute; intuition discriminate.
Defined.

(** ** The cache *)

Lemma lookup_dict_set (k k' v : str) (d : dict) :
  lookup k' (dict_set k v d)
  = if str_eqb k' k then Some v else lookup k' d.
Proof.
  induction d as [|[k0 v0] d IH]; cbn [dict_set lookup].
  - reflexivity.
  - destruct (str_eqb k k0) eqn:E.
    + apply str_eqb_eq in E. subst k0. cbn [lookup].
      now destruct (str_eqb k' k).
    + cbn [lookup]. rewrite IH. destruct (str_eqb k' k0) eqn:E0; [|reflexivity].
      apply str_eqb_eq in E0. subst k0.
      destruct (str_eqb k' k) eqn:E1; [|reflexivity].
      apply str_eqb_eq in E1. subst k'. rewrite str_eqb_refl in E. discriminate.
Qed.

(** X27. After [update] for a file, [is_changed] answers for every path
    by its last component alone: a path with the name of the updated file is
    changed exactly when its hash differs from the hash just stored, so the
    updated file itself is not changed; a path with another name gets the
    answer it had before. *)
Theorem X27_cache_update_then_is_changed (read_bytes : Cache.path -> list N)
    (hexdigest : list N -> str) (data : dict) (p q : Cache.path) :
  Cache.is_changed read_bytes hexdigest
    (Cache.update read_bytes hexdigest data p) q
  = (if str_eqb (Cache.name q) (Cache.name p)
     then negb (str_eqb (Cache.file_hash read_bytes hexdigest p)
                  (Cache.file_hash read_bytes hexdigest q))
     else Cache.is_changed read_bytes hexdigest data q)
  /\ Cache.is_changed read_bytes hexdigest
       (Cache.update read_bytes hexdigest data p) p = false.
Proof.
  unfold Cache.is_changed, Cache.update. rewrite !lookup_dict_set.
  split.
  - now destruct (str_eqb (Cache.name q) (Cache.name p)).
  - now rewrite !str_eqb_refl.
Qed.

(** X28. A cache that is missing, or that was written by another version
    of the script, is emptied when it is opened: every file is then changed,
    whatever its name and its content. *)
Theorem X28_stale_cache_forgets_everything (read_bytes : Cache.path -> list N)
    (hexdigest : list N -> str) (loaded : option dict) (p : Cache.path) :
  match loaded with
  | Some d => lookup Cache.VERSION_KEY d <> Some Cache.SCRIPT_VERSION
  | None => True
  end ->
  Cache.is_changed read_bytes hexdigest (Cache.init loaded) p = true.
Proof.
  intros H.
  assert (E : Cache.init loaded = [(Cache.VERSION_KEY, Cache.SCRIPT_VERSION)]).
  { unfold Cache.init. destruct loaded as [d|]; [|reflexivity].
    destruct (lookup Cache.VERSION_KEY d) as [v|]; [|reflexivity].
    destruct (str_eqb v Cache.SCRIPT_VERSION) eqn:Ev; [|reflexivity].
    apply str_eqb_eq in Ev. subst v. now contradiction H. }
  rewrite E. unfold Cache.is_changed. cbn [lookup].
  destruct (str_eqb (Cache.name p) Cache.VERSION_KEY); reflexivity.
Qed.

Lemma X28_stale_cache_witness :
  Cache.is_changed (fun _ => []) (fun _ => py "e3b0")
    (Cache.init (Some [(py "script_version", py "1.6.0");
                       (py "a.md", py "sha256:e3b0")]))
    (Cache.mk_path (py "docs") (py "a.md")) = true.
Proof.
  refine (X28_stale_cache_forgets_everything (fun _ => []) (fun _ => py "e3b0")
            (Some [(py "script_version", py "1.6.0");
                   (py "a.md", py "sha256:e3b0")])
            (Cache.mk_path (py "docs") (py "a.md")) _).
  vm_compute. discriminate.
Defined.

(* ================================================================== *)
(** * Properties of the choice of the backend *)
(* ================================================================== *)

Lemma quota_reached (u : usage) :
  (100 <=? quota_pct u)%N = (limit_chars u <=? used_chars u)%N.
Proof.
  unfold quota_pct. destruct (N.eqb_spec (limit_chars u) 0) as [E|E].
  - rewrite E. symmetry. apply N.leb_le. lia.
  - destruct (N.leb_spec (limit_chars u) (used_chars u)) as [H|H].
    + apply N.leb_le. apply N.div_le_lower_bound; [assumption|]. lia.
    + apply N.leb_gt. apply N.Div0.div_lt_upper_bound. lia.
Qed.

(** X29. With the DeepL backend asked for and its key set, the script
    stays with DeepL exactly when the usage could not be fetched or the
    count of used characters is below the limit (a limit of 0 counts as
    reached); otherwise it switches to OpenAI when the OpenAI key is set and
    to Google when it is not.  The percentage it prints is rounded down, so
    the switch happens only when the quota is used up. *)
Theorem X29_fallback_when_quota_used_up (deepl_key openai_key : option str)
    (answer : option usage) :
  key_missing deepl_key = false ->
  select_backend Deepl deepl_key openai_key answer =
  match answer with
  | None => Selected Deepl
  | Some u =>
      if (used_chars u <? limit_chars u)%N then Selected Deepl
      else if key_missing openai_key then Selected Google
      else Selected Openai
  end.
Proof.
  intros Hk. unfold select_backend. rewrite Hk.
  destruct answer as [u|]; [|reflexivity].
  rewrite quota_reached, N.ltb_antisym.
  destruct (limit_chars u <=? used_chars u)%N; cbn [negb]; [|reflexivity].
  now destruct (key_missing openai_key).
Qed.

Lemma X29_fallback_witness :
  select_backend Deepl (Some (py "k")) None
    (Some (mk_usage (Some 499999%N) None)) = Selected Deepl.
Proof.
  refine (X29_fallback_when_quota_used_up (Some (py "k")) None
            (Some (mk_usage (Some 499999%N) None)) _).
  reflexivity.
Defined.

(** X30. The choice of the backend leaves the script only when the key of
    the backend asked for is unset or empty; the Google backend needs no key,
    and a missing OpenAI key never stops a run that asked for DeepL. *)
Theorem X30_exit_only_for_missing_key (arg : backend)
    (deepl_key openai_key : option str) (answer : option usage) :
  select_backend arg deepl_key openai_key answer = MissingKey <->
  (arg = Deepl /\ key_missing deepl_key = true) \/
  (arg = Openai /\ key_missing openai_key = true).
Proof.
  unfold select_backend. split.
  - destruct arg.
    + destruct (key_missing deepl_key); [intros _; left; now split|].
      destruct answer as [u|]; [|discriminate].
      destruct (100 <=? quota_pct u)%N; [|discriminate].
      destruct (negb (key_missing openai_key)); discriminate.
    + destruct (key_missing openai_key); [intros _; right; now split|].
      discriminate.
    + discriminate.
  - intros [[-> H]|[-> H]]; now rewrite H.
Qed.
